(** * ChatSession: sequencing of sends and admission into history

    A shallow embedding of [src/methods/chat-session.ts].  The class is
    written with promises and [async]/[await], so the embedding has two
    layers:

    - a small model of the ECMAScript job queue (promise states, reactions,
      reaction jobs and thenable-resolution jobs), in which every closure of
      the source file is one constructor carrying its captured variables;
    - the three methods of [ChatSession], written in a state monad over the
      session fields and that runtime.

    The collaborators imported by the source ([formatNewContent],
    [formatBlockErrorMessage], [isValidResponse], [validateChatHistory]) are
    parameters of the development; the two remote calls ([generateContent],
    [generateContentStream]) return promises that the environment settles. *)

From stdpp Require Import gmap strings list fin_maps.

Set Warnings "-register-all".

Open Scope string_scope.

(** ** JavaScript values and objects *)

(** The fragment of JavaScript values that reaches the session: objects are
    finite maps from property names to values, so that a property can be
    absent, or present with value [undefined]. *)
Inductive jsval :=
| JUndefined
| JNull
| JBool (b : bool)
| JStr (s : string)
| JArr (items : list jsval)
| JObj (fields : gmap string jsval).

(** [if (v)]: the values that pass a JavaScript condition. *)
Definition truthy (v : jsval) : bool :=
  match v with
  | JUndefined | JNull => false
  | JBool b => b
  | JStr s => negb (String.eqb s "")
  | JArr _ | JObj _ => true
  end.

(** [Content], [RequestOptions] and [SingleRequestOptions] are plain objects. *)
Abbreviation Content := (gmap string jsval) (only parsing).
Abbreviation RequestOptions := (gmap string jsval) (only parsing).

(** [o.k]: reading an absent property gives [undefined]. *)
Definition prop (o : gmap string jsval) (k : string) : jsval :=
  default JUndefined (o !! k).

(** [{ ...a, ...b }]: own properties of [a], overridden by those of [b]. *)
Definition spread (a b : gmap string jsval) : gmap string jsval := b ∪ a.
Global Arguments spread : simpl never.

(** Thrown values are [Error] objects, told apart by name and message. *)
Inductive jserr := JsError (name message : string).

Definition message (e : jserr) : string :=
  let 'JsError _ m := e in m.

Definition TypeError (m : string) : jserr := JsError "TypeError" m.

(** ** Types of the generation service *)

Record Candidate := {
  content : option (gmap string jsval);
  finishReason : jsval
}.

Record GenerateContentResponse := {
  candidates : option (list Candidate);
  promptFeedback : jsval
}.

Record GenerateContentResult := {
  response : GenerateContentResponse
}.

Module Params.
(** [StartChatParams]; every field is optional. *)
Record t := {
  history : option (list (gmap string jsval));
  safetySettings : jsval;
  generationConfig : jsval;
  tools : jsval;
  toolConfig : jsval;
  systemInstruction : jsval;
  cachedContent : jsval
}.
End Params.

Record GenerateContentRequest := {
  safetySettings : jsval;
  generationConfig : jsval;
  tools : jsval;
  toolConfig : jsval;
  systemInstruction : jsval;
  cachedContent : jsval;
  contents : list (gmap string jsval)
}.

(** [string | Array<string | Part>] *)
Inductive Request :=
| RequestString (s : string)
| RequestArray (items : list jsval).

(** ** Promises and the job queue *)

(** Promises are identified by their index in the heap. *)
Abbreviation pid := nat (only parsing).

(** What a promise can be fulfilled with, or a handler can return. *)
Inductive val :=
| VUndefined
| VResult (r : GenerateContentResult)
| VStreamResult (response : pid)
| VResponse (r : GenerateContentResponse)
| VHistory
| VPromise (p : pid).

(** The closures passed to [.then] in the source, with what they capture. *)
Inductive onFulfilled :=
| CallGenerateContent (request : GenerateContentRequest) (options : gmap string jsval)
| AdmitUnary (finalResult : nat) (newContent : gmap string jsval)
| ReturnStreamPromise (streamPromise : pid)
| TakeResponse
| AdmitStream (newContent : gmap string jsval).

(** The closures passed to [.catch] in the source. *)
Inductive onRejected :=
| ResetAndRethrow
| ThrowSilent
| LogUnlessSilent.

(** The points where an [async] method is suspended by [await]. *)
Inductive awaiter :=
| InGetHistory (ret : pid)
| InSendMessage (request : Request) (requestOptions : gmap string jsval) (ret : pid)
| InSendMessageEnd (finalResult : nat) (ret : pid)
| InSendMessageStream (request : Request) (requestOptions : gmap string jsval) (ret : pid).

(** What is registered on a promise: a [.then]/[.catch] with its derived
    promise, a suspended [async] method, or the resolving functions of a
    promise that adopts this one. *)
Inductive reaction :=
| Then (f : option onFulfilled) (g : option onRejected) (derived : pid)
| Await (k : awaiter)
| Adopt (target : pid).

Inductive pstate :=
| Pending (reactions : list reaction)
| Fulfilled (v : val)
| Rejected (e : jserr).

Inductive settled :=
| Ok (v : val)
| Err (e : jserr).

Inductive job :=
| ReactionJob (r : reaction) (o : settled)
| ResolveThenableJob (target thenable : pid).

Inductive diagnostic :=
| Warn (text : string)
| Error (e : jserr).

Inductive callKind := Unary | Streaming.

#[global] Instance callKind_eq_dec : EqDecision callKind.
Proof. solve_decision. Defined.

(** One dispatched remote call: the promise it returned and its arguments. *)
Record RemoteCall := {
  call_kind : callKind;
  call_promise : pid;
  call_apiKey : string;
  call_model : string;
  call_request : GenerateContentRequest;
  call_options : gmap string jsval
}.

(** The fields of one [ChatSession], followed by the runtime it runs in. *)
Record state := State {
  _apiKey : string;
  model : string;
  params : option Params.t;
  _requestOptions : gmap string jsval;
  _history : list (gmap string jsval);
  _sendPromise : pid;
  heap : list pstate;
  locals : list val;
  queue : list job;
  console : list diagnostic;
  calls : list RemoteCall;
  responses : list pid
}.

(** ** The state monad of the runtime *)

Definition M (A : Type) : Type := state → A * state.

#[global] Instance M_ret : MRet M := λ A a s, (a, s).
#[global] Instance M_bind : MBind M :=
  λ A B f m s, let '(a, s') := m s in f a s'.

Definition get {A} (f : state → A) : M A := λ s, (f s, s).
Definition modify (f : state → state) : M unit := λ s, (tt, f s).
Definition exec {A} (m : M A) (s : state) : state := snd (m s).

Definition with_history (h : list (gmap string jsval)) (s : state) : state :=
  State (_apiKey s) (model s) (params s) (_requestOptions s) h (_sendPromise s)
        (heap s) (locals s) (queue s) (console s) (calls s) (responses s).
Definition with_sendPromise (p : pid) (s : state) : state :=
  State (_apiKey s) (model s) (params s) (_requestOptions s) (_history s) p
        (heap s) (locals s) (queue s) (console s) (calls s) (responses s).
Definition with_heap (h : list pstate) (s : state) : state :=
  State (_apiKey s) (model s) (params s) (_requestOptions s) (_history s)
        (_sendPromise s) h (locals s) (queue s) (console s) (calls s) (responses s).
Definition with_locals (l : list val) (s : state) : state :=
  State (_apiKey s) (model s) (params s) (_requestOptions s) (_history s)
        (_sendPromise s) (heap s) l (queue s) (console s) (calls s) (responses s).
Definition with_queue (q : list job) (s : state) : state :=
  State (_apiKey s) (model s) (params s) (_requestOptions s) (_history s)
        (_sendPromise s) (heap s) (locals s) q (console s) (calls s) (responses s).
Definition with_console (c : list diagnostic) (s : state) : state :=
  State (_apiKey s) (model s) (params s) (_requestOptions s) (_history s)
        (_sendPromise s) (heap s) (locals s) (queue s) c (calls s) (responses s).
Definition with_calls (c : list RemoteCall) (s : state) : state :=
  State (_apiKey s) (model s) (params s) (_requestOptions s) (_history s)
        (_sendPromise s) (heap s) (locals s) (queue s) (console s) c (responses s).
Definition with_responses (r : list pid) (s : state) : state :=
  State (_apiKey s) (model s) (params s) (_requestOptions s) (_history s)
        (_sendPromise s) (heap s) (locals s) (queue s) (console s) (calls s) r.

(** ** Promise operations (ECMA-262, 27.2) *)

(** A new promise object; its identity is the next free index. *)
Definition newPromise (st : pstate) : M pid :=
  λ s, (length (heap s), with_heap (heap s ++ [st]) s).

(** [Promise.resolve()] *)
Definition Promise_resolve : M pid := newPromise (Fulfilled VUndefined).

(** HostEnqueuePromiseJob: jobs run first in, first out. *)
Definition enqueue (j : job) : M unit :=
  modify (λ s, with_queue (queue s ++ [j]) s).

(** PerformPromiseThen: a pending promise records the reaction, a settled one
    schedules it at once. *)
Definition performThen (p : pid) (r : reaction) : M unit :=
  h ← get heap;
  match h !! p with
  | Some (Pending rs) => modify (with_heap (<[p := Pending (rs ++ [r])]> h))
  | Some (Fulfilled v) => enqueue (ReactionJob r (Ok v))
  | Some (Rejected e) => enqueue (ReactionJob r (Err e))
  | None => mret tt
  end.

(** FulfillPromise / RejectPromise: only a pending promise changes, and its
    reactions are scheduled in registration order. *)
Definition settle (p : pid) (o : settled) : M unit :=
  h ← get heap;
  match h !! p with
  | Some (Pending rs) =>
      modify (with_heap
        (<[p := match o with Ok v => Fulfilled v | Err e => Rejected e end]> h));;
      modify (λ s, with_queue (queue s ++ map (λ r, ReactionJob r o) rs) s)
  | _ => mret tt
  end.

(** The resolve function of a promise: resolving with another promise
    schedules the job that will subscribe to it. *)
Definition resolvePromise (p : pid) (v : val) : M unit :=
  match v with
  | VPromise x =>
      if decide (x = p)
      then settle p (Err (TypeError "Chaining cycle detected for promise"))
      else enqueue (ResolveThenableJob p x)
  | _ => settle p (Ok v)
  end.

(** [p.then(f)] *)
Definition then_ (p : pid) (f : onFulfilled) : M pid :=
  q ← newPromise (Pending []);
  performThen p (Then (Some f) None q);;
  mret q.

(** [p.catch(g)] *)
Definition catch_ (p : pid) (g : onRejected) : M pid :=
  q ← newPromise (Pending []);
  performThen p (Then None (Some g) q);;
  mret q.

(** [await p] for a native promise [p]: the method is suspended at [k]. *)
Definition await (p : pid) (k : awaiter) : M unit :=
  performThen p (Await k).

(** How a handler ends. *)
Inductive completion :=
| Return (v : val)
| Throw (e : jserr).

Definition complete (q : pid) (c : completion) : M unit :=
  match c with
  | Return v => resolvePromise q v
  | Throw e => settle q (Err e)
  end.

(** A [let] variable shared by a method and the closures it creates. *)
Definition newLocal (v : val) : M nat :=
  λ s, (length (locals s), with_locals (locals s ++ [v]) s).
Definition setLocal (x : nat) (v : val) : M unit :=
  modify (λ s, with_locals (<[x := v]> (locals s)) s).
Definition getLocal (x : nat) : M val :=
  get (λ s, default VUndefined (locals s !! x)).

(** [console.warn], [console.error] *)
Definition console_warn (text : string) : M unit :=
  modify (λ s, with_console (console s ++ [Warn text]) s).
Definition console_error (e : jserr) : M unit :=
  modify (λ s, with_console (console s ++ [Error e]) s).

(** ** The remote calls *)

(** Both are [async] functions of the library: they return a new pending
    promise, which the environment settles later. *)
Definition dispatch (k : callKind) (apiKey model : string)
    (request : GenerateContentRequest) (options : gmap string jsval) : M pid :=
  p ← newPromise (Pending []);
  modify (λ s, with_calls
    (calls s ++ [{| call_kind := k; call_promise := p; call_apiKey := apiKey;
                    call_model := model; call_request := request;
                    call_options := options |}]) s);;
  mret p.

Definition generateContent := dispatch Unary.
Definition generateContentStream := dispatch Streaming.

(** ** The class ChatSession *)

(** [const SILENT_ERROR = "SILENT_ERROR"] *)
Definition SILENT_ERROR : string := "SILENT_ERROR".

(** The text passed to [console.warn] by a blocked send. *)
Definition unsuccessful (method blockErrorMessage : string) : string :=
  method ++ "() was unsuccessful. " ++ blockErrorMessage
         ++ ". Inspect response object for details.".
Global Arguments unsuccessful : simpl never.

(** [this.params?.f] *)
Definition param (f : Params.t → jsval) (p : option Params.t) : jsval :=
  match p with
  | Some p => f p
  | None => JUndefined
  end.

(** [result.response.candidates?.[0].content]: the optional chain stops only
    when [candidates] itself is missing; an empty array has no element [0]
    to read [content] from. *)
Definition firstContentOptional (r : GenerateContentResponse)
  : jserr + option (gmap string jsval) :=
  match candidates r with
  | None => inr None
  | Some [] =>
      inl (TypeError "Cannot read properties of undefined (reading 'content')")
  | Some (c :: _) => inr (content c)
  end.

(** [response.candidates[0].content] *)
Definition firstContent (r : GenerateContentResponse)
  : jserr + option (gmap string jsval) :=
  match candidates r with
  | None =>
      inl (TypeError "Cannot read properties of undefined (reading '0')")
  | Some [] =>
      inl (TypeError "Cannot read properties of undefined (reading 'content')")
  | Some (c :: _) => inr (content c)
  end.

(** [{ parts: [], role: "model", ...content }] of the unary path. *)
Definition unaryResponseContent (c : option (gmap string jsval))
  : gmap string jsval :=
  spread {[ "parts" := JArr []; "role" := JStr "model" ]} (default ∅ c).

(** [{ ...content }], then [role = "model"] when [role] is falsy: the
    streaming path. *)
Definition streamResponseContent (c : option (gmap string jsval))
  : gmap string jsval :=
  let responseContent := spread ∅ (default ∅ c) in
  if truthy (prop responseContent "role") then responseContent
  else <["role" := JStr "model"]> responseContent.

(** What can happen to a session, seen from outside. *)
Inductive event :=
| CallGetHistory
| CallSendMessage (request : Request) (requestOptions : option (gmap string jsval))
| CallSendMessageStream (request : Request)
    (requestOptions : option (gmap string jsval))
| Jobs (fuel : nat)
| UnaryReturns (p : pid) (r : GenerateContentResult)
| CallFails (p : pid) (e : jserr)
| StreamOpens (p : pid)
| StreamCompletes (response : pid) (r : GenerateContentResponse)
| StreamBreaks (response : pid) (e : jserr).

(** A session at rest: its fields, [_sendPromise] the already fulfilled
    promise [0], and nothing scheduled. *)
Definition session (apiKey model0 : string) (params0 : option Params.t)
    (requestOptions : gmap string jsval) (h : list (gmap string jsval))
  : state :=
  {| _apiKey := apiKey; model := model0; params := params0;
     _requestOptions := requestOptions;
     _history := h;
     _sendPromise := 0;
     heap := [Fulfilled VUndefined];
     locals := []; queue := []; console := []; calls := [];
     responses := [] |}.

Section ChatSession.

(** The collaborators imported by the source file. *)
Variable formatNewContent : Request → jserr + gmap string jsval.
Variable formatBlockErrorMessage : GenerateContentResponse → option string.
Variable isValidResponse : GenerateContentResponse → bool.
Variable validateChatHistory : list (gmap string jsval) → option jserr.

(** [new ChatSession(apiKey, model, params, requestOptions)]: the field
    initialisers give an empty history and [Promise.resolve()], then the
    constructor body validates and adopts [params.history] (any array is
    truthy, also the empty one).  Line 58 stores the array itself, not a
    copy: [_history] holds the content of that one array from then on,
    and the [history] recorded in [params] is its content at
    construction. *)
Definition constructor (apiKey model0 : string) (params0 : option Params.t)
    (requestOptions : option (gmap string jsval)) : jserr + state :=
  let this := session apiKey model0 params0 (default ∅ requestOptions) [] in
  match params0 ≫= Params.history with
  | Some h =>
      match validateChatHistory h with
      | Some e => inl e
      | None => inr (with_history h this)
      end
  | None => inr this
  end.

(** The object literal of lines 86-94 and 154-162. *)
Definition buildRequest (newContent : gmap string jsval)
  : M GenerateContentRequest :=
  p ← get params;
  h ← get _history;
  mret {| safetySettings := param Params.safetySettings p;
          generationConfig := param Params.generationConfig p;
          tools := param Params.tools p;
          toolConfig := param Params.toolConfig p;
          systemInstruction := param Params.systemInstruction p;
          cachedContent := param Params.cachedContent p;
          contents := h ++ [newContent] |}.

(** [this._history.push(c)] *)
Definition push (c : gmap string jsval) : M unit :=
  modify (λ s, with_history (_history s ++ [c]) s).

(** The [else] branch of both admission steps: [console.warn] when
    [blockErrorMessage] is truthy. *)
Definition warnBlocked (method : string) (r : GenerateContentResponse)
  : M unit :=
  match formatBlockErrorMessage r with
  | Some blockErrorMessage =>
      if String.eqb blockErrorMessage "" then mret tt
      else console_warn (unsuccessful method blockErrorMessage)
  | None => mret tt
  end.

(** Lines 110-129: [(result) => { ... finalResult = result; }] *)
Definition admitUnary (finalResult : nat) (newContent : gmap string jsval)
    (result : val) : M completion :=
  match result with
  | VResult res =>
      if isValidResponse (response res) then
        push newContent;;
        match firstContentOptional (response res) with
        | inl e => mret (Throw e)
        | inr c =>
            push (unaryResponseContent c);;
            setLocal finalResult result;;
            mret (Return VUndefined)
        end
      else
        warnBlocked "sendMessage" (response res);;
        setLocal finalResult result;;
        mret (Return VUndefined)
  | _ => mret (Throw (TypeError "result.response is not a response"))
  end.

(** Lines 183-200: [(response) => { ... }] *)
Definition admitStream (newContent : gmap string jsval) (resp : val)
  : M completion :=
  match resp with
  | VResponse r =>
      if isValidResponse r then
        push newContent;;
        match firstContent r with
        | inl e => mret (Throw e)
        | inr c =>
            push (streamResponseContent c);;
            mret (Return VUndefined)
        end
      else
        warnBlocked "sendMessageStream" r;;
        mret (Return VUndefined)
  | _ => mret (Throw (TypeError "response is not a response"))
  end.

(** The [.then] closures. *)
Definition runFulfilled (f : onFulfilled) (v : val) : M completion :=
  match f with
  | CallGenerateContent request options =>
      k ← get _apiKey;
      m ← get model;
      p ← generateContent k m request options;
      mret (Return (VPromise p))
  | AdmitUnary finalResult newContent => admitUnary finalResult newContent v
  | ReturnStreamPromise streamPromise => mret (Return (VPromise streamPromise))
  | TakeResponse =>
      match v with
      | VStreamResult r => mret (Return (VPromise r))
      | _ => mret (Throw (TypeError "streamResult has no response"))
      end
  | AdmitStream newContent => admitStream newContent v
  end.

(** Lines 201-210: the last [.catch] of the streaming chain. *)
Definition logUnlessSilent (e : jserr) : M completion :=
  (if String.eqb (message e) SILENT_ERROR then mret tt
   else console_error e);;
  mret (Return VUndefined).

(** The [.catch] closures. *)
Definition runRejected (g : onRejected) (e : jserr) : M completion :=
  match g with
  | ResetAndRethrow =>
      p ← Promise_resolve;
      modify (with_sendPromise p);;
      mret (Throw e)
  | ThrowSilent => mret (Throw (JsError "Error" SILENT_ERROR))
  | LogUnlessSilent => logUnlessSilent e
  end.

(** [sendMessage] from line 86 on, once [newContent] is formatted. *)
Definition sendMessage_chain (newContent : gmap string jsval)
    (requestOptions : gmap string jsval) (ret : pid) : M unit :=
  generateContentRequest ← buildRequest newContent;
  defaults ← get _requestOptions;
  let chatSessionRequestOptions := spread defaults requestOptions in
  finalResult ← newLocal VUndefined;
  tail ← get _sendPromise;
  p1 ← then_ tail
         (CallGenerateContent generateContentRequest
                              chatSessionRequestOptions);
  p2 ← then_ p1 (AdmitUnary finalResult newContent);
  p3 ← catch_ p2 ResetAndRethrow;
  modify (with_sendPromise p3);;
  tail' ← get _sendPromise;
  await tail' (InSendMessageEnd finalResult ret).

(** [sendMessage] from line 85 on, entered when the [await] of line 84
    resumes; [ret] is the promise the call returned.  A throw of
    [formatNewContent] rejects it. *)
Definition sendMessage_resumed (request : Request)
    (requestOptions : gmap string jsval) (ret : pid) : M unit :=
  match formatNewContent request with
  | inl e => settle ret (Err e)
  | inr newContent => sendMessage_chain newContent requestOptions ret
  end.

(** [sendMessageStream] from line 154 on: the remote call is made at
    once, the chain is extended, and the stream promise is returned. *)
Definition sendMessageStream_chain (newContent : gmap string jsval)
    (requestOptions : gmap string jsval) (ret : pid) : M unit :=
  generateContentRequest ← buildRequest newContent;
  defaults ← get _requestOptions;
  let chatSessionRequestOptions := spread defaults requestOptions in
  k ← get _apiKey;
  m ← get model;
  streamPromise ← generateContentStream k m generateContentRequest
                    chatSessionRequestOptions;
  tail ← get _sendPromise;
  p1 ← then_ tail (ReturnStreamPromise streamPromise);
  p2 ← catch_ p1 ThrowSilent;
  p3 ← then_ p2 TakeResponse;
  p4 ← then_ p3 (AdmitStream newContent);
  p5 ← catch_ p4 LogUnlessSilent;
  modify (with_sendPromise p5);;
  resolvePromise ret (VPromise streamPromise).

(** [sendMessageStream] from line 153 on. *)
Definition sendMessageStream_resumed (request : Request)
    (requestOptions : gmap string jsval) (ret : pid) : M unit :=
  match formatNewContent request with
  | inl e => settle ret (Err e)
  | inr newContent => sendMessageStream_chain newContent requestOptions ret
  end.

(** Resuming a suspended method with the outcome of the awaited promise;
    no [await] of the source sits in a [try], so a rejection rejects the
    promise the method returned. *)
Definition resume (k : awaiter) (o : settled) : M unit :=
  match k, o with
  | InGetHistory ret, Ok _ => resolvePromise ret VHistory
  | InSendMessage request requestOptions ret, Ok _ =>
      sendMessage_resumed request requestOptions ret
  | InSendMessageEnd finalResult ret, Ok _ =>
      v ← getLocal finalResult;
      resolvePromise ret v
  | InSendMessageStream request requestOptions ret, Ok _ =>
      sendMessageStream_resumed request requestOptions ret
  | InGetHistory ret, Err e
  | InSendMessage _ _ ret, Err e
  | InSendMessageEnd _ ret, Err e
  | InSendMessageStream _ _ ret, Err e => settle ret (Err e)
  end.

(** The three public methods, up to their first [await]; each returns the
    promise handed to the caller. *)
Definition getHistory : M pid :=
  ret ← newPromise (Pending []);
  tail ← get _sendPromise;
  await tail (InGetHistory ret);;
  mret ret.

Definition sendMessage (request : Request)
    (requestOptions : option (gmap string jsval)) : M pid :=
  ret ← newPromise (Pending []);
  tail ← get _sendPromise;
  await tail (InSendMessage request (default ∅ requestOptions) ret);;
  mret ret.

Definition sendMessageStream (request : Request)
    (requestOptions : option (gmap string jsval)) : M pid :=
  ret ← newPromise (Pending []);
  tail ← get _sendPromise;
  await tail (InSendMessageStream request (default ∅ requestOptions) ret);;
  mret ret.

(** ** Jobs and events *)

(** PromiseReactionJob and NewPromiseResolveThenableJob. *)
Definition runJob (j : job) : M unit :=
  match j with
  | ReactionJob (Then f g q) (Ok v) =>
      match f with
      | Some f => c ← runFulfilled f v; complete q c
      | None => resolvePromise q v
      end
  | ReactionJob (Then f g q) (Err e) =>
      match g with
      | Some g => c ← runRejected g e; complete q c
      | None => settle q (Err e)
      end
  | ReactionJob (Await k) o => resume k o
  | ReactionJob (Adopt q) (Ok v) => resolvePromise q v
  | ReactionJob (Adopt q) (Err e) => settle q (Err e)
  | ResolveThenableJob q x => performThen x (Adopt q)
  end.

(** One turn of the job queue. *)
Definition microtask (s : state) : state :=
  match queue s with
  | [] => s
  | j :: rest => exec (runJob j) (with_queue rest s)
  end.

(** The queue is drained between two events of the outside world. *)
Fixpoint drain (fuel : nat) (s : state) : state :=
  match fuel with
  | O => s
  | S n =>
      match queue s with
      | [] => s
      | _ => drain n (microtask s)
      end
  end.

(** [p] was returned by a remote call of kind [k]. *)
Definition isCall (k : callKind) (p : pid) (s : state) : bool :=
  existsb (λ c, bool_decide (call_promise c = p ∧ call_kind c = k)) (calls s).

Definition isPending (p : pid) (s : state) : bool :=
  match heap s !! p with
  | Some (Pending _) => true
  | _ => false
  end.

(** One event: a call of the caller, a run of the job queue, or the
    outside world settling a promise of a remote call.  A streaming call
    that succeeds yields [{ stream, response }], where [response] is a new
    promise settled when the stream ends. *)
Definition step (ev : event) (s : state) : state :=
  match ev with
  | CallGetHistory => exec getHistory s
  | CallSendMessage request requestOptions =>
      exec (sendMessage request requestOptions) s
  | CallSendMessageStream request requestOptions =>
      exec (sendMessageStream request requestOptions) s
  | Jobs fuel => drain fuel s
  | UnaryReturns p r =>
      if isCall Unary p s then exec (settle p (Ok (VResult r))) s else s
  | CallFails p e =>
      if isCall Unary p s || isCall Streaming p s
      then exec (settle p (Err e)) s else s
  | StreamOpens p =>
      if isCall Streaming p s && isPending p s then
        exec (r ← newPromise (Pending []);
              modify (λ s, with_responses (responses s ++ [r]) s);;
              settle p (Ok (VStreamResult r))) s
      else s
  | StreamCompletes r resp =>
      if bool_decide (r ∈ responses s)
      then exec (settle r (Ok (VResponse resp))) s else s
  | StreamBreaks r e =>
      if bool_decide (r ∈ responses s)
      then exec (settle r (Err e)) s else s
  end.

Definition run (evs : list event) (s : state) : state :=
  foldl (λ s ev, step ev s) s evs.

End ChatSession.

(** ** Vocabulary of the statements *)

Open Scope list_scope.

(** A computation that leaves the observation [f] of the state alone. *)
Definition keeps {A B} (f : state → B) (m : M A) : Prop :=
  ∀ s, f (snd (m s)) = f s.

(** The diagnostics of a blocked response: one warning when
    [formatBlockErrorMessage] gives a non-empty text. *)
Definition blockWarnings (formatBlockErrorMessage : GenerateContentResponse → option string)
    (method : string) (r : GenerateContentResponse) : list diagnostic :=
  match formatBlockErrorMessage r with
  | Some blockErrorMessage =>
      if String.eqb blockErrorMessage "" then []
      else [Warn (unsuccessful method blockErrorMessage)]
  | None => []
  end.

(** The diagnostics of the last [.catch] of a streaming send. *)
Definition errorLogs (e : jserr) : list diagnostic :=
  if String.eqb (message e) SILENT_ERROR then [] else [Error e].

(** The turns appended by a list of admitted exchanges. *)
Definition exchanges (l : list (gmap string jsval * gmap string jsval))
  : list (gmap string jsval) :=
  flat_map (λ um, [um.1; um.2]) l.

(** What the collaborator [isValidResponse] promises: a valid response has
    a first candidate. *)
Definition validHasCandidate (isValidResponse : GenerateContentResponse → bool)
  : Prop :=
  ∀ r, isValidResponse r = true →
       ∃ c rest, candidates r = Some (c :: rest).

(** The content of the first candidate, when there is one. *)
Definition firstCandidateContent (r : GenerateContentResponse)
  : option (gmap string jsval) :=
  match candidates r with
  | Some (c :: _) => content c
  | _ => None
  end.

(** The turns a reaction job appends to the history. *)
Definition admitted (isValidResponse : GenerateContentResponse → bool)
    (j : job) : list (gmap string jsval) :=
  match j with
  | ReactionJob (Then (Some (AdmitUnary _ newContent)) _ _) (Ok (VResult res)) =>
      if isValidResponse (response res)
      then [newContent;
            unaryResponseContent (firstCandidateContent (response res))]
      else []
  | ReactionJob (Then (Some (AdmitStream newContent)) _ _) (Ok (VResponse r)) =>
      if isValidResponse r
      then [newContent;
            streamResponseContent (firstCandidateContent r)]
      else []
  | _ => []
  end.

(** ** Vocabulary of the chain invariant *)

(** The promise an [async] method returned to its caller. *)
Definition ret_of (k : awaiter) : pid :=
  match k with
  | InGetHistory ret | InSendMessage _ _ ret | InSendMessageEnd _ ret
  | InSendMessageStream _ _ ret => ret
  end.

(** The promise a reaction settles. *)
Definition target (r : reaction) : pid :=
  match r with
  | Then _ _ q => q
  | Await k => ret_of k
  | Adopt q => q
  end.

(** The [.catch] clauses that end a link of the chain. *)
Definition closesLink (g : onRejected) : bool :=
  match g with
  | ResetAndRethrow | LogUnlessSilent => true
  | ThrowSilent => false
  end.

Definition guard (r : reaction) : Prop :=
  match r with
  | Then None (Some g) _ => closesLink g = true
  | _ => False
  end.

Definition reaction_of (j : job) : reaction :=
  match j with
  | ReactionJob r _ => r
  | ResolveThenableJob q _ => Adopt q
  end.

(** The reactions waiting in the heap or in the queue. *)
Definition live (s : state) (r : reaction) : Prop :=
  (∃ p rs, heap s !! p = Some (Pending rs) ∧ r ∈ rs)
  ∨ (∃ j, j ∈ queue s ∧ reaction_of j = r).

(** Values that are not promises. *)
Definition plain (v : val) : Prop :=
  match v with
  | VPromise _ => False
  | _ => True
  end.

Definition plain_outcome (o : settled) : Prop :=
  match o with
  | Ok v => plain v
  | Err _ => True
  end.

(** A promise as it is created: pending without reactions, or fulfilled. *)
Definition newborn (st : pstate) : Prop :=
  match st with
  | Pending [] => True
  | Fulfilled v => plain v
  | _ => False
  end.

Definition settledState (o : settled) : pstate :=
  match o with
  | Ok v => Fulfilled v
  | Err e => Rejected e
  end.

(** The options a waiting reaction will pass to a remote call are among
    [A]; [ro] stands for the session's [_requestOptions]. *)
Definition closureOk (ro : gmap string jsval) (A : gmap string jsval → Prop)
    (r : reaction) : Prop :=
  match r with
  | Then (Some (CallGenerateContent _ options)) _ _ => A options
  | Await (InSendMessage _ o _) | Await (InSendMessageStream _ o _) =>
      A (spread ro o)
  | _ => True
  end.

(** Well-formed runtime: the session keeps its options, every remote call
    made or to be made has options among [A], the promises mentioned exist,
    and no promise is fulfilled with a promise. *)
Definition wf (ro : gmap string jsval) (A : gmap string jsval → Prop)
    (s : state) : Prop :=
  _requestOptions s = ro
  ∧ (∀ r, live s r → closureOk ro A r)
  ∧ (∀ c, c ∈ calls s → A (call_options c))
  ∧ (∀ r, live s r → target r < length (heap s))
  ∧ (∀ c, c ∈ calls s → call_promise c < length (heap s))
  ∧ (∀ r, r ∈ responses s → r < length (heap s))
  ∧ (∀ p v, heap s !! p = Some (Fulfilled v) → plain v)
  ∧ (∀ r o, ReactionJob r o ∈ queue s → plain_outcome o).

(** A promise that can only be settled through a closing [.catch], and is
    not rejected. *)
Definition protected (s : state) (t : pid) : Prop :=
  t < length (heap s)
  ∧ (∀ r, live s r → target r = t → guard r)
  ∧ (∀ c, c ∈ calls s → call_promise c ≠ t)
  ∧ (t ∉ responses s)
  ∧ (∀ e, heap s !! t ≠ Some (Rejected e)).

Definition chainInv (ro : gmap string jsval) (A : gmap string jsval → Prop)
    (T : list pid) (s : state) : Prop :=
  wf ro A s ∧ ∀ t, t ∈ T → protected s t.

(** The invariant of the chain: [_sendPromise] is protected. *)
Definition chainSound (ro : gmap string jsval) (A : gmap string jsval → Prop)
    (s : state) : Prop :=
  chainInv ro A [_sendPromise s] s.

(** States that differ only in the session's history, local variables,
    console and [_sendPromise]. *)
Definition same_runtime (s s' : state) : Prop :=
  heap s' = heap s ∧ queue s' = queue s ∧ calls s' = calls s
  ∧ responses s' = responses s ∧ _requestOptions s' = _requestOptions s.

(** The options of the sends among a list of events, merged with the
    session's. *)
Definition sent (ro : gmap string jsval) (evs : list event)
    (options : gmap string jsval) : Prop :=
  ∃ request o,
    (CallSendMessage request o ∈ evs ∨ CallSendMessageStream request o ∈ evs)
    ∧ options = spread ro (default ∅ o).

(** ** Vocabulary of the further properties *)

(** States with the same session, seen from outside: history, chain,
    diagnostics, remote calls and local variables. *)
Definition sameSession (s s' : state) : Prop :=
  _history s' = _history s ∧ _sendPromise s' = _sendPromise s
  ∧ console s' = console s ∧ calls s' = calls s ∧ locals s' = locals s.

(** The diagnostics a job writes to the console. *)
Definition diagnostics
    (formatBlockErrorMessage : GenerateContentResponse → option string)
    (isValidResponse : GenerateContentResponse → bool)
    (j : job) : list diagnostic :=
  match j with
  | ReactionJob (Then f _ _) (Ok v) =>
      match f, v with
      | Some (AdmitUnary _ _), VResult res =>
          if isValidResponse (response res) then []
          else blockWarnings formatBlockErrorMessage "sendMessage"
                 (response res)
      | Some (AdmitStream _), VResponse r =>
          if isValidResponse r then []
          else blockWarnings formatBlockErrorMessage "sendMessageStream" r
      | _, _ => []
      end
  | ReactionJob (Then _ g _) (Err e) =>
      match g with
      | Some LogUnlessSilent => errorLogs e
      | _ => []
      end
  | _ => []
  end.

(** The diagnostics a session can produce: the warning of a blocked
    response that comes with a non-empty explanation, and an error other
    than the marker. *)
Definition foreseen
    (formatBlockErrorMessage : GenerateContentResponse → option string)
    (isValidResponse : GenerateContentResponse → bool)
    (d : diagnostic) : Prop :=
  match d with
  | Warn text =>
      ∃ method r blockErrorMessage,
        (method = "sendMessage" ∨ method = "sendMessageStream")
        ∧ isValidResponse r = false
        ∧ formatBlockErrorMessage r = Some blockErrorMessage
        ∧ blockErrorMessage ≠ ""
        ∧ text = unsuccessful method blockErrorMessage
  | Error e => message e ≠ SILENT_ERROR
  end.

(** A computation that maintains [I] and returns a value in [Φ]. *)
Definition yields {A} (I : state → Prop) (m : M A) (Φ : A → Prop) : Prop :=
  ∀ s, I s → Φ (m s).1 ∧ I (m s).2.

Definition preserves {A} (I : state → Prop) (m : M A) : Prop :=
  yields I m (λ _, True).

(** Every waiting reaction is in [P] and every remote call made is in
    [Q]. *)
Definition closures (P : reaction → Prop) (Q : RemoteCall → Prop)
    (s : state) : Prop :=
  (∀ r, live s r → P r) ∧ (∀ c, c ∈ calls s → Q c).

(** The generation parameters of a request are those of the session's
    [params] ([undefined] when the session has none). *)
Definition fromParams (p : option Params.t)
    (request : GenerateContentRequest) : Prop :=
  safetySettings request = param Params.safetySettings p
  ∧ generationConfig request = param Params.generationConfig p
  ∧ tools request = param Params.tools p
  ∧ toolConfig request = param Params.toolConfig p
  ∧ systemInstruction request = param Params.systemInstruction p
  ∧ cachedContent request = param Params.cachedContent p.

(** The call of the method that makes remote calls of kind [kind]. *)
Definition sendEvent (kind : callKind) (request : Request)
    (requestOptions : option (gmap string jsval)) : event :=
  match kind with
  | Unary => CallSendMessage request requestOptions
  | Streaming => CallSendMessageStream request requestOptions
  end.

(** A send of [request] was issued among [evs], with the per-call options
    [o] (none given counts as the empty object). *)
Definition issued (evs : list event) (kind : callKind) (request : Request)
    (o : gmap string jsval) : Prop :=
  ∃ requestOptions,
    sendEvent kind request requestOptions ∈ evs
    ∧ o = default ∅ requestOptions.

(** A generation request and its options as a send among [evs] builds
    them, on a session created with [params0], [requestOptions0] and the
    history [h0]. *)
Definition built (formatNewContent : Request → jserr + gmap string jsval)
    (params0 : option Params.t) (requestOptions0 : gmap string jsval)
    (h0 : list (gmap string jsval)) (evs : list event) (kind : callKind)
    (request : GenerateContentRequest) (options : gmap string jsval)
  : Prop :=
  fromParams params0 request
  ∧ ∃ rq o newContent l,
      issued evs kind rq o
      ∧ formatNewContent rq = inr newContent
      ∧ contents request = h0 ++ exchanges l ++ [newContent]
      ∧ options = spread requestOptions0 o.

Definition pendingOk (formatNewContent : Request → jserr + gmap string jsval)
    (params0 : option Params.t) (requestOptions0 : gmap string jsval)
    (h0 : list (gmap string jsval)) (evs : list event) (r : reaction)
  : Prop :=
  match r with
  | Then (Some (CallGenerateContent request options)) _ _ =>
      built formatNewContent params0 requestOptions0 h0 evs Unary
            request options
  | Await (InSendMessage rq o _) => issued evs Unary rq o
  | Await (InSendMessageStream rq o _) => issued evs Streaming rq o
  | _ => True
  end.

Definition callOk (formatNewContent : Request → jserr + gmap string jsval)
    (apiKey model0 : string)
    (params0 : option Params.t) (requestOptions0 : gmap string jsval)
    (h0 : list (gmap string jsval)) (evs : list event) (c : RemoteCall)
  : Prop :=
  call_apiKey c = apiKey ∧ call_model c = model0
  ∧ built formatNewContent params0 requestOptions0 h0 evs
          (call_kind c) (call_request c) (call_options c).

(** The generation parameters: the properties of [params] that the
    send methods read.  The [history] of [params] is not one of them.  The
    constructor stores that array itself in [_history], not a copy of it,
    so the array the caller passed grows with the history of the session;
    [_history] holds its content, and no statement below speaks of the
    [history] of [params] after the construction. *)
Definition generation (p : option Params.t) : list jsval :=
  [param Params.safetySettings p; param Params.generationConfig p;
   param Params.tools p; param Params.toolConfig p;
   param Params.systemInstruction p; param Params.cachedContent p].

(** [this.params?.history], as a reader of the session finds it: the
    array that [_history] holds, when [params] came with one. *)
Definition params_history (s : state) : option (list (gmap string jsval)) :=
  match params s ≫= Params.history with
  | Some _ => Some (_history s)
  | None => None
  end.

(** What the session holds besides the history array: the API key, the
    model, the generation parameters and the request options. *)
Definition configuration (s : state)
  : string * string * list jsval * gmap string jsval :=
  (_apiKey s, model s, generation (params s), _requestOptions s).

(** The session keeps its configuration, and its history is the initial
    one followed by whole exchanges. *)
Definition configured (apiKey model0 : string)
    (params0 : option Params.t) (requestOptions0 : gmap string jsval)
    (h0 : list (gmap string jsval)) (s : state) : Prop :=
  _apiKey s = apiKey ∧ model s = model0
  ∧ generation (params s) = generation params0
  ∧ _requestOptions s = requestOptions0
  ∧ ∃ l, _history s = h0 ++ exchanges l.

(** The remote calls of kind [kind] that a waiting closure is still going
    to make: the [.then] that calls [generateContent], and a send method
    suspended at its first [await]. *)
Definition owesThen (kind : callKind) (f : onFulfilled) : nat :=
  match f, kind with
  | CallGenerateContent _ _, Unary => 1
  | _, _ => 0
  end.

Definition owesAwait (kind : callKind) (k : awaiter) : nat :=
  match k, kind with
  | InSendMessage _ _ _, Unary => 1
  | InSendMessageStream _ _ _, Streaming => 1
  | _, _ => 0
  end.

Definition owes (kind : callKind) (r : reaction) : nat :=
  match r with
  | Then (Some f) _ _ => owesThen kind f
  | Await k => owesAwait kind k
  | _ => 0
  end.

Definition owed (kind : callKind) (st : pstate) : nat :=
  match st with
  | Pending rs => sum_list_with (owes kind) rs
  | _ => 0
  end.

Definition ofKind (kind kind' : callKind) : nat :=
  if decide (kind' = kind) then 1 else 0.

(** The remote calls of kind [kind] made so far. *)
Definition made (kind : callKind) (s : state) : nat :=
  sum_list_with (λ c, ofKind kind (call_kind c)) (calls s).

(** The calls made, plus those the waiting closures are going to make. *)
Definition budget (kind : callKind) (s : state) : nat :=
  made kind s
  + sum_list_with (owed kind) (heap s)
  + sum_list_with (λ j, owes kind (reaction_of j)) (queue s).

(** The sends of the matching method among a list of events. *)
Definition isSend (kind : callKind) (ev : event) : nat :=
  match ev, kind with
  | CallSendMessage _ _, Unary => 1
  | CallSendMessageStream _ _, Streaming => 1
  | _, _ => 0
  end.

Definition sends (kind : callKind) (evs : list event) : nat :=
  sum_list_with (isSend kind) evs.

(** A computation that raises the budget by at most [n]. *)
Definition spends {A} (kind : callKind) (m : M A) (n : nat) : Prop :=
  ∀ s, (budget kind (m s).2 ≤ budget kind s + n)%nat.

(** Values other than an answer of the service. *)
Definition noAnswer (v : val) : Prop :=
  match v with
  | VResult _ | VResponse _ => False
  | _ => True
  end.

Definition noAnswerState (st : pstate) : Prop :=
  match st with
  | Fulfilled v => noAnswer v
  | _ => True
  end.

Definition noAnswerJob (j : job) : Prop :=
  match j with
  | ReactionJob _ (Ok v) => noAnswer v
  | _ => True
  end.

(** No answer of the service has entered the runtime. *)
Definition unanswered (s : state) : Prop :=
  Forall noAnswerState (heap s)
  ∧ Forall noAnswerJob (queue s)
  ∧ Forall noAnswer (locals s).

(** The events by which the service answers: the result of a unary call,
    and the aggregated response of a stream. *)
Definition isAnswer (ev : event) : bool :=
  match ev with
  | UnaryReturns _ _ | StreamCompletes _ _ => true
  | _ => false
  end.

(** ** Conversations in which every send is awaited *)

(** One round of such a conversation: a call of a send method, and what
    the service does with the remote call -- it fails, or it answers (a
    stream is opened and then delivers its aggregated response). *)
Inductive round :=
| UnaryRound (request : Request)
    (requestOptions : option (gmap string jsval))
    (outcome : jserr + GenerateContentResult)
| StreamRound (request : Request)
    (requestOptions : option (gmap string jsval))
    (outcome : jserr + GenerateContentResponse).

Definition roundRequest (r : round) : Request :=
  match r with
  | UnaryRound request _ _ | StreamRound request _ _ => request
  end.

(** The answer of the service in a round, when there is one. *)
Definition roundResponse (r : round) : option GenerateContentResponse :=
  match r with
  | UnaryRound _ _ (inr result) => Some (response result)
  | StreamRound _ _ (inr resp) => Some resp
  | _ => None
  end.

(** The model turn the round's method derives from an answer. *)
Definition roundModelTurn (r : round) (resp : GenerateContentResponse)
  : gmap string jsval :=
  match r with
  | UnaryRound _ _ _ => unaryResponseContent (firstCandidateContent resp)
  | StreamRound _ _ _ => streamResponseContent (firstCandidateContent resp)
  end.

(** A session at rest: nothing scheduled, and a fulfilled [_sendPromise]. *)
Definition quiescent (s : state) : Prop :=
  queue s = [] ∧ ∃ v, heap s !! _sendPromise s = Some (Fulfilled v).

Section Conversation.

Variable formatNewContent : Request → jserr + gmap string jsval.
Variable isValidResponse : GenerateContentResponse → bool.

(** The events of a round that starts when the heap holds [n] promises:
    the caller's promise is [n]; the job queue is run until it is empty
    after every event; the remote call, if the request could be formatted,
    is promise [n + 4] (unary) or [n + 1] (streaming), and the response
    promise of an opened stream is [n + 7]. *)
Definition roundEvents (n : nat) (r : round) : list event :=
  match formatNewContent (roundRequest r), r with
  | inl _, UnaryRound request o _ => [CallSendMessage request o; Jobs 12]
  | inl _, StreamRound request o _ =>
      [CallSendMessageStream request o; Jobs 12]
  | inr _, UnaryRound request o (inr result) =>
      [CallSendMessage request o; Jobs 12;
       UnaryReturns (n + 4) result; Jobs 12]
  | inr _, UnaryRound request o (inl e) =>
      [CallSendMessage request o; Jobs 12; CallFails (n + 4) e; Jobs 12]
  | inr _, StreamRound request o (inr resp) =>
      [CallSendMessageStream request o; Jobs 12;
       StreamOpens (n + 1); Jobs 12;
       StreamCompletes (n + 7) resp; Jobs 12]
  | inr _, StreamRound request o (inl e) =>
      [CallSendMessageStream request o; Jobs 12;
       CallFails (n + 1) e; Jobs 12]
  end.

(** The number of promises a round creates. *)
Definition roundPromises (r : round) : nat :=
  match formatNewContent (roundRequest r), r with
  | inl _, _ => 1
  | inr _, UnaryRound _ _ (inr _) => 5
  | inr _, UnaryRound _ _ (inl _) => 6
  | inr _, StreamRound _ _ (inr _) => 8
  | inr _, StreamRound _ _ (inl _) => 7
  end.

(** The turns a round adds to the history. *)
Definition roundTurns (r : round) : list (gmap string jsval) :=
  match formatNewContent (roundRequest r), roundResponse r with
  | inr newContent, Some resp =>
      if isValidResponse resp then [newContent; roundModelTurn r resp]
      else []
  | _, _ => []
  end.

(** What the caller's promise holds at the end of a round. *)
Definition roundResult (n : nat) (r : round) : pstate :=
  match formatNewContent (roundRequest r), r with
  | inl e, _ => Rejected e
  | inr _, UnaryRound _ _ (inr result) => Fulfilled (VResult result)
  | inr _, StreamRound _ _ (inr _) => Fulfilled (VStreamResult (n + 7))
  | inr _, UnaryRound _ _ (inl e) | inr _, StreamRound _ _ (inl e) =>
      Rejected e
  end.

(** The contents of the request a round sends, on the history [h]. *)
Definition roundContents (h : list (gmap string jsval)) (r : round)
  : list (list (gmap string jsval)) :=
  match formatNewContent (roundRequest r) with
  | inr newContent => [h ++ [newContent]]
  | inl _ => []
  end.

Fixpoint conversation (n : nat) (rounds : list round) : list event :=
  match rounds with
  | [] => []
  | r :: rest => roundEvents n r ++ conversation (n + roundPromises r) rest
  end.

Fixpoint requestContents (h : list (gmap string jsval)) (rounds : list round)
  : list (list (gmap string jsval)) :=
  match rounds with
  | [] => []
  | r :: rest =>
      roundContents h r ++ requestContents (h ++ roundTurns r) rest
  end.

Fixpoint callerResults (n : nat) (rounds : list round)
  : list (pid * pstate) :=
  match rounds with
  | [] => []
  | r :: rest =>
      (n, roundResult n r) :: callerResults (n + roundPromises r) rest
  end.

End Conversation.

(** ** Collaborators and data of the examples *)

Definition userTurn (text : string) : gmap string jsval :=
  {[ "role" := JStr "user";
     "parts" := JArr [JObj {[ "text" := JStr text ]}] ]}.

Definition stubFormat (r : Request) : jserr + gmap string jsval :=
  match r with
  | RequestString s => inr (userTurn s)
  | RequestArray _ => inl (JsError "Error" "unsupported request")
  end.

Definition stubValid (r : GenerateContentResponse) : bool :=
  match candidates r with
  | Some (_ :: _) => true
  | _ => false
  end.

(** A predicate that breaks the contract: everything is valid. *)
Definition stubAlwaysValid (r : GenerateContentResponse) : bool := true.

Definition stubBlock (r : GenerateContentResponse) : option string :=
  match promptFeedback r with
  | JStr reason => Some reason
  | _ => None
  end.

Definition stubValidate (h : list (gmap string jsval)) : option jserr :=
  match h with
  | first :: _ =>
      match first !! "role" with
      | Some (JStr "user") => None
      | _ => Some (JsError "Error" "First content should be with role 'user'")
      end
  | [] => None
  end.

(** A response with one candidate [{ parts: [{ text }] }] and no role. *)
Definition reply (text : string) : GenerateContentResponse :=
  {| candidates :=
       Some [ {| content := Some {[ "parts" := JArr [JObj {[ "text" := JStr text ]}] ]};
                 finishReason := JStr "STOP" |} ];
     promptFeedback := JUndefined |}.

(** A blocked response: no candidate, and a reason. *)
Definition blocked (reason : string) : GenerateContentResponse :=
  {| candidates := None; promptFeedback := JStr reason |}.

Definition modelTurn (text : string) : gmap string jsval :=
  {[ "role" := JStr "model";
     "parts" := JArr [JObj {[ "text" := JStr text ]}] ]}.

(** * Properties *)

(** ** Unfolding a run, one event and one job at a time *)

Section Evaluation.

Variable formatNewContent : Request → jserr + gmap string jsval.
Variable formatBlockErrorMessage : GenerateContentResponse → option string.
Variable isValidResponse : GenerateContentResponse → bool.

Local Abbreviation step' :=
  (step formatNewContent formatBlockErrorMessage isValidResponse).
Local Abbreviation run' :=
  (run formatNewContent formatBlockErrorMessage isValidResponse).
Local Abbreviation drain' :=
  (drain formatNewContent formatBlockErrorMessage isValidResponse).
Local Abbreviation runJob' :=
  (runJob formatNewContent formatBlockErrorMessage isValidResponse).

Lemma run_event ev evs s s' x :
  step' ev s = s' → run' evs s' = x → run' (ev :: evs) s = x.
Proof. by intros <- <-. Qed.

Lemma run_jobs n evs s s' x :
  drain' n s = s' → run' evs s' = x → run' (Jobs n :: evs) s = x.
Proof. by intros <- <-. Qed.

Lemma run_done s : run' [] s = s.
Proof. done. Qed.

Lemma run_app evs evs' s : run' (evs ++ evs') s = run' evs' (run' evs s).
Proof. apply foldl_app. Qed.

Lemma drain_job n s j q s' x :
  queue s = j :: q →
  exec (runJob' j) (with_queue q s) = s' →
  drain' n s' = x →
  drain' (S n) s = x.
Proof. intros Hq <- <-. cbn. unfold microtask. by rewrite Hq. Qed.

Lemma drain_stop s : drain' 0 s = s.
Proof. done. Qed.

Lemma drain_done n s : queue s = [] → drain' n s = s.
Proof. intros Hq. destruct n; cbn; by rewrite ?Hq. Qed.

(** The equations of the definitions that consult a collaborator. *)

Lemma sendMessage_resumed_ok request o ret c :
  formatNewContent request = inr c →
  sendMessage_resumed formatNewContent request o ret
  = sendMessage_chain c o ret.
Proof. intros E. unfold sendMessage_resumed. by rewrite E. Qed.

Lemma sendMessage_resumed_throw request o ret e :
  formatNewContent request = inl e →
  sendMessage_resumed formatNewContent request o ret = settle ret (Err e).
Proof. intros E. unfold sendMessage_resumed. by rewrite E. Qed.

Lemma sendMessageStream_resumed_ok request o ret c :
  formatNewContent request = inr c →
  sendMessageStream_resumed formatNewContent request o ret
  = sendMessageStream_chain c o ret.
Proof. intros E. unfold sendMessageStream_resumed. by rewrite E. Qed.

Lemma warnBlocked_eq method r s :
  warnBlocked formatBlockErrorMessage method r s
  = (tt, with_console
           (console s ++ blockWarnings formatBlockErrorMessage method r) s).
Proof.
  unfold warnBlocked, blockWarnings, with_console.
  destruct (formatBlockErrorMessage r) as [m|]; [destruct (String.eqb m "")|];
    cbn; rewrite ?app_nil_r; by destruct s.
Qed.

Lemma logUnlessSilent_eq e s :
  logUnlessSilent e s
  = (Return VUndefined, with_console (console s ++ errorLogs e) s).
Proof.
  unfold logUnlessSilent, errorLogs, with_console.
  destruct (String.eqb (message e) SILENT_ERROR);
    cbn; rewrite ?app_nil_r; by destruct s.
Qed.

Lemma admitUnary_valid finalResult newContent res c :
  isValidResponse (response res) = true →
  firstContentOptional (response res) = inr c →
  admitUnary formatBlockErrorMessage isValidResponse finalResult newContent
             (VResult res)
  = (push newContent;; push (unaryResponseContent c);;
     setLocal finalResult (VResult res);; mret (Return VUndefined)).
Proof. intros E1 E2. unfold admitUnary. by rewrite E1, E2. Qed.

Lemma admitUnary_throw finalResult newContent res e :
  isValidResponse (response res) = true →
  firstContentOptional (response res) = inl e →
  admitUnary formatBlockErrorMessage isValidResponse finalResult newContent
             (VResult res)
  = (push newContent;; mret (Throw e)).
Proof. intros E1 E2. unfold admitUnary. by rewrite E1, E2. Qed.

Lemma admitUnary_blocked finalResult newContent res :
  isValidResponse (response res) = false →
  admitUnary formatBlockErrorMessage isValidResponse finalResult newContent
             (VResult res)
  = (warnBlocked formatBlockErrorMessage "sendMessage" (response res);;
     setLocal finalResult (VResult res);; mret (Return VUndefined)).
Proof. intros E. unfold admitUnary. by rewrite E. Qed.

Lemma admitStream_valid newContent r c :
  isValidResponse r = true →
  firstContent r = inr c →
  admitStream formatBlockErrorMessage isValidResponse newContent (VResponse r)
  = (push newContent;; push (streamResponseContent c);;
     mret (Return VUndefined)).
Proof. intros E1 E2. unfold admitStream. by rewrite E1, E2. Qed.

Lemma admitStream_throw newContent r e :
  isValidResponse r = true →
  firstContent r = inl e →
  admitStream formatBlockErrorMessage isValidResponse newContent (VResponse r)
  = (push newContent;; mret (Throw e)).
Proof. intros E1 E2. unfold admitStream. by rewrite E1, E2. Qed.

Lemma admitStream_blocked newContent r :
  isValidResponse r = false →
  admitStream formatBlockErrorMessage isValidResponse newContent (VResponse r)
  = (warnBlocked formatBlockErrorMessage "sendMessageStream" r;;
     mret (Return VUndefined)).
Proof. intros E. unfold admitStream. by rewrite E. Qed.

End Evaluation.

(** Evaluation of the runtime on an explicit state; the definitions that
    branch on a collaborator, and the objects, stay folded. *)
Ltac js_norm :=
  cbv -[String.eq_dec String.countable run drain param spread unsuccessful
        unaryResponseContent streamResponseContent blockWarnings errorLogs
        sendMessage_resumed sendMessageStream_resumed admitUnary admitStream
        warnBlocked logUnlessSilent firstContent firstContentOptional].

Ltac js_equation :=
  first
    [ erewrite sendMessage_resumed_ok by eassumption
    | erewrite sendMessage_resumed_throw by eassumption
    | erewrite sendMessageStream_resumed_ok by eassumption
    | erewrite admitUnary_valid by eassumption
    | erewrite admitUnary_throw by eassumption
    | erewrite admitUnary_blocked by eassumption
    | erewrite admitStream_valid by eassumption
    | erewrite admitStream_throw by eassumption
    | erewrite admitStream_blocked by eassumption
    | rewrite warnBlocked_eq
    | rewrite logUnlessSilent_eq ].

Ltac js_state := js_norm; repeat (js_equation; js_norm); reflexivity.

Ltac js_drain :=
  lazymatch goal with
  | |- drain _ _ _ O _ = _ => apply drain_stop
  | |- drain _ _ _ (S _) _ = _ =>
      first
        [ apply drain_done; reflexivity
        | eapply drain_job; [reflexivity | js_state | js_drain] ]
  end.

Ltac js_events :=
  lazymatch goal with
  | |- run _ _ _ [] _ = _ => apply run_done
  | |- run _ _ _ (Jobs _ :: _) _ = _ => eapply run_jobs; [js_drain | js_events]
  | |- run _ _ _ (_ :: _) _ = _ => eapply run_event; [js_state | js_events]
  end.

(** Close a goal about an explicit state; appends to a symbolic history are
    folded back and reassociated. *)
Ltac js_history :=
  js_norm;
  repeat match goal with
         | |- context [?f ?l ?r] =>
             lazymatch f with (fix app l m {struct l} := _) => idtac end;
             change (f l r) with (l ++ r)
         end;
  rewrite <- ?app_assoc; reflexivity.

(** Replace every run from an explicit state by the state it reaches. *)
Ltac js_run :=
  repeat match goal with
  | |- context [run ?f ?b ?v ?evs ?s] =>
      let E := fresh "E" in
      eassert (E : run f b v evs s = _) by js_events;
      rewrite E; clear E
  end.

(** ** Construction *)

Section Construction.

Variable validateChatHistory : list (gmap string jsval) → option jserr.

Local Abbreviation new := (constructor validateChatHistory).

Lemma constructor_at_rest apiKey model0 params0 requestOptions s :
  new apiKey model0 params0 requestOptions = inr s →
  ∃ h, s = session apiKey model0 params0 (default ∅ requestOptions) h.
Proof.
  unfold constructor.
  destruct (params0 ≫= Params.history) as [h|].
  - destruct (validateChatHistory h); [done|]. intros [= <-]. by exists h.
  - intros [= <-]. by exists [].
Qed.

(** C9: construction fails exactly when a history is supplied and
    [validateChatHistory] throws on it, and then with that error; otherwise
    the supplied history (or the empty one, when none is supplied) becomes
    [_history]; and every constructed session has [_sendPromise] already
    fulfilled and nothing scheduled, so the first send resumes on the very
    next job. *)
Theorem C9_construction apiKey model0 params0 requestOptions :
  (∀ e, new apiKey model0 params0 requestOptions = inl e
        ↔ ∃ h, params0 ≫= Params.history = Some h
               ∧ validateChatHistory h = Some e)
  ∧ (∀ h, params0 ≫= Params.history = Some h →
          validateChatHistory h = None →
          new apiKey model0 params0 requestOptions
          = inr (session apiKey model0 params0 (default ∅ requestOptions) h))
  ∧ (params0 ≫= Params.history = None →
     new apiKey model0 params0 requestOptions
     = inr (session apiKey model0 params0 (default ∅ requestOptions) []))
  ∧ (∀ s, new apiKey model0 params0 requestOptions = inr s →
          heap s !! _sendPromise s = Some (Fulfilled VUndefined)
          ∧ queue s = []
          ∧ ∀ fmt fbe ivr request o,
              queue (step fmt fbe ivr (CallSendMessage request o) s)
              = [ReactionJob
                   (Await (InSendMessage request (default ∅ o) 1))
                   (Ok VUndefined)]).
Proof.
  repeat split.
  - unfold constructor. destruct (params0 ≫= Params.history) as [h|]; [|done].
    destruct (validateChatHistory h) as [e'|] eqn:E; [|done].
    intros [= <-]. by exists h.
  - intros (h & Hh & Hv). unfold constructor. by rewrite Hh, Hv.
  - intros h Hh Hv. unfold constructor. by rewrite Hh, Hv.
  - intros Hh. unfold constructor. by rewrite Hh.
  - apply constructor_at_rest in H as [h ->]. done.
  - apply constructor_at_rest in H as [h ->]. done.
  - apply constructor_at_rest in H as [h ->]. done.
Qed.

End Construction.

(** C9 on an example: a history that starts with a model turn is refused,
    one that starts with a user turn is adopted. *)
Lemma C9_construction_witness :
  constructor stubValidate "key" "m"
    (Some {| Params.history := Some [modelTurn "hi"];
             Params.safetySettings := JUndefined;
             Params.generationConfig := JUndefined;
             Params.tools := JUndefined;
             Params.toolConfig := JUndefined;
             Params.systemInstruction := JUndefined;
             Params.cachedContent := JUndefined |}) None
  = inl (JsError "Error" "First content should be with role 'user'").
Proof.
  apply (C9_construction stubValidate).
  exists [modelTurn "hi"]. split; reflexivity.
Defined.

(** ** Objects *)

Lemma spread_lookup (a b : gmap string jsval) f :
  spread a b !! f = match b !! f with Some v => Some v | None => a !! f end.
Proof.
  unfold spread. rewrite lookup_union.
  by destruct (b !! f), (a !! f).
Qed.

Lemma snoc_snoc {A} (l : list A) x y : (l ++ [x]) ++ [y] = l ++ [x; y].
Proof. by rewrite <- app_assoc. Qed.

(** ** The chain invariant *)

Lemma live_alloc st s r :
  newborn st → live (with_heap (heap s ++ [st]) s) r → live s r.
Proof.
  intros Hst [(p & rs & Hp & Hr) | Hq]; [|by right].
  cbn in Hp. apply lookup_app_Some in Hp as [Hp | [_ Hp]].
  - left. eauto.
  - destruct (p - length (heap s)); [|done]. cbn in Hp.
    injection Hp as Hp. subst st. destruct rs; [|done].
    by apply elem_of_nil in Hr.
Qed.

Lemma live_register s p rs r r' :
  heap s !! p = Some (Pending rs) →
  live (with_heap (<[p := Pending (rs ++ [r])]> (heap s)) s) r' →
  live s r' ∨ r' = r.
Proof.
  intros Hp [(p' & rs' & Hp' & Hr) | Hq]; [|by left; right].
  cbn in Hp'.
  apply list_lookup_insert_Some in Hp' as [(Heq & Hst & _) | [_ Hp']].
  - subst p'. injection Hst as Hst. subst rs'.
    apply elem_of_app in Hr as [Hr | Hr].
    + left. left. eauto.
    + right. by apply list_elem_of_singleton in Hr.
  - left. left. eauto.
Qed.

Lemma live_enqueue s j r :
  live (with_queue (queue s ++ [j]) s) r → live s r ∨ r = reaction_of j.
Proof.
  intros [Hh | (j' & Hj & Hr)]; [by left; left|]. subst r.
  cbn in Hj. apply elem_of_app in Hj as [Hj | Hj].
  - left. right. eauto.
  - right. apply list_elem_of_singleton in Hj. by subst j'.
Qed.

Lemma live_settle s p rs o r :
  heap s !! p = Some (Pending rs) →
  live (with_queue (queue s ++ map (λ r, ReactionJob r o) rs)
          (with_heap (<[p := settledState o]> (heap s)) s)) r →
  live s r.
Proof.
  intros Hp [(p' & rs' & Hp' & Hr) | (j & Hj & Heq)].
  - cbn in Hp'.
    apply list_lookup_insert_Some in Hp' as [(_ & Hst & _) | [_ Hp']].
    + by destruct o.
    + left. eauto.
  - subst r. cbn in Hj. apply elem_of_app in Hj as [Hj | Hj].
    + right. eauto.
    + apply list_elem_of_In, in_map_iff in Hj as (r & Heq & Hr). subst j.
      apply list_elem_of_In in Hr. left. eauto.
Qed.

Lemma performThen_eq p r s :
  (performThen p r s).2
  = match heap s !! p with
    | Some (Pending rs) => with_heap (<[p := Pending (rs ++ [r])]> (heap s)) s
    | Some (Fulfilled v) => with_queue (queue s ++ [ReactionJob r (Ok v)]) s
    | Some (Rejected e) => with_queue (queue s ++ [ReactionJob r (Err e)]) s
    | None => s
    end.
Proof.
  unfold performThen, mbind, M_bind, get. cbn.
  by destruct (heap s !! p) as [[]|].
Qed.

Lemma settle_eq p o s :
  (settle p o s).2
  = match heap s !! p with
    | Some (Pending rs) =>
        with_queue (queue s ++ map (λ r, ReactionJob r o) rs)
          (with_heap (<[p := settledState o]> (heap s)) s)
    | _ => s
    end.
Proof.
  unfold settle, mbind, M_bind, get. cbn.
  by destruct (heap s !! p) as [[]|].
Qed.

Lemma dispatch_eq kind k m request options s :
  dispatch kind k m request options s
  = (length (heap s),
     with_calls
       (calls s ++ [{| call_kind := kind; call_promise := length (heap s);
                       call_apiKey := k; call_model := m;
                       call_request := request; call_options := options |}])
       (with_heap (heap s ++ [Pending []]) s)).
Proof. reflexivity. Qed.

(** The heap only grows, and the runtime never moves [_sendPromise]. *)
Lemma performThen_frame p r s :
  length (heap (performThen p r s).2) = length (heap s)
  ∧ _sendPromise (performThen p r s).2 = _sendPromise s.
Proof.
  rewrite performThen_eq.
  destruct (heap s !! p) as [[]|]; cbn; by rewrite ?length_insert.
Qed.

Lemma settle_frame p o s :
  length (heap (settle p o s).2) = length (heap s)
  ∧ _sendPromise (settle p o s).2 = _sendPromise s.
Proof.
  rewrite settle_eq.
  destruct (heap s !! p) as [[]|]; cbn; by rewrite ?length_insert.
Qed.

Lemma resolvePromise_frame p v s :
  length (heap (resolvePromise p v s).2) = length (heap s)
  ∧ _sendPromise (resolvePromise p v s).2 = _sendPromise s.
Proof.
  unfold resolvePromise. destruct v; try apply settle_frame.
  case_decide; [apply settle_frame | done].
Qed.

Lemma isCall_elem k p s :
  isCall k p s = true → ∃ c, c ∈ calls s ∧ call_promise c = p.
Proof.
  unfold isCall. intros Hc. apply existsb_exists in Hc as (c & Hc & Hp).
  apply bool_decide_eq_true in Hp as [Hp _].
  exists c. by rewrite list_elem_of_In.
Qed.

Lemma closureOk_mono ro (A A' : gmap string jsval → Prop) r :
  (∀ o, A o → A' o) → closureOk ro A r → closureOk ro A' r.
Proof.
  intros HA. destruct r as [[[]|] g q | [] | q]; cbn; auto.
Qed.

Lemma chainInv_weaken ro (A A' : gmap string jsval → Prop) T s :
  (∀ o, A o → A' o) → chainInv ro A T s → chainInv ro A' T s.
Proof.
  intros HA [(W0 & Wc & Wa & W) HT]. split; [|done].
  split; [done|]. split; [|split; [|done]].
  - intros r Hr. eapply closureOk_mono; eauto.
  - intros c Hc. eauto.
Qed.

Section Invariant.

Variable ro : gmap string jsval.
Variable A : gmap string jsval → Prop.

Local Abbreviation chainInv' := (chainInv ro A).
Local Abbreviation sound := (chainSound ro A).
Local Abbreviation closed := (closureOk ro A).

Lemma chainInv_mono T T' s : T' ⊆ T → chainInv' T s → chainInv' T' s.
Proof. intros HT [Hwf Hp]. split; [done|]. intros t Ht. apply Hp, HT, Ht. Qed.

Lemma chainInv_lt T s t : chainInv' T s → t ∈ T → t < length (heap s).
Proof. intros [_ Hp] Ht. by destruct (Hp t Ht). Qed.

Lemma chainInv_same_runtime T s s' : same_runtime s s' → chainInv' T s → chainInv' T s'.
Proof.
  intros (Hh & Hq & Hc & Hr & Ho) [(W0 & Wc & Wa & W1 & W2 & W3 & W4 & W5) Hp].
  unfold chainInv, wf, protected, live. rewrite Hh, Hq, Hc, Hr, Ho.
  split; [done|]. intros t Ht. apply (Hp t Ht).
Qed.

Lemma chainInv_alloc T st s :
  newborn st → chainInv' T s →
  chainInv' (length (heap s) :: T) (with_heap (heap s ++ [st]) s).
Proof.
  intros Hst [(W0 & Wc & Wa & W1 & W2 & W3 & W4 & W5) Hp]. split.
  - split; [done|]. split; [|split; [done|]].
    { intros r Hr. apply live_alloc in Hr; auto. }
    repeat split; cbn; rewrite ?length_app; cbn.
    + intros r Hr. apply live_alloc, W1 in Hr; [lia|done].
    + intros c Hc. apply W2 in Hc. lia.
    + intros r Hr. apply W3 in Hr. lia.
    + intros p v Hv. apply lookup_app_Some in Hv as [Hv | [_ Hv]]; [eauto|].
      destruct (p - length (heap s)); [|done]. injection Hv as Hv.
      by subst st.
    + done.
  - intros t Ht. apply elem_of_cons in Ht as [Ht | Ht].
    + subst t. repeat split; cbn; rewrite ?length_app; cbn.
      * lia.
      * intros r Hr Ht. apply live_alloc, W1 in Hr; [lia|done].
      * intros c Hc Heq. apply W2 in Hc. lia.
      * intros Hr. apply W3 in Hr. lia.
      * intros e. rewrite list_lookup_middle by done.
        intros Heq. injection Heq as Heq. by subst st.
    + destruct (Hp t Ht) as (P1 & P2 & P3 & P4 & P5).
      repeat split; cbn; rewrite ?length_app; cbn.
      * lia.
      * intros r Hr. apply live_alloc in Hr; [eauto|done].
      * done.
      * done.
      * intros e. rewrite lookup_app_l by done. apply P5.
Qed.

Lemma chainInv_register T s p rs r :
  heap s !! p = Some (Pending rs) →
  closed r →
  target r < length (heap s) →
  (∀ t, t ∈ T → target r = t → guard r) →
  chainInv' T s → chainInv' T (with_heap (<[p := Pending (rs ++ [r])]> (heap s)) s).
Proof.
  intros Hp Hc Hr Hg [(W0 & Wc & Wa & W1 & W2 & W3 & W4 & W5) HT]. split.
  - split; [done|]. split; [|split; [done|]].
    { intros r' Hr'.
      apply (live_register _ _ _ _ _ Hp) in Hr' as [Hr' | Hr'];
        [eauto|by subst r']. }
    repeat split; cbn; rewrite ?length_insert.
    + intros r' Hr'.
      apply (live_register _ _ _ _ _ Hp) in Hr' as [Hr' | Hr'];
        [eauto|by subst r'].
    + done.
    + done.
    + intros p' v Hv.
      apply list_lookup_insert_Some in Hv as [(_ & Hst & _) | [_ Hv]];
        [done|eauto].
    + done.
  - intros t Ht. destruct (HT t Ht) as (P1 & P2 & P3 & P4 & P5).
    repeat split; cbn; rewrite ?length_insert.
    + done.
    + intros r' Hr'.
      apply (live_register _ _ _ _ _ Hp) in Hr' as [Hr' | Hr'];
        [eauto|subst r'; eauto].
    + done.
    + done.
    + intros e He.
      apply list_lookup_insert_Some in He as [(_ & Hst & _) | [_ He]];
        [done|]. by apply P5 in He.
Qed.

Lemma chainInv_enqueue T s j :
  closed (reaction_of j) →
  target (reaction_of j) < length (heap s) →
  (∀ t, t ∈ T → target (reaction_of j) = t → guard (reaction_of j)) →
  (∀ r o, j = ReactionJob r o → plain_outcome o) →
  chainInv' T s → chainInv' T (with_queue (queue s ++ [j]) s).
Proof.
  intros Hc Hr Hg Ho [(W0 & Wc & Wa & W1 & W2 & W3 & W4 & W5) HT]. split.
  - split; [done|]. split; [|split; [done|]].
    { intros r' Hr'. apply live_enqueue in Hr' as [Hr' | Hr'];
        [eauto|by subst r']. }
    repeat split; cbn; try done.
    + intros r' Hr'. apply live_enqueue in Hr' as [Hr' | Hr'];
        [eauto|by subst r'].
    + intros r o Hj. apply elem_of_app in Hj as [Hj | Hj]; [eauto|].
      apply list_elem_of_singleton in Hj. eauto.
  - intros t Ht. destruct (HT t Ht) as (P1 & P2 & P3 & P4 & P5).
    repeat split; cbn; try done.
    intros r' Hr'. apply live_enqueue in Hr' as [Hr' | Hr'];
      [eauto|subst r'; eauto].
Qed.

Lemma chainInv_performThen T p r s :
  closed r →
  target r < length (heap s) →
  (∀ t, t ∈ T → target r = t → guard r) →
  chainInv' T s → chainInv' T (performThen p r s).2.
Proof.
  intros Hc Hr Hg HJ. rewrite performThen_eq.
  destruct (heap s !! p) as [[rs | v | e] |] eqn:Hp.
  - by apply chainInv_register.
  - apply chainInv_enqueue; try done.
    intros r' o Heq. injection Heq as _ Heq. subst o.
    destruct HJ as [(_ & _ & _ & _ & _ & _ & W4 & _) _]. cbn. eauto.
  - apply chainInv_enqueue; try done.
    intros r' o Heq. injection Heq as _ Heq. by subst o.
  - done.
Qed.

Lemma chainInv_settle T p o s :
  plain_outcome o →
  (∀ e, o = Err e → p ∉ T) →
  chainInv' T s → chainInv' T (settle p o s).2.
Proof.
  intros Ho Hp HJ. rewrite settle_eq.
  destruct (heap s !! p) as [[rs | v | e] |] eqn:Hh; try done.
  destruct HJ as [(W0 & Wc & Wa & W1 & W2 & W3 & W4 & W5) HT].
  split.
  - split; [done|]. split; [|split; [done|]].
    { intros r Hr. apply (live_settle _ _ _ _ _ Hh) in Hr. auto. }
    repeat split; cbn; rewrite ?length_insert; try done.
    + intros r Hr. apply (live_settle _ _ _ _ _ Hh) in Hr. eauto.
    + intros p' v Hv.
      apply list_lookup_insert_Some in Hv as [(_ & Hst & _) | [_ Hv]];
        [|eauto].
      destruct o; [|done]. injection Hst as Hst. by subst v.
    + intros r o' Hj. apply elem_of_app in Hj as [Hj | Hj]; [eauto|].
      apply list_elem_of_In, in_map_iff in Hj as (r' & Heq & _).
      injection Heq as _ Heq. by subst o'.
  - intros t Ht. destruct (HT t Ht) as (P1 & P2 & P3 & P4 & P5).
    repeat split; cbn; rewrite ?length_insert; try done.
    + intros r Hr. apply (live_settle _ _ _ _ _ Hh) in Hr. eauto.
    + intros e He.
      apply list_lookup_insert_Some in He as [(Heq & Hst & _) | [_ He]].
      * subst t. destruct o as [|e']; [done|]. by apply (Hp e').
      * by apply P5 in He.
Qed.

Lemma chainInv_resolvePromise T p v s :
  p < length (heap s) →
  (¬ plain v → p ∉ T) →
  chainInv' T s → chainInv' T (resolvePromise p v s).2.
Proof.
  intros Hp Hv HJ. unfold resolvePromise.
  destruct v; try (apply chainInv_settle; done).
  assert (p ∉ T) as HpT by (apply Hv; cbn; tauto).
  case_decide.
  - apply chainInv_settle; done.
  - apply chainInv_enqueue; try done.
    intros t Ht Heq. cbn in Heq. by subst t.
Qed.

Lemma chainInv_call T s c :
  A (call_options c) →
  call_promise c < length (heap s) → call_promise c ∉ T →
  chainInv' T s → chainInv' T (with_calls (calls s ++ [c]) s).
Proof.
  intros Ha Hc HcT [(W0 & Wc & Wa & W1 & W2 & W3 & W4 & W5) HT]. split.
  - split; [done|]. split; [done|]. split.
    { intros c' Hc'. apply elem_of_app in Hc' as [Hc' | Hc']; [eauto|].
      apply list_elem_of_singleton in Hc'. by subst c'. }
    repeat split; cbn; try done.
    intros c' Hc'. apply elem_of_app in Hc' as [Hc' | Hc']; [eauto|].
    apply list_elem_of_singleton in Hc'. by subst c'.
  - intros t Ht. destruct (HT t Ht) as (P1 & P2 & P3 & P4 & P5).
    repeat split; cbn; try done.
    intros c' Hc'. apply elem_of_app in Hc' as [Hc' | Hc']; [eauto|].
    apply list_elem_of_singleton in Hc'. subst c'. intros Heq. apply HcT.
    by rewrite Heq.
Qed.

Lemma chainInv_response T s r :
  r < length (heap s) → r ∉ T →
  chainInv' T s → chainInv' T (with_responses (responses s ++ [r]) s).
Proof.
  intros Hr HrT [(W0 & Wc & Wa & W1 & W2 & W3 & W4 & W5) HT]. split.
  - split; [done|]. split; [done|]. split; [done|].
    repeat split; cbn; try done.
    intros r' Hr'. apply elem_of_app in Hr' as [Hr' | Hr']; [eauto|].
    apply list_elem_of_singleton in Hr'. by subst r'.
  - intros t Ht. destruct (HT t Ht) as (P1 & P2 & P3 & P4 & P5).
    repeat split; cbn; try done.
    intros Hr'. apply elem_of_app in Hr' as [Hr' | Hr']; [done|].
    apply list_elem_of_singleton in Hr'. by subst t.
Qed.

Lemma chainInv_dispatch T kind k m request options s :
  A options →
  chainInv' T s →
  (dispatch kind k m request options s).1 = length (heap s)
  ∧ length (heap (dispatch kind k m request options s).2) = S (length (heap s))
  ∧ _sendPromise (dispatch kind k m request options s).2 = _sendPromise s
  ∧ chainInv' T (dispatch kind k m request options s).2.
Proof.
  intros Ha HJ. rewrite dispatch_eq. cbn [fst snd].
  split; [done|]. split; [cbn; rewrite length_app; cbn; lia|]. split; [done|].
  apply (chainInv_call T (with_heap (heap s ++ [Pending []]) s)); cbn.
  - done.
  - rewrite length_app. cbn. lia.
  - intros Ht. apply (chainInv_lt _ _ _ HJ) in Ht. lia.
  - eapply chainInv_mono; [|apply (chainInv_alloc T (Pending [])); [done|exact HJ]].
    set_solver.
Qed.

Lemma then_spec T p f s q s' :
  then_ p f s = (q, s') →
  closed (Then (Some f) None (length (heap s))) →
  chainInv' T s →
  q = length (heap s) ∧ length (heap s') = S (length (heap s))
  ∧ _sendPromise s' = _sendPromise s ∧ chainInv' T s'.
Proof.
  unfold then_, mbind, M_bind, newPromise, mret, M_ret.
  set (s1 := with_heap (heap s ++ [Pending []]) s).
  set (r := Then (Some f) None (length (heap s))).
  destruct (performThen p r s1) as [[] s2] eqn:E.
  intros Heq Hc HJ. injection Heq as Hq Hs. subst q s'.
  pose proof (performThen_frame p r s1) as [Hl Ht]. rewrite E in Hl, Ht.
  cbn in Hl, Ht. rewrite length_app in Hl. cbn in Hl.
  split; [done|]. split; [lia|]. split; [done|].
  replace s2 with (performThen p r s1).2 by (by rewrite E).
  apply chainInv_performThen.
  - done.
  - subst s1 r. cbn. rewrite length_app. cbn. lia.
  - intros t Ht' Heq. apply (chainInv_lt _ _ _ HJ) in Ht'. subst r. cbn in Heq. lia.
  - eapply chainInv_mono; [|by apply chainInv_alloc]. set_solver.
Qed.

Lemma catch_spec T p g s q s' :
  catch_ p g s = (q, s') → chainInv' T s →
  q = length (heap s) ∧ length (heap s') = S (length (heap s))
  ∧ _sendPromise s' = _sendPromise s
  ∧ chainInv' (if closesLink g then q :: T else T) s'.
Proof.
  unfold catch_, mbind, M_bind, newPromise, mret, M_ret.
  set (s1 := with_heap (heap s ++ [Pending []]) s).
  set (r := Then None (Some g) (length (heap s))).
  destruct (performThen p r s1) as [[] s2] eqn:E.
  intros Heq HJ. injection Heq as Hq Hs. subst q s'.
  pose proof (performThen_frame p r s1) as [Hl Ht]. rewrite E in Hl, Ht.
  cbn in Hl, Ht. rewrite length_app in Hl. cbn in Hl.
  split; [done|]. split; [lia|]. split; [done|].
  replace s2 with (performThen p r s1).2 by (by rewrite E).
  apply chainInv_performThen.
  - done.
  - subst s1 r. cbn. rewrite length_app. cbn. lia.
  - intros t Ht' Heq. subst r. cbn in Heq. subst t. cbn.
    destruct (closesLink g); [done|].
    apply (chainInv_lt _ _ _ HJ) in Ht'. lia.
  - destruct (closesLink g).
    + by apply chainInv_alloc.
    + eapply chainInv_mono; [|by apply chainInv_alloc]. set_solver.
Qed.

Lemma sound_intro T s : _sendPromise s ∈ T → chainInv' T s → sound s.
Proof. intros Ht. apply chainInv_mono. set_solver. Qed.

Lemma sound_same s s' :
  same_runtime s s' → _sendPromise s' = _sendPromise s →
  sound s → sound s'.
Proof.
  intros Hs Ht HJ. unfold chainSound. rewrite Ht.
  by apply (chainInv_same_runtime _ s).
Qed.

Lemma sound_resolve q v s :
  q < length (heap s) → (¬ plain v → q ≠ _sendPromise s) →
  sound s → sound (resolvePromise q v s).2.
Proof.
  intros Hq Hv HJ.
  pose proof (resolvePromise_frame q v s) as [_ Ht].
  apply (sound_intro [_sendPromise s]); [rewrite Ht; set_solver|].
  apply chainInv_resolvePromise; [done| |exact HJ].
  intros Hp Hin. apply list_elem_of_singleton in Hin. by apply Hv.
Qed.

Lemma sound_reject q e s :
  q ≠ _sendPromise s → sound s → sound (settle q (Err e) s).2.
Proof.
  intros Hq HJ.
  pose proof (settle_frame q (Err e) s) as [_ Ht].
  apply (sound_intro [_sendPromise s]); [rewrite Ht; set_solver|].
  apply chainInv_settle; [done| |exact HJ].
  intros e' _ Hin. by apply list_elem_of_singleton in Hin.
Qed.

Lemma sound_fulfil p v s :
  plain v → sound s → sound (settle p (Ok v) s).2.
Proof.
  intros Hv HJ.
  pose proof (settle_frame p (Ok v) s) as [_ Ht].
  apply (sound_intro [_sendPromise s]); [rewrite Ht; set_solver|].
  apply chainInv_settle; [done|done|exact HJ].
Qed.

Lemma sound_complete q c s :
  q < length (heap s) → q ≠ _sendPromise s →
  sound s → sound (complete q c s).2.
Proof.
  intros Hq Hne HJ. destruct c; cbn.
  - by apply sound_resolve.
  - by apply sound_reject.
Qed.

Lemma sound_requestOptions s : sound s → _requestOptions s = ro.
Proof. by intros [(W0 & _) _]. Qed.

(** The two methods, once resumed, leave the chain sound. *)
Lemma chain_sendMessage c o ret s :
  sound s → A (spread ro o) → ret < length (heap s) →
  sound (sendMessage_chain c o ret s).2.
Proof.
  intros HJ Ha Hret. unfold sendMessage_chain, buildRequest, newLocal.
  unfold mbind, M_bind, get, modify, mret, M_ret. cbn -[then_ catch_ await].
  rewrite (sound_requestOptions s HJ).
  set (s1 := with_locals _ s).
  assert (chainInv' [_sendPromise s] s1) as H1.
  { apply (chainInv_same_runtime _ s); [repeat split|exact HJ]. }
  destruct (then_ _ _ s1) as [p1 s2] eqn:E1.
  destruct (then_spec _ _ _ _ _ _ E1 Ha H1) as (Hp1 & L2 & T2 & H2).
  subst p1.
  destruct (then_ _ _ s2) as [p2 s3] eqn:E2.
  destruct (then_spec _ _ _ _ _ _ E2 I H2) as (Hp2 & L3 & T3 & H3).
  subst p2.
  destruct (catch_ _ _ s3) as [p3 s4] eqn:E3.
  destruct (catch_spec _ _ _ _ _ _ E3 H3) as (Hp3 & L4 & T4 & H4).
  subst p3.
  cbn in H4, L2. unfold await.
  set (s5 := with_sendPromise _ s4).
  assert (chainInv' [length (heap s3)] s5) as H5.
  { apply (chainInv_same_runtime _ s4); [repeat split|].
    eapply chainInv_mono; [|exact H4]. set_solver. }
  pose proof (performThen_frame (length (heap s3))
                (Await (InSendMessageEnd (length (locals s)) ret)) s5)
    as [_ Ht].
  apply (sound_intro [length (heap s3)]); [rewrite Ht; set_solver|].
  apply chainInv_performThen; [done|cbn; lia| |exact H5].
  intros t Ht' Heq. apply list_elem_of_singleton in Ht'. cbn in Heq. lia.
Qed.

Lemma chain_sendMessageStream c o ret s :
  sound s → A (spread ro o) → ret < length (heap s) →
  sound (sendMessageStream_chain c o ret s).2.
Proof.
  intros HJ Ha Hret.
  unfold sendMessageStream_chain, buildRequest, generateContentStream.
  unfold mbind, M_bind, get, modify, mret, M_ret.
  cbn -[then_ catch_ resolvePromise dispatch].
  rewrite (sound_requestOptions s HJ).
  destruct (chainInv_dispatch _ Streaming (_apiKey s) (model s)
              {| safetySettings := param Params.safetySettings (params s);
                 generationConfig := param Params.generationConfig (params s);
                 tools := param Params.tools (params s);
                 toolConfig := param Params.toolConfig (params s);
                 systemInstruction := param Params.systemInstruction (params s);
                 cachedContent := param Params.cachedContent (params s);
                 contents := _history s ++ [c] |}
              (spread ro o) s Ha HJ) as (Hsp & L1 & T1 & H1).
  destruct (dispatch _ _ _ _ _ s) as [sp s1]. cbn in Hsp, L1, T1, H1.
  subst sp.
  destruct (then_ _ _ s1) as [p1 s2] eqn:E1.
  destruct (then_spec _ _ _ _ _ _ E1 I H1) as (Hp1 & L2 & T2 & H2).
  subst p1.
  destruct (catch_ _ _ s2) as [p2 s3] eqn:E2.
  destruct (catch_spec _ _ _ _ _ _ E2 H2) as (Hp2 & L3 & T3 & H3).
  subst p2.
  destruct (then_ _ _ s3) as [p3 s4] eqn:E3.
  destruct (then_spec _ _ _ _ _ _ E3 I H3) as (Hp3 & L4 & T4 & H4).
  subst p3.
  destruct (then_ _ _ s4) as [p4 s5] eqn:E4.
  destruct (then_spec _ _ _ _ _ _ E4 I H4) as (Hp4 & L5 & T5 & H5).
  subst p4.
  destruct (catch_ _ _ s5) as [p5 s6] eqn:E5.
  destruct (catch_spec _ _ _ _ _ _ E5 H5) as (Hp5 & L6 & T6 & H6).
  subst p5.
  cbn in H3, H6.
  set (s7 := with_sendPromise _ s6).
  assert (chainInv' [length (heap s5)] s7) as H7.
  { apply (chainInv_same_runtime _ s6); [repeat split|].
    eapply chainInv_mono; [|exact H6]. set_solver. }
  pose proof (resolvePromise_frame ret (VPromise (length (heap s))) s7)
    as [_ Ht].
  apply (sound_intro [length (heap s5)]); [rewrite Ht; set_solver|].
  apply chainInv_resolvePromise; [cbn; lia| |exact H7].
  intros _ Hin. apply list_elem_of_singleton in Hin. lia.
Qed.

(** Calling a method: a new promise for the caller, and an [await] on
    [_sendPromise]. *)
Lemma sound_call (k : pid → awaiter) s :
  (∀ ret, ret_of (k ret) = ret) →
  closed (Await (k (length (heap s)))) →
  sound s →
  sound ((ret ← newPromise (Pending []);
          tail ← get _sendPromise;
          await tail (k ret);; mret ret) s).2.
Proof.
  intros Hk Hc HJ.
  set (s1 := with_heap (heap s ++ [Pending []]) s).
  assert (((ret ← newPromise (Pending []);
            tail ← get _sendPromise;
            await tail (k ret);; mret ret) s).2
          = (performThen (_sendPromise s) (Await (k (length (heap s)))) s1).2)
    as Heq.
  { unfold mbind, M_bind, newPromise, get, mret, M_ret, await. cbn [fst snd].
    fold s1. change (_sendPromise s1) with (_sendPromise s).
    by destruct (performThen _ _ s1). }
  rewrite Heq.
  pose proof (performThen_frame (_sendPromise s)
                (Await (k (length (heap s)))) s1) as [_ Ht].
  apply (sound_intro [_sendPromise s]); [rewrite Ht; set_solver|].
  apply chainInv_performThen.
  - done.
  - cbn. rewrite Hk, length_app. cbn. lia.
  - intros t Hin Ht'. apply list_elem_of_singleton in Hin. subst t.
    cbn in Ht'. rewrite Hk in Ht'.
    destruct HJ as [_ HT]. destruct (HT (_sendPromise s)) as [P1 _];
      [set_solver|]. lia.
  - eapply chainInv_mono;
      [|apply (chainInv_alloc [_sendPromise s] (Pending [])); [done|exact HJ]].
    set_solver.
Qed.

Section Jobs.

Variable formatNewContent : Request → jserr + gmap string jsval.
Variable formatBlockErrorMessage : GenerateContentResponse → option string.
Variable isValidResponse : GenerateContentResponse → bool.

Lemma admitUnary_runtime finalResult newContent v s :
  let s' := (admitUnary formatBlockErrorMessage isValidResponse
               finalResult newContent v s).2 in
  same_runtime s s' ∧ _sendPromise s' = _sendPromise s.
Proof.
  unfold admitUnary. destruct v; try done.
  destruct (isValidResponse _).
  - destruct (firstContentOptional _); done.
  - unfold mbind, M_bind. rewrite warnBlocked_eq. done.
Qed.

Lemma admitStream_runtime newContent v s :
  let s' := (admitStream formatBlockErrorMessage isValidResponse
               newContent v s).2 in
  same_runtime s s' ∧ _sendPromise s' = _sendPromise s.
Proof.
  unfold admitStream. destruct v; try done.
  destruct (isValidResponse _).
  - destruct (firstContent _); done.
  - unfold mbind, M_bind. rewrite warnBlocked_eq. done.
Qed.

Lemma runFulfilled_sound h g q v s :
  sound s → closed (Then (Some h) g q) →
  let out := runFulfilled formatBlockErrorMessage isValidResponse h v s in
  sound out.2
  ∧ (length (heap s) ≤ length (heap out.2))%nat
  ∧ _sendPromise out.2 = _sendPromise s.
Proof.
  intros HJ Hc. destruct h as [request options | fr nc | sp | | nc]; cbn.
  - unfold mbind, M_bind, get, generateContent. cbn -[dispatch].
    destruct (chainInv_dispatch _ Unary (_apiKey s) (model s) request options s
                Hc HJ) as (_ & L & T & H).
    destruct (dispatch _ _ _ _ _ s) as [p s1]. cbn in *.
    split; [|split; [lia|done]].
    unfold chainSound. by rewrite T.
  - destruct (admitUnary_runtime fr nc v s) as [Hs Ht].
    split; [by apply (sound_same s)|].
    destruct Hs as (Hh & _). by rewrite Hh.
  - done.
  - by destruct v.
  - destruct (admitStream_runtime nc v s) as [Hs Ht].
    split; [by apply (sound_same s)|].
    destruct Hs as (Hh & _). by rewrite Hh.
Qed.

Lemma runRejected_sound g e q s :
  sound s → q < length (heap s) →
  (q = _sendPromise s → closesLink g = true) →
  sound ((c ← runRejected g e; complete q c) s).2.
Proof.
  intros HJ Hq Hg. destruct g; unfold mbind, M_bind; cbn [runRejected].
  - unfold Promise_resolve, newPromise, mbind, M_bind, modify, mret, M_ret.
    cbn [fst snd complete].
    set (s1 := with_heap _ s). set (s2 := with_sendPromise _ s1).
    assert (sound s2) as H2.
    { apply (sound_intro [length (heap s); _sendPromise s]);
        [set_solver|].
      apply (chainInv_same_runtime _ s1); [repeat split|].
      by apply chainInv_alloc. }
    apply sound_reject; [cbn; lia|exact H2].
  - cbn. apply sound_reject; [|exact HJ].
    intros Heq. by specialize (Hg Heq).
  - rewrite logUnlessSilent_eq. cbn [fst snd complete].
    apply sound_resolve; [done|by intros []|].
    by apply (sound_same s).
Qed.

Lemma resume_sound k o s :
  sound s → closed (Await k) →
  ret_of k < length (heap s) → ret_of k ≠ _sendPromise s →
  sound (resume formatNewContent k o s).2.
Proof.
  intros HJ Hc Hret Hne.
  destruct k as [ret | request options ret | fr ret | request options ret],
    o as [v | e]; cbn [resume ret_of] in *;
    try (by apply sound_reject).
  - apply sound_resolve; [done|by intros []|done].
  - unfold sendMessage_resumed. destruct (formatNewContent request).
    + by apply sound_reject.
    + by apply chain_sendMessage.
  - unfold mbind, M_bind, getLocal, get. cbn [fst snd].
    by apply sound_resolve.
  - unfold sendMessageStream_resumed. destruct (formatNewContent request).
    + by apply sound_reject.
    + by apply chain_sendMessageStream.
Qed.

Lemma runJob_sound j s :
  sound s →
  closed (reaction_of j) →
  target (reaction_of j) < length (heap s) →
  (target (reaction_of j) = _sendPromise s → guard (reaction_of j)) →
  (∀ r o, j = ReactionJob r o → plain_outcome o) →
  sound
    (runJob formatNewContent formatBlockErrorMessage isValidResponse j s).2.
Proof.
  intros HJ Hc Hlt Hg Ho.
  destruct j as [[f g q | k | q] [v | e] | q x]; cbn in Hlt, Hg;
    cbn [runJob reaction_of] in *.
  - destruct f as [h|].
    + unfold mbind, M_bind.
      destruct (runFulfilled_sound h g q v s HJ Hc) as (H1 & L1 & T1).
      destruct (runFulfilled _ _ h v s) as [c s1]. cbn in H1, L1, T1.
      apply sound_complete; [lia| |exact H1].
      rewrite T1. intros Heq. by apply Hg in Heq.
    + specialize (Ho _ _ eq_refl). cbn in Ho.
      apply sound_resolve; [done| |done]. by intros [].
  - destruct g as [h|].
    + apply runRejected_sound; [done..|].
      intros Heq. apply Hg in Heq. by destruct f.
    + apply sound_reject; [|done].
      intros Heq. apply Hg in Heq. by destruct f.
  - apply resume_sound; [done..|]. intros Heq. by apply Hg in Heq.
  - apply resume_sound; [done..|]. intros Heq. by apply Hg in Heq.
  - apply sound_resolve; [done| |done].
    intros _ Heq. by apply Hg in Heq.
  - apply sound_reject; [|done]. intros Heq. by apply Hg in Heq.
  - pose proof (performThen_frame x (Adopt q) s) as [_ Ht].
    apply (sound_intro [_sendPromise s]); [rewrite Ht; set_solver|].
    apply chainInv_performThen; [done|done| |exact HJ].
    intros t Hin Heq. apply list_elem_of_singleton in Hin. subst t.
    cbn in Heq. by apply Hg in Heq.
Qed.

Lemma sound_pop s j rest :
  queue s = j :: rest → sound s →
  sound (with_queue rest s)
  ∧ closed (reaction_of j)
  ∧ target (reaction_of j) < length (heap s)
  ∧ (target (reaction_of j) = _sendPromise s → guard (reaction_of j))
  ∧ (∀ r o, j = ReactionJob r o → plain_outcome o).
Proof.
  intros Hq [(W0 & Wc & Wa & W1 & W2 & W3 & W4 & W5) HT].
  assert (∀ r, live (with_queue rest s) r → live s r) as Hlive.
  { intros r [Hr | (j' & Hj & Heq)]; [by left|].
    right. exists j'. split; [|done]. cbn in Hj. rewrite Hq. by right. }
  assert (live s (reaction_of j)) as Hj.
  { right. exists j. split; [|done]. rewrite Hq. by left. }
  destruct (HT (_sendPromise s)) as (P1 & P2 & P3 & P4 & P5); [set_solver|].
  split; [|split; [|split; [|split]]].
  - split.
    + split; [done|]. split; [|split; [done|]].
      { intros r Hr. apply Wc, Hlive, Hr. }
      repeat split; cbn; try done.
      * intros r Hr. apply W1, Hlive, Hr.
      * intros r o Hr. apply (W5 r o). rewrite Hq. by right.
    + intros t Ht. apply list_elem_of_singleton in Ht. cbn in Ht. subst t.
      repeat split; cbn; try done.
      intros r Hr. apply P2, Hlive, Hr.
  - by apply Wc.
  - by apply W1.
  - by apply P2.
  - intros r o Heq. subst j. apply (W5 r o). rewrite Hq. by left.
Qed.

Lemma microtask_sound s :
  sound s →
  sound (microtask formatNewContent formatBlockErrorMessage isValidResponse s).
Proof.
  intros HJ. unfold microtask. destruct (queue s) as [|j rest] eqn:Hq; [done|].
  destruct (sound_pop s j rest Hq HJ) as (H0 & Hc & Hlt & Hg & Ho).
  by apply runJob_sound.
Qed.

Lemma drain_sound n s :
  sound s →
  sound (drain formatNewContent formatBlockErrorMessage isValidResponse n s).
Proof.
  revert s. induction n as [|n IH]; intros s HJ; cbn; [done|].
  destruct (queue s); [done|]. by apply IH, microtask_sound.
Qed.

(** Every event keeps the chain sound, provided the options of a send it
    issues are among [A]. *)
Lemma step_sound ev s :
  (∀ request o,
     ev = CallSendMessage request o ∨ ev = CallSendMessageStream request o →
     A (spread ro (default ∅ o))) →
  sound s →
  sound (step formatNewContent formatBlockErrorMessage isValidResponse ev s).
Proof.
  intros Hev HJ.
  destruct ev as [| request o | request o | n | p r | p e | p | q r | q e];
    cbn [step]; unfold exec.
  - by apply (sound_call InGetHistory).
  - apply (sound_call (InSendMessage request (default ∅ o)));
      [done| |done]. cbn. eauto.
  - apply (sound_call
             (InSendMessageStream request (default ∅ o)));
      [done| |done]. cbn. eauto.
  - by apply drain_sound.
  - destruct (isCall _ _ _); [|done]. by apply sound_fulfil.
  - destruct (isCall Unary p s || isCall Streaming p s) eqn:Hc; [|done].
    apply sound_reject; [|done].
    assert (∃ c, c ∈ calls s ∧ call_promise c = p) as (c & Hin & Hp).
    { apply orb_true_iff in Hc as [Hc | Hc]; by apply isCall_elem in Hc. }
    subst p.
    destruct HJ as [_ HT]. destruct (HT (_sendPromise s)) as (_ & _ & P3 & _);
      [set_solver|]. by apply P3.
  - destruct (isCall Streaming p s && isPending p s); [|done].
    unfold mbind, M_bind, newPromise, modify. cbn [fst snd].
    apply sound_fulfil; [done|].
    apply (sound_intro [_sendPromise s]); [set_solver|].
    apply chainInv_response; cbn.
    + rewrite length_app. cbn. lia.
    + intros Hin. apply list_elem_of_singleton in Hin.
      destruct HJ as [_ HT]. destruct (HT (_sendPromise s)) as [P1 _];
        [set_solver|]. lia.
    + eapply chainInv_mono;
        [|apply (chainInv_alloc [_sendPromise s] (Pending []));
          [done|exact HJ]].
      set_solver.
  - case_bool_decide; [|done]. by apply sound_fulfil.
  - case_bool_decide as Hr; [|done].
    apply sound_reject; [|done]. intros Heq. subst q.
    destruct HJ as [_ HT].
    destruct (HT (_sendPromise s)) as (_ & _ & _ & P4 & _); [set_solver|].
    done.
Qed.

End Jobs.

Lemma sound_tail s :
  sound s →
  ∃ st, heap s !! _sendPromise s = Some st ∧ ∀ e, st ≠ Rejected e.
Proof.
  intros [_ HT]. destruct (HT (_sendPromise s)) as (P1 & _ & _ & _ & P5);
    [set_solver|].
  apply lookup_lt_is_Some in P1 as [st Hst]. exists st. split; [done|].
  intros e Heq. subst st. by apply (P5 e).
Qed.

End Invariant.

Lemma session_sound A k m p ro H : chainSound ro A (session k m p ro H).
Proof.
  assert (∀ r, ¬ live (session k m p ro H) r) as Hlive.
  { intros r [(q & rs & Hq & Hr) | (j & Hj & _)].
    - destruct q; [done|]. done.
    - by apply elem_of_nil in Hj. }
  split.
  - split; [done|]. split; [by intros r Hr; apply Hlive in Hr|].
    split; [by intros c Hc; apply elem_of_nil in Hc|].
    repeat split; cbn.
    + intros r Hr. by apply Hlive in Hr.
    + intros c Hc. by apply elem_of_nil in Hc.
    + intros r Hr. by apply elem_of_nil in Hr.
    + intros q v Hq. destruct q; [|done]. injection Hq as Hq. by subst v.
    + intros r o Hr. by apply elem_of_nil in Hr.
  - intros t Ht. apply list_elem_of_singleton in Ht. cbn in Ht. subst t.
    repeat split; cbn.
    + lia.
    + intros r Hr. by apply Hlive in Hr.
    + intros c Hc. by apply elem_of_nil in Hc.
    + intros Hr. by apply elem_of_nil in Hr.
    + done.
Qed.

Lemma sent_mono ro evs evs' o : sent ro evs o → sent ro (evs ++ evs') o.
Proof.
  intros (request & o' & Hin & Heq). exists request, o'. split; [|done].
  destruct Hin as [Hin | Hin]; [left | right]; apply elem_of_app; by left.
Qed.

Section Runs.

Variable formatNewContent : Request → jserr + gmap string jsval.
Variable formatBlockErrorMessage : GenerateContentResponse → option string.
Variable isValidResponse : GenerateContentResponse → bool.

(** The invariant along a run: after the events [pre] and then [evs], the
    chain is sound with respect to the sends of [pre ++ evs]. *)
Lemma run_sound ro evs pre s :
  chainSound ro (sent ro pre) s →
  chainSound ro (sent ro (pre ++ evs))
    (run formatNewContent formatBlockErrorMessage isValidResponse evs s).
Proof.
  revert pre s. induction evs as [|ev evs IH]; intros pre s HJ.
  - by rewrite app_nil_r.
  - change (run _ _ _ (ev :: evs) s)
      with (run formatNewContent formatBlockErrorMessage isValidResponse evs
              (step formatNewContent formatBlockErrorMessage isValidResponse
                 ev s)).
    replace (pre ++ ev :: evs) with ((pre ++ [ev]) ++ evs)
      by (by rewrite <- app_assoc).
    apply IH. apply step_sound.
    + intros request o Hev. exists request, o. split; [|done].
      destruct Hev as [Hev | Hev]; subst ev; [left | right];
        apply elem_of_app; right; by apply list_elem_of_singleton.
    + eapply chainInv_weaken; [|exact HJ]. intros o. apply sent_mono.
Qed.

End Runs.

(** ** Sends on a session at rest *)

Section Sends.

Variable formatNewContent : Request → jserr + gmap string jsval.
Variable formatBlockErrorMessage : GenerateContentResponse → option string.
Variable isValidResponse : GenerateContentResponse → bool.

Local Abbreviation run' :=
  (run formatNewContent formatBlockErrorMessage isValidResponse).

(** C8: the options of the remote call, on both paths, are the session's
    [_requestOptions] overridden property by property by the options of
    the call (none given counts as the empty object): a property of the
    call's options wins, otherwise the session's value is kept, and a
    property of neither is absent.  Whatever happens to a new session,
    every remote call it makes carries the options of one of the sends
    issued, merged in that way with the session's. *)
Theorem C8_request_options k m p ro H request o c :
  formatNewContent request = inr c →
  let merged := spread ro (default ∅ o) in
  (∀ f, merged !! f = match default ∅ o !! f with
                      | Some v => Some v
                      | None => ro !! f
                      end)
  ∧ call_options <$>
      calls (run' [CallSendMessage request o; Jobs 4] (session k m p ro H))
    = [merged]
  ∧ call_options <$>
      calls (run' [CallSendMessageStream request o; Jobs 1]
                  (session k m p ro H))
    = [merged]
  ∧ (∀ evs call,
       call ∈ calls (run' evs (session k m p ro H)) →
       ∃ request' o',
         (CallSendMessage request' o' ∈ evs
          ∨ CallSendMessageStream request' o' ∈ evs)
         ∧ call_options call = spread ro (default ∅ o')).
Proof.
  intros Hc merged. split; [|split; [|split]].
  - intros f. apply spread_lookup.
  - subst merged. js_run. js_norm. reflexivity.
  - subst merged. js_run. js_norm. reflexivity.
  - intros evs call Hin.
    destruct (run_sound formatNewContent formatBlockErrorMessage
                isValidResponse ro evs [] _
                (session_sound (sent ro []) k m p ro H))
      as [(_ & _ & Wa & _) _].
    exact (Wa call Hin).
Qed.

(** C3: a unary send whose remote call fails (the call is promise [5],
    the error [e]).  The [.catch] of the chain has replaced [_sendPromise]
    by a fulfilled promise while the promise returned to the caller (promise
    [1]) is still pending; the caller then sees [e]; the history is
    untouched.  A send issued afterwards builds its request from that same
    history, and a valid response fulfils it and is admitted.  In any
    state, that [.catch] installs a fulfilled [_sendPromise] and rethrows
    the error it received. *)
Theorem C3_failed_send_resets_chain k m p ro H ra oa rb ob ca cb e res c :
  formatNewContent ra = inr ca →
  formatNewContent rb = inr cb →
  isValidResponse (response res) = true →
  firstContentOptional (response res) = inr c →
  let s0 := session k m p ro H in
  let failing := [CallSendMessage ra oa; Jobs 12; CallFails 5 e] in
  call_promise <$> calls (run' [CallSendMessage ra oa; Jobs 12] s0) = [5]
  ∧ (let s := run' (failing ++ [Jobs 3]) s0 in
     heap s !! _sendPromise s = Some (Fulfilled VUndefined)
     ∧ heap s !! 1 = Some (Pending []))
  ∧ (let s := run' (failing ++ [Jobs 12]) s0 in
     heap s !! 1 = Some (Rejected e)
     ∧ _history s = H
     ∧ heap s !! _sendPromise s = Some (Fulfilled VUndefined)
     ∧ queue s = [])
  ∧ (let s := run' (failing ++ [Jobs 12; CallSendMessage rb ob; Jobs 12]) s0 in
     (λ c, (call_promise c, contents (call_request c))) <$> calls s
     = [(5, H ++ [ca]); (11, H ++ [cb])])
  ∧ (let s := run' (failing ++ [Jobs 12; CallSendMessageStream rb ob; Jobs 12])
                   s0 in
     (λ c, (call_promise c, contents (call_request c))) <$> calls s
     = [(5, H ++ [ca]); (8, H ++ [cb])])
  ∧ (let s := run' (failing ++ [Jobs 12; CallSendMessage rb ob; Jobs 12;
                                UnaryReturns 11 res; Jobs 12]) s0 in
     heap s !! 7 = Some (Fulfilled (VResult res))
     ∧ _history s = H ++ [cb; unaryResponseContent c]
     ∧ queue s = [])
  ∧ (∀ e' s, let out := runRejected ResetAndRethrow e' s in
             out.1 = Throw e'
             ∧ heap out.2 !! _sendPromise out.2 = Some (Fulfilled VUndefined)
             ∧ _history out.2 = _history s).
Proof.
  intros Ha Hb Hv Hc s0 failing. subst s0 failing. cbn [app].
  split; [|split; [|split; [|split; [|split; [|split]]]]];
    try (repeat split; js_run; js_history).
  intros e' s.
  unfold runRejected, Promise_resolve, newPromise, modify, mbind, M_bind,
    mret, M_ret.
  cbn -[lookup]. split; [done|split; [|done]].
  by apply list_lookup_middle.
Qed.

(** C1, as the code behaves: two unary sends issued back to back.  Both
    methods read [_sendPromise] before either has extended the chain, so
    both resume on the initial history: the request of the second send
    (promise [10]) is built without the turns of the first, although it is
    dispatched only after the first response (promise [9]) was admitted.
    The admissions themselves are applied in order, also when the second
    send is a streaming one whose response is complete first -- but that
    streaming request (promise [6]) is dispatched at once, before the
    unary request it follows (promise [12]).  When the second send is
    issued after the first has extended the chain, its request does carry
    the first exchange. *)
Theorem C1_overlapping_sends k m p ro H ra oa rb ob ca cb resA resB c1 c2 c2' :
  formatNewContent ra = inr ca →
  formatNewContent rb = inr cb →
  isValidResponse (response resA) = true →
  firstContentOptional (response resA) = inr c1 →
  isValidResponse (response resB) = true →
  firstContentOptional (response resB) = inr c2 →
  firstContent (response resB) = inr c2' →
  let s0 := session k m p ro H in
  let both := [CallSendMessage ra oa; CallSendMessage rb ob; Jobs 12] in
  (λ c, (call_promise c, contents (call_request c)))
     <$> calls (run' both s0) = [(9, H ++ [ca])]
  ∧ (let s := run' (both ++ [UnaryReturns 9 resA; Jobs 12]) s0 in
     _history s = H ++ [ca; unaryResponseContent c1]
     ∧ (λ c, (call_promise c, contents (call_request c))) <$> calls s
       = [(9, H ++ [ca]); (10, H ++ [cb])]
     ∧ H ++ [cb] ≠ _history s ++ [cb])
  ∧ (let s := run' (both ++ [UnaryReturns 9 resA; Jobs 12;
                             UnaryReturns 10 resB; Jobs 12]) s0 in
     _history s = H ++ [ca; unaryResponseContent c1;
                        cb; unaryResponseContent c2]
     ∧ heap s !! 1 = Some (Fulfilled (VResult resA))
     ∧ heap s !! 2 = Some (Fulfilled (VResult resB)))
  ∧ (let mixed := [CallSendMessage ra oa; CallSendMessageStream rb ob;
                   Jobs 12; StreamOpens 6; Jobs 12;
                   StreamCompletes 13 (response resB); Jobs 12] in
     (λ c, (call_kind c, call_promise c, contents (call_request c)))
       <$> calls (run' mixed s0)
     = [(Streaming, 6, H ++ [cb]); (Unary, 12, H ++ [ca])]
     ∧ _history (run' mixed s0) = H
     ∧ _history (run' (mixed ++ [UnaryReturns 12 resA; Jobs 12]) s0)
       = H ++ [ca; unaryResponseContent c1; cb; streamResponseContent c2'])
  ∧ (let later := [CallSendMessage ra oa; Jobs 12;
                   CallSendMessage rb ob; Jobs 12] in
     (λ c, (call_promise c, contents (call_request c)))
       <$> calls (run' later s0) = [(5, H ++ [ca])]
     ∧ (λ c, (call_promise c, contents (call_request c)))
         <$> calls (run' (later ++ [UnaryReturns 5 resA; Jobs 12]) s0)
       = [(5, H ++ [ca]); (10, H ++ [ca; unaryResponseContent c1; cb])]).
Proof.
  intros Ha Hb Hv1 Hc1 Hv2 Hc2 Hc2' s0 both. subst s0 both. cbn [app].
  split; [|split; [|split; [|split]]]; try (repeat split; js_run; js_history).
  split; [|split]; try (js_run; js_history).
  js_run. cbn [_history]. intros Heq. apply (f_equal length) in Heq.
  revert Heq. js_norm.
  repeat match goal with
         | |- context [?f ?l ?r] =>
             lazymatch f with (fix app l m {struct l} := _) => idtac end;
             change (f l r) with (l ++ r)
         end.
  fold (@length (gmap string jsval)).
  rewrite !length_app. cbn. lia.
Qed.

(** C6, as the code behaves: [getHistory] called right after an unawaited
    [sendMessage] reads the same [_sendPromise] as the send did, so it
    resolves (promise [2]) while the send is still waiting for its remote
    call (promise [6]): the history it hands out has none of the send's
    turns, which arrive only with the response.  Called once the send has
    extended the chain, [getHistory] (promise [6]) does wait for the
    admission. *)
Theorem C6_getHistory_after_unawaited_send k m p ro H ra oa ca res c :
  formatNewContent ra = inr ca →
  isValidResponse (response res) = true →
  firstContentOptional (response res) = inr c →
  let s0 := session k m p ro H in
  (let s := run' [CallSendMessage ra oa; CallGetHistory; Jobs 12] s0 in
   heap s !! 2 = Some (Fulfilled VHistory)
   ∧ _history s = H
   ∧ heap s !! 1 = Some (Pending [])
   ∧ call_promise <$> calls s = [6]
   ∧ queue s = [])
  ∧ (let s := run' [CallSendMessage ra oa; CallGetHistory; Jobs 12;
                    UnaryReturns 6 res; Jobs 12] s0 in
     _history s = H ++ [ca; unaryResponseContent c]
     ∧ heap s !! 1 = Some (Fulfilled (VResult res)))
  ∧ (let s := run' [CallSendMessage ra oa; Jobs 12;
                    CallGetHistory; Jobs 12] s0 in
     heap s !! 6 = Some (Pending []) ∧ _history s = H)
  ∧ (let s := run' [CallSendMessage ra oa; Jobs 12;
                    CallGetHistory; Jobs 12;
                    UnaryReturns 5 res; Jobs 12] s0 in
     heap s !! 6 = Some (Fulfilled VHistory)
     ∧ _history s = H ++ [ca; unaryResponseContent c]).
Proof.
  intros Ha Hv Hc s0. subst s0.
  repeat split; js_run; js_history.
Qed.

End Sends.

(** ** What each job does to the history *)

Lemma exec_bind {A B} (m : M A) (k : A → M B) s :
  exec (m ≫= k) s = exec (k (m s).1) (m s).2.
Proof. unfold exec, mbind, M_bind. by destruct (m s). Qed.

Lemma keeps_ret {A B} (f : state → B) (a : A) : keeps f (mret a).
Proof. by intros s. Qed.

Lemma keeps_bind {A A' B} (f : state → B) (m : M A) (k : A → M A') :
  keeps f m → (∀ a, keeps f (k a)) → keeps f (m ≫= k).
Proof.
  intros Hm Hk s. unfold mbind, M_bind.
  specialize (Hm s). destruct (m s) as [a s']. cbn in *.
  by rewrite Hk.
Qed.

Lemma keeps_get {A B} (f : state → B) (g : state → A) : keeps f (get g).
Proof. by intros s. Qed.

Lemma keeps_modify {B} (f : state → B) (g : state → state) :
  (∀ s, f (g s) = f s) → keeps f (modify g).
Proof. intros Hg s. apply Hg. Qed.

Create HintDb keeps discriminated.

#[local] Hint Resolve keeps_ret keeps_get : keeps.

(** Decompose a computation along its binds and case distinctions. *)
Ltac keeps_step :=
  lazymatch goal with
  | |- keeps _ (mbind _ _) => apply keeps_bind; [|intros ?]
  | |- keeps _ (modify _) => apply keeps_modify; intros ?; reflexivity
  | |- keeps _ (match ?x with _ => _ end) => destruct x
  | |- ∀ _, _ => intros ?
  | |- keeps _ _ => solve [eauto with keeps]
  end.

Ltac keeps_auto := repeat keeps_step.

Section History.

Variable formatNewContent : Request → jserr + gmap string jsval.
Variable formatBlockErrorMessage : GenerateContentResponse → option string.
Variable isValidResponse : GenerateContentResponse → bool.

Local Abbreviation kept := (keeps _history).

Lemma kept_newPromise st : kept (newPromise st).
Proof. by intros s. Qed.

Lemma kept_enqueue j : kept (enqueue j).
Proof. by intros s. Qed.

Lemma kept_performThen p r : kept (performThen p r).
Proof. unfold performThen, enqueue. keeps_auto. Qed.

Lemma kept_settle p o : kept (settle p o).
Proof. unfold settle. keeps_auto. Qed.

Lemma kept_resolvePromise p v : kept (resolvePromise p v).
Proof.
  unfold resolvePromise.
  destruct v; try apply kept_settle.
  case_decide; [apply kept_settle | apply kept_enqueue].
Qed.

Hint Resolve kept_newPromise kept_enqueue kept_performThen kept_settle
  kept_resolvePromise : keeps.

Lemma kept_then p f : kept (then_ p f).
Proof. unfold then_. keeps_auto. Qed.

Lemma kept_catch p g : kept (catch_ p g).
Proof. unfold catch_. keeps_auto. Qed.

Lemma kept_await p k : kept (await p k).
Proof. apply kept_performThen. Qed.

Lemma kept_complete q c : kept (complete q c).
Proof. destruct c; cbn; eauto with keeps. Qed.

Lemma kept_newLocal v : kept (newLocal v).
Proof. by intros s. Qed.

Lemma kept_setLocal x v : kept (setLocal x v).
Proof. by intros s. Qed.

Lemma kept_getLocal x : kept (getLocal x).
Proof. by intros s. Qed.

Lemma kept_dispatch kind k m request options :
  kept (dispatch kind k m request options).
Proof. unfold dispatch. keeps_auto. Qed.

Lemma kept_warnBlocked method r :
  kept (warnBlocked formatBlockErrorMessage method r).
Proof. intros s. by rewrite warnBlocked_eq. Qed.

Lemma kept_logUnlessSilent e : kept (logUnlessSilent e).
Proof. intros s. by rewrite logUnlessSilent_eq. Qed.

Hint Resolve kept_then kept_catch kept_await kept_complete kept_newLocal
  kept_setLocal kept_getLocal kept_dispatch kept_warnBlocked
  kept_logUnlessSilent : keeps.

Lemma kept_runRejected g e : kept (runRejected g e).
Proof. destruct g; cbn; unfold Promise_resolve; keeps_auto. Qed.

Lemma kept_buildRequest c : kept (buildRequest c).
Proof. unfold buildRequest. keeps_auto. Qed.

Hint Resolve kept_runRejected kept_buildRequest : keeps.

Lemma kept_sendMessage_resumed request o ret :
  kept (sendMessage_resumed formatNewContent request o ret).
Proof.
  unfold sendMessage_resumed, sendMessage_chain. keeps_auto.
Qed.

Lemma kept_sendMessageStream_resumed request o ret :
  kept (sendMessageStream_resumed formatNewContent request o ret).
Proof.
  unfold sendMessageStream_resumed, sendMessageStream_chain,
    generateContentStream.
  keeps_auto.
Qed.

Hint Resolve kept_sendMessage_resumed kept_sendMessageStream_resumed : keeps.

Lemma kept_resume k o :
  kept (resume formatNewContent k o).
Proof. destruct k, o; cbn; keeps_auto. Qed.

Lemma kept_getHistory : kept getHistory.
Proof. unfold getHistory. keeps_auto. Qed.

Lemma kept_sendMessage request o : kept (sendMessage request o).
Proof. unfold sendMessage. keeps_auto. Qed.

Lemma kept_sendMessageStream request o : kept (sendMessageStream request o).
Proof. unfold sendMessageStream. keeps_auto. Qed.

(** Under the contract of [isValidResponse], both readings of the first
    candidate succeed on a valid response. *)
Lemma firstContentOptional_valid r :
  validHasCandidate isValidResponse → isValidResponse r = true →
  firstContentOptional r = inr (firstCandidateContent r).
Proof.
  intros Hcontract Hr. destruct (Hcontract r Hr) as (c & rest & Hc).
  unfold firstContentOptional, firstCandidateContent. by rewrite Hc.
Qed.

Lemma firstContent_valid r :
  validHasCandidate isValidResponse → isValidResponse r = true →
  firstContent r = inr (firstCandidateContent r).
Proof.
  intros Hcontract Hr. destruct (Hcontract r Hr) as (c & rest & Hc).
  unfold firstContent, firstCandidateContent. by rewrite Hc.
Qed.

(** The two admission steps, in any state. *)
Lemma admitUnary_history finalResult newContent res s :
  validHasCandidate isValidResponse →
  (admitUnary formatBlockErrorMessage isValidResponse finalResult newContent
              (VResult res) s).1 = Return VUndefined
  ∧ _history (exec (admitUnary formatBlockErrorMessage isValidResponse
                               finalResult newContent (VResult res)) s)
    = _history s
      ++ (if isValidResponse (response res)
          then [newContent;
                unaryResponseContent (firstCandidateContent (response res))]
          else []).
Proof.
  intros Hcontract.
  destruct (isValidResponse (response res)) eqn:Hr.
  - rewrite (admitUnary_valid _ _ _ _ _ _ Hr
               (firstContentOptional_valid _ Hcontract Hr)).
    split; [done|].
    unfold exec, push, setLocal, modify, mbind, M_bind. cbn.
    by rewrite <- app_assoc.
  - rewrite (admitUnary_blocked _ _ _ _ _ Hr).
    unfold exec, mbind, M_bind. rewrite warnBlocked_eq. cbn.
    by rewrite app_nil_r.
Qed.

Lemma admitStream_history newContent r s :
  validHasCandidate isValidResponse →
  (admitStream formatBlockErrorMessage isValidResponse newContent
               (VResponse r) s).1 = Return VUndefined
  ∧ _history (exec (admitStream formatBlockErrorMessage isValidResponse
                                newContent (VResponse r)) s)
    = _history s
      ++ (if isValidResponse r
          then [newContent; streamResponseContent (firstCandidateContent r)]
          else []).
Proof.
  intros Hcontract.
  destruct (isValidResponse r) eqn:Hr.
  - rewrite (admitStream_valid _ _ _ _ _ Hr
               (firstContent_valid _ Hcontract Hr)).
    split; [done|].
    unfold exec, push, setLocal, modify, mbind, M_bind. cbn.
    by rewrite <- app_assoc.
  - rewrite (admitStream_blocked _ _ _ _ Hr).
    unfold exec, mbind, M_bind. rewrite warnBlocked_eq. cbn.
    by rewrite app_nil_r.
Qed.

End History.

Lemma exchanges_app l1 l2 : exchanges (l1 ++ l2) = exchanges l1 ++ exchanges l2.
Proof. unfold exchanges. by rewrite flat_map_app. Qed.

Lemma base_parts :
  ({[ "parts" := JArr []; "role" := JStr "model" ]} : gmap string jsval)
    !! "parts" = Some (JArr []).
Proof. by rewrite lookup_insert_eq. Qed.

Lemma base_role :
  ({[ "parts" := JArr []; "role" := JStr "model" ]} : gmap string jsval)
    !! "role" = Some (JStr "model").
Proof. by rewrite lookup_insert_ne, lookup_singleton_eq. Qed.

Lemma streamResponseContent_lookup c f :
  f ≠ "role" →
  streamResponseContent c !! f = default ∅ c !! f.
Proof.
  intros Hf. unfold streamResponseContent.
  destruct (truthy _).
  - by rewrite spread_lookup, lookup_empty; destruct (default ∅ c !! f).
  - rewrite lookup_insert_ne by done.
    by rewrite spread_lookup, lookup_empty; destruct (default ∅ c !! f).
Qed.

Lemma streamResponseContent_role c :
  truthy (prop (default ∅ c) "role") = false →
  streamResponseContent c !! "role" = Some (JStr "model").
Proof.
  intros Hrole. unfold streamResponseContent.
  assert (prop (spread ∅ (default ∅ c)) "role" = prop (default ∅ c) "role")
    as ->.
  { unfold prop. rewrite spread_lookup, lookup_empty.
    by destruct (default ∅ c !! "role"). }
  rewrite Hrole. by rewrite lookup_insert_eq.
Qed.

Section Admission.

Variable formatNewContent : Request → jserr + gmap string jsval.
Variable formatBlockErrorMessage : GenerateContentResponse → option string.
Variable isValidResponse : GenerateContentResponse → bool.

Local Abbreviation run' :=
  (run formatNewContent formatBlockErrorMessage isValidResponse).
Local Abbreviation step' :=
  (step formatNewContent formatBlockErrorMessage isValidResponse).
Local Abbreviation drain' :=
  (drain formatNewContent formatBlockErrorMessage isValidResponse).
Local Abbreviation runJob' :=
  (runJob formatNewContent formatBlockErrorMessage isValidResponse).
Local Abbreviation admitUnary' :=
  (admitUnary formatBlockErrorMessage isValidResponse).
Local Abbreviation admitStream' :=
  (admitStream formatBlockErrorMessage isValidResponse).

Hypothesis contract : validHasCandidate isValidResponse.

Lemma runFulfilled_history f g q v s :
  _history (runFulfilled formatBlockErrorMessage isValidResponse f v s).2
  = _history s
    ++ admitted isValidResponse (ReactionJob (Then (Some f) g q) (Ok v)).
Proof using contract.
  destruct f as [request options | finalResult newContent | sp |
                 | newContent].
  - replace (admitted _ _) with (@nil (gmap string jsval))
      by (by destruct v).
    rewrite app_nil_r. revert s.
    change (keeps _history
      (k ← get _apiKey; m ← get model;
       p ← generateContent k m request options; mret (Return (VPromise p)))).
    unfold generateContent. keeps_auto. apply kept_dispatch.
  - destruct v; try (cbn; by rewrite app_nil_r).
    apply admitUnary_history, contract.
  - replace (admitted _ _) with (@nil (gmap string jsval))
      by (by destruct v).
    by rewrite app_nil_r.
  - replace (admitted _ _) with (@nil (gmap string jsval))
      by (by destruct v).
    rewrite app_nil_r. by destruct v.
  - destruct v; try (cbn; by rewrite app_nil_r).
    apply admitStream_history, contract.
Qed.

Lemma runJob_history j s :
  _history (exec (runJob' j) s) = _history s ++ admitted isValidResponse j.
Proof using contract.
  destruct j as [[f g q | k | q] [v | e] | q x]; cbn [runJob].
  - destruct f as [f|].
    + rewrite exec_bind. unfold exec. rewrite kept_complete.
      apply runFulfilled_history.
    + cbn. rewrite app_nil_r. apply kept_resolvePromise.
  - replace (admitted _ _) with (@nil (gmap string jsval))
      by (by destruct f as [[]|]).
    rewrite app_nil_r. destruct g as [g|].
    + rewrite exec_bind. unfold exec. rewrite kept_complete.
      apply kept_runRejected.
    + apply kept_settle.
  - cbn. rewrite app_nil_r. apply kept_resume.
  - cbn. rewrite app_nil_r. apply kept_resume.
  - cbn. rewrite app_nil_r. apply kept_resolvePromise.
  - cbn. rewrite app_nil_r. apply kept_settle.
  - cbn. rewrite app_nil_r. apply kept_performThen.
Qed.

Lemma admitted_shape j :
  admitted isValidResponse j = []
  ∨ ∃ u m, admitted isValidResponse j = [u; m].
Proof.
  destruct j as [[[[| |  | |]|] g q | k | q] [[]| e] | q x]; cbn; eauto;
    destruct (isValidResponse _); eauto.
Qed.

Lemma microtask_history s :
  ∃ l, _history (microtask formatNewContent formatBlockErrorMessage
                           isValidResponse s)
       = _history s ++ exchanges l.
Proof using contract.
  unfold microtask. destruct (queue s) as [|j rest].
  - exists []. by rewrite app_nil_r.
  - rewrite runJob_history. cbn.
    destruct (admitted_shape j) as [-> | (u & m & ->)].
    + by exists [].
    + by exists [(u, m)].
Qed.

Lemma drain_history n s :
  ∃ l, _history (drain' n s) = _history s ++ exchanges l.
Proof using contract.
  revert s. induction n as [|n IH]; intros s; cbn.
  - exists []. by rewrite app_nil_r.
  - destruct (queue s) eqn:Hq.
    + exists []. by rewrite app_nil_r.
    + destruct (IH (microtask formatNewContent formatBlockErrorMessage
                              isValidResponse s)) as [l2 ->].
      destruct (microtask_history s) as [l1 ->].
      exists (l1 ++ l2). by rewrite exchanges_app, app_assoc.
Qed.

Lemma step_history ev s :
  ∃ l, _history (step' ev s) = _history s ++ exchanges l.
Proof using contract.
  destruct ev; cbn [step]; try apply drain_history;
    exists []; rewrite app_nil_r; unfold exec.
  - apply kept_getHistory.
  - apply kept_sendMessage.
  - apply kept_sendMessageStream.
  - destruct (isCall _ _ _); [apply kept_settle | done].
  - destruct (_ || _); [apply kept_settle | done].
  - destruct (_ && _); [|done].
    revert s.
    change (keeps _history
      (r ← newPromise (Pending []);
       modify (λ s, with_responses (responses s ++ [r]) s);;
       settle p (Ok (VStreamResult r)))).
    keeps_auto; apply kept_newPromise || apply kept_settle.
  - case_bool_decide; [apply kept_settle | done].
  - case_bool_decide; [apply kept_settle | done].
Qed.

End Admission.

Section ModelTurn.

Variable formatNewContent : Request → jserr + gmap string jsval.
Variable formatBlockErrorMessage : GenerateContentResponse → option string.
Variable isValidResponse : GenerateContentResponse → bool.

Local Abbreviation run' :=
  (run formatNewContent formatBlockErrorMessage isValidResponse).
Local Abbreviation admitUnary' :=
  (admitUnary formatBlockErrorMessage isValidResponse).
Local Abbreviation admitStream' :=
  (admitStream formatBlockErrorMessage isValidResponse).

(** C7: for a valid response whose first candidate's content has no
    [role] property (or no content at all), the model turn stored by
    either path has [role] equal to ["model"], and it is stored right
    after the user turn: by the admission step in any state, and at the
    end of a whole send on a session at rest. *)
Theorem C7_role_defaults_to_model k m p ro H ra oa ca r finalResult s :
  validHasCandidate isValidResponse →
  isValidResponse r = true →
  default ∅ (firstCandidateContent r) !! "role" = None →
  formatNewContent ra = inr ca →
  let unaryTurn := unaryResponseContent (firstCandidateContent r) in
  let streamTurn := streamResponseContent (firstCandidateContent r) in
  unaryTurn !! "role" = Some (JStr "model")
  ∧ streamTurn !! "role" = Some (JStr "model")
  ∧ _history (exec (admitUnary' finalResult ca (VResult {| response := r |})) s)
    = _history s ++ [ca; unaryTurn]
  ∧ _history (exec (admitStream' ca (VResponse r)) s)
    = _history s ++ [ca; streamTurn]
  ∧ _history (run' [CallSendMessage ra oa; Jobs 12;
                    UnaryReturns 5 {| response := r |}; Jobs 12]
                   (session k m p ro H))
    = H ++ [ca; unaryTurn]
  ∧ _history (run' [CallSendMessageStream ra oa; Jobs 12;
                    StreamOpens 2; Jobs 12;
                    StreamCompletes 8 r; Jobs 12]
                   (session k m p ro H))
    = H ++ [ca; streamTurn].
Proof.
  intros contract Hr Hrole Ha unaryTurn streamTurn.
  subst unaryTurn streamTurn.
  pose proof (firstContentOptional_valid _ r contract Hr) as Hc1.
  pose proof (firstContent_valid _ r contract Hr) as Hc2.
  split; [|split; [|split; [|split; [|split]]]].
  - unfold unaryResponseContent. rewrite spread_lookup, Hrole.
    apply base_role.
  - apply streamResponseContent_role. unfold prop. by rewrite Hrole.
  - destruct (admitUnary_history formatBlockErrorMessage isValidResponse
                finalResult ca {| response := r |} s contract) as [_ ->].
    cbn [response]. by rewrite Hr.
  - destruct (admitStream_history formatBlockErrorMessage isValidResponse
                ca r s contract) as [_ ->].
    by rewrite Hr.
  - js_run. js_history.
  - js_run. js_history.
Qed.

(** C10: on the unary path the stored model turn is the object
    [{ parts: [], role: "model" }] overridden property by property by the
    first candidate's content: every property of the content is kept --
    also a [role] that is present with value [undefined] -- and [parts],
    [role] get their defaults only when the content lacks them.  The
    streaming path copies the content without a default for [parts], and
    replaces a [role] that is [undefined] by ["model"]. *)
Theorem C10_unary_response_content finalResult newContent res s :
  validHasCandidate isValidResponse →
  isValidResponse (response res) = true →
  let c := default ∅ (firstCandidateContent (response res)) in
  let turn := unaryResponseContent (firstCandidateContent (response res)) in
  let streamTurn :=
    streamResponseContent (firstCandidateContent (response res)) in
  _history (exec (admitUnary' finalResult newContent (VResult res)) s)
  = _history s ++ [newContent; turn]
  ∧ turn = c ∪ {[ "parts" := JArr []; "role" := JStr "model" ]}
  ∧ (∀ f v, c !! f = Some v → turn !! f = Some v)
  ∧ (c !! "parts" = None → turn !! "parts" = Some (JArr []))
  ∧ (c !! "role" = None → turn !! "role" = Some (JStr "model"))
  ∧ (c !! "role" = Some JUndefined → turn !! "role" = Some JUndefined)
  ∧ (∀ f, f ≠ "parts" → f ≠ "role" → turn !! f = c !! f)
  ∧ (c !! "parts" = None → streamTurn !! "parts" = None)
  ∧ (c !! "role" = Some JUndefined →
     streamTurn !! "role" = Some (JStr "model")).
Proof.
  intros contract Hr c turn streamTurn. subst c turn streamTurn.
  split; [|split; [|split; [|split; [|split; [|split; [|split; [|split]]]]]]].
  - destruct (admitUnary_history formatBlockErrorMessage isValidResponse
                finalResult newContent res s contract) as [_ ->].
    by rewrite Hr.
  - done.
  - intros f v Hf. unfold unaryResponseContent.
    by rewrite spread_lookup, Hf.
  - intros Hf. unfold unaryResponseContent.
    rewrite spread_lookup, Hf. apply base_parts.
  - intros Hf. unfold unaryResponseContent.
    rewrite spread_lookup, Hf. apply base_role.
  - intros Hf. unfold unaryResponseContent.
    by rewrite spread_lookup, Hf.
  - intros f Hp Hrole. unfold unaryResponseContent.
    rewrite spread_lookup. destruct (_ !! f) eqn:Hf; [done|].
    rewrite lookup_insert_ne by done. by rewrite lookup_singleton_ne.
  - intros Hf. by rewrite streamResponseContent_lookup.
  - intros Hf. apply streamResponseContent_role. unfold prop.
    by rewrite Hf.
Qed.

End ModelTurn.

(** * Further properties of the three methods *)

(** ** One more equation for the evaluation of runs *)

Lemma sendMessageStream_resumed_throw
    (formatNewContent : Request → jserr + gmap string jsval) request o ret e :
  formatNewContent request = inl e →
  sendMessageStream_resumed formatNewContent request o ret
  = settle ret (Err e).
Proof. intros E. unfold sendMessageStream_resumed. by rewrite E. Qed.

Ltac js_equation ::=
  first
    [ erewrite sendMessage_resumed_ok by eassumption
    | erewrite sendMessage_resumed_throw by eassumption
    | erewrite sendMessageStream_resumed_ok by eassumption
    | erewrite sendMessageStream_resumed_throw by eassumption
    | erewrite admitUnary_valid by eassumption
    | erewrite admitUnary_throw by eassumption
    | erewrite admitUnary_blocked by eassumption
    | erewrite admitStream_valid by eassumption
    | erewrite admitStream_throw by eassumption
    | erewrite admitStream_blocked by eassumption
    | rewrite warnBlocked_eq
    | rewrite logUnlessSilent_eq ].

(** ** The stored model turn, as a function of the candidate content *)

Lemma spread_empty_l (o : gmap string jsval) : spread ∅ o = o.
Proof.
  apply map_eq. intros f. rewrite spread_lookup, lookup_empty.
  by destruct (o !! f).
Qed.

Lemma spread_absorbed (a o : gmap string jsval) :
  (∀ f, is_Some (a !! f) → is_Some (o !! f)) → spread a o = o.
Proof.
  intros Ha. apply map_eq. intros f. rewrite spread_lookup.
  destruct (o !! f) eqn:Ho; [done|].
  destruct (a !! f) eqn:Haf; [|done].
  destruct (Ha f) as [v Hv]; [by eexists|]. congruence.
Qed.

Lemma base_fields f :
  is_Some (({[ "parts" := JArr []; "role" := JStr "model" ]}
             : gmap string jsval) !! f) →
  f = "parts" ∨ f = "role".
Proof.
  intros [v Hv]. apply lookup_insert_Some in Hv as [[<- _] | [_ Hv]]; [by left|].
  apply lookup_singleton_Some in Hv as [<- _]. by right.
Qed.

Lemma streamResponseContent_truthy c :
  truthy (prop (default ∅ c) "role") = true →
  streamResponseContent c = default ∅ c.
Proof.
  intros Hrole. unfold streamResponseContent.
  rewrite spread_empty_l. by rewrite Hrole.
Qed.

(** X4: the model turn as a function of the candidate's content.  The
    turn stored by the unary path always has the properties [parts] and
    [role]; the turn stored by the streaming path always has a truthy
    [role], and is the content itself when the content's [role] is truthy.
    A [role] that is present but falsy ([undefined], [null], the empty
    string, [false]) is kept by the unary path and replaced by ["model"] by
    the streaming path.  A content that has [parts] and a truthy [role] is
    stored unchanged by both.  Both normalisations are idempotent. *)
Theorem X4_model_turn_normal_form (c : option (gmap string jsval)) :
  let o := default ∅ c in
  let unaryTurn := unaryResponseContent c in
  let streamTurn := streamResponseContent c in
  is_Some (unaryTurn !! "parts")
  ∧ is_Some (unaryTurn !! "role")
  ∧ (∃ v, streamTurn !! "role" = Some v ∧ truthy v = true)
  ∧ (∀ v, o !! "role" = Some v → truthy v = true → streamTurn = o)
  ∧ (∀ v, o !! "role" = Some v → truthy v = false →
       unaryTurn !! "role" = Some v
       ∧ streamTurn !! "role" = Some (JStr "model"))
  ∧ (∀ v w, o !! "role" = Some v → truthy v = true → o !! "parts" = Some w →
       unaryTurn = o ∧ streamTurn = o)
  ∧ unaryResponseContent (Some unaryTurn) = unaryTurn
  ∧ streamResponseContent (Some streamTurn) = streamTurn.
Proof.
  intros o unaryTurn streamTurn. subst o unaryTurn streamTurn.
  assert (∃ v, streamResponseContent c !! "role" = Some v ∧ truthy v = true)
    as Hstream.
  { destruct (truthy (prop (default ∅ c) "role")) eqn:Hrole.
    - rewrite (streamResponseContent_truthy c Hrole).
      unfold prop in Hrole.
      destruct (default ∅ c !! "role") as [v|]; [|done]. by exists v.
    - exists (JStr "model"). split; [|done].
      by apply streamResponseContent_role. }
  split; [|split; [|split; [|split; [|split; [|split; [|split]]]]]].
  - unfold unaryResponseContent. rewrite spread_lookup.
    destruct (default ∅ c !! "parts"); [by eexists|].
    rewrite base_parts. by eexists.
  - unfold unaryResponseContent. rewrite spread_lookup.
    destruct (default ∅ c !! "role"); [by eexists|].
    rewrite base_role. by eexists.
  - exact Hstream.
  - intros v Hv Ht. apply streamResponseContent_truthy. unfold prop.
    by rewrite Hv.
  - intros v Hv Hf. split.
    + unfold unaryResponseContent. by rewrite spread_lookup, Hv.
    + apply streamResponseContent_role. unfold prop. by rewrite Hv.
  - intros v w Hv Ht Hw. split.
    + unfold unaryResponseContent. apply spread_absorbed.
      intros f Hf. destruct (base_fields f Hf) as [-> | ->]; by eexists.
    + apply streamResponseContent_truthy. unfold prop. by rewrite Hv.
  - apply (spread_absorbed _ (unaryResponseContent c)).
    intros f Hf. unfold unaryResponseContent. rewrite spread_lookup.
    destruct (default ∅ c !! f); [by eexists|done].
  - destruct Hstream as (v & Hv & Ht).
    apply (streamResponseContent_truthy (Some (streamResponseContent c))).
    change (truthy (prop (streamResponseContent c) "role") = true).
    unfold prop. by rewrite Hv.
Qed.

(** ** getHistory in any state *)

Section GetHistory.

Variable formatNewContent : Request → jserr + gmap string jsval.
Variable formatBlockErrorMessage : GenerateContentResponse → option string.
Variable isValidResponse : GenerateContentResponse → bool.

Local Abbreviation run' :=
  (run formatNewContent formatBlockErrorMessage isValidResponse).
Local Abbreviation drain' :=
  (drain formatNewContent formatBlockErrorMessage isValidResponse).
Local Abbreviation resume' := (resume formatNewContent).

Lemma called_eq (k : pid → awaiter) s :
  ((ret ← newPromise (Pending []);
    tail ← get _sendPromise;
    await tail (k ret);; mret ret) s)
  = (length (heap s),
     (performThen (_sendPromise s) (Await (k (length (heap s))))
        (with_heap (heap s ++ [Pending []]) s)).2).
Proof.
  unfold mbind, M_bind, newPromise, get, mret, M_ret, await. cbn [fst snd].
  change (_sendPromise (with_heap (heap s ++ [Pending []]) s))
    with (_sendPromise s).
  by destruct (performThen _ _ _) as [[] ?].
Qed.

Lemma called_fields (k : pid → awaiter) s :
  sameSession s
    ((ret ← newPromise (Pending []);
      tail ← get _sendPromise;
      await tail (k ret);; mret ret) s).2.
Proof.
  rewrite called_eq. cbn [snd]. rewrite performThen_eq.
  by destruct (heap _ !! _) as [[]|].
Qed.

Lemma settle_fields p o s : sameSession s (settle p o s).2.
Proof. rewrite settle_eq. by destruct (heap s !! p) as [[]|]. Qed.

Lemma settle_pending p o rs s :
  heap s !! p = Some (Pending rs) →
  heap (settle p o s).2 !! p = Some (settledState o).
Proof.
  intros Hp. rewrite settle_eq, Hp. cbn.
  apply list_lookup_insert_eq. by apply lookup_lt_Some in Hp.
Qed.

(** X6: [getHistory] in any state.  The call itself returns a new pending
    promise and touches nothing of the session (like the calls of the two
    send methods: no history change, no remote call, no diagnostic, no move
    of [_sendPromise] before the next job).  When [_sendPromise] is
    fulfilled and no job is waiting, one job later the promise holds the
    history and the session is otherwise as before; when [_sendPromise] is
    pending, the method stays suspended on it.  Once resumed it fulfils its
    promise with the history, or rejects it with the error of the awaited
    promise, again without touching the session. *)
Theorem X6_getHistory_only_observes s :
  let ret := length (heap s) in
  let tail := _sendPromise s in
  (∀ request o,
     (getHistory s).1 = ret
     ∧ sameSession s (getHistory s).2
     ∧ sameSession s (sendMessage request o s).2
     ∧ sameSession s (sendMessageStream request o s).2)
  ∧ (∀ v n, heap s !! tail = Some (Fulfilled v) → queue s = [] →
       run' [CallGetHistory; Jobs (S n)] s
       = with_heap (heap s ++ [Fulfilled VHistory]) s)
  ∧ (∀ rs n, heap s !! tail = Some (Pending rs) → queue s = [] →
       run' [CallGetHistory; Jobs n] s
       = with_heap (<[tail := Pending (rs ++ [Await (InGetHistory ret)])]>
                      (heap s ++ [Pending []])) s)
  ∧ (∀ p rs o,
       heap s !! p = Some (Pending rs) →
       let s' := exec (resume' (InGetHistory p) o) s in
       sameSession s s'
       ∧ heap s' !! p
         = Some (match o with
                 | Ok _ => Fulfilled VHistory
                 | Err e => Rejected e
                 end)).
Proof.
  intros ret tail. subst ret tail. split; [|split; [|split]].
  - intros request o. split; [|split; [|split]].
    + unfold getHistory. by rewrite called_eq.
    + apply (called_fields InGetHistory).
    + apply (called_fields (InSendMessage request (default ∅ o))).
    + apply (called_fields (InSendMessageStream request (default ∅ o))).
  - intros v n Ht Hq. unfold run. cbn [foldl step]. unfold exec, getHistory.
    rewrite called_eq. cbn [snd]. rewrite performThen_eq.
    cbn [heap with_heap]. rewrite (lookup_app_l_Some _ _ _ _ Ht).
    set (s1 := with_queue _ _).
    assert (queue s1
            = [ReactionJob (Await (InGetHistory (length (heap s)))) (Ok v)])
      as Hq1 by (subst s1; cbn; by rewrite Hq).
    cbn [drain]. rewrite Hq1. unfold microtask. rewrite Hq1.
    cbn [runJob resume]. unfold exec, resolvePromise. rewrite settle_eq.
    assert (heap (with_queue [] s1) !! length (heap s) = Some (Pending []))
      as -> by (subst s1; cbn; by apply list_lookup_middle).
    rewrite drain_done by (subst s1; cbn; done).
    subst s1. destruct s as [k m p ro h t hp l q c cs rs]. cbn in *. subst q.
    f_equal. rewrite <- (Nat.add_0_r (length hp)).
    by rewrite (insert_app_r hp [Pending []] 0).
  - intros rs n Ht Hq. unfold run. cbn [foldl step]. unfold exec, getHistory.
    rewrite called_eq. cbn [snd]. rewrite performThen_eq.
    cbn [heap with_heap]. rewrite (lookup_app_l_Some _ _ _ _ Ht).
    rewrite drain_done by (cbn; done).
    destruct s as [k m p ro h t hp l q c cs rs']. by cbn in *.
  - intros p rs o Hp. destruct o as [v | e]; cbn [resume].
    + split; [apply settle_fields|].
      apply (settle_pending p (Ok VHistory) rs s Hp).
    + split; [apply settle_fields|].
      apply (settle_pending p (Err e) rs s Hp).
Qed.

End GetHistory.

(** ** What the runtime leaves alone *)

(** Observations of the state that do not depend on the promise heap, the
    job queue, the local variables, the record of remote calls,
    [_sendPromise] or the history are kept by everything except the two
    places that write to the console. *)
Section Frame.

Context {B : Type} (f : state → B).

Hypothesis f_heap : ∀ h s, f (with_heap h s) = f s.
Hypothesis f_queue : ∀ q s, f (with_queue q s) = f s.
Hypothesis f_locals : ∀ l s, f (with_locals l s) = f s.
Hypothesis f_calls : ∀ c s, f (with_calls c s) = f s.
Hypothesis f_responses : ∀ r s, f (with_responses r s) = f s.
Hypothesis f_sendPromise : ∀ p s, f (with_sendPromise p s) = f s.
Hypothesis f_history : ∀ h s, f (with_history h s) = f s.

Variable formatNewContent : Request → jserr + gmap string jsval.

Local Abbreviation framed := (keeps f).

Ltac frame_step :=
  lazymatch goal with
  | |- keeps _ (mbind _ _) => apply keeps_bind; [|intros ?]
  | |- keeps _ (modify _) =>
      apply keeps_modify; intros ?;
      by rewrite ?f_heap, ?f_queue, ?f_locals, ?f_calls, ?f_responses,
           ?f_sendPromise, ?f_history
  | |- keeps _ (match ?x with _ => _ end) => destruct x
  | |- ∀ _, _ => intros ?
  | |- keeps _ _ => solve [eauto with keeps]
  end.

Ltac frame_auto := repeat frame_step.

Lemma framed_newPromise st : framed (newPromise st).
Proof. intros s. apply f_heap. Qed.

Lemma framed_enqueue j : framed (enqueue j).
Proof. unfold enqueue. frame_auto. Qed.

Hint Resolve framed_newPromise framed_enqueue : keeps.

Lemma framed_performThen p r : framed (performThen p r).
Proof. unfold performThen. frame_auto. Qed.

Lemma framed_settle p o : framed (settle p o).
Proof. unfold settle. frame_auto. Qed.

Hint Resolve framed_performThen framed_settle : keeps.

Lemma framed_resolvePromise p v : framed (resolvePromise p v).
Proof.
  unfold resolvePromise. destruct v; try apply framed_settle.
  case_decide; [apply framed_settle | apply framed_enqueue].
Qed.

Hint Resolve framed_resolvePromise : keeps.

Lemma framed_then p g : framed (then_ p g).
Proof. unfold then_. frame_auto. Qed.

Lemma framed_catch p g : framed (catch_ p g).
Proof. unfold catch_. frame_auto. Qed.

Lemma framed_await p k : framed (await p k).
Proof. apply framed_performThen. Qed.

Lemma framed_complete q c : framed (complete q c).
Proof. destruct c; cbn; eauto with keeps. Qed.

Lemma framed_newLocal v : framed (newLocal v).
Proof. intros s. apply f_locals. Qed.

Lemma framed_setLocal x v : framed (setLocal x v).
Proof. unfold setLocal. frame_auto. Qed.

Lemma framed_getLocal x : framed (getLocal x).
Proof. by intros s. Qed.

Lemma framed_push c : framed (push c).
Proof. unfold push. frame_auto. Qed.

Lemma framed_dispatch kind k m request options :
  framed (dispatch kind k m request options).
Proof. unfold dispatch. frame_auto. Qed.

Lemma framed_buildRequest c : framed (buildRequest c).
Proof. unfold buildRequest. frame_auto. Qed.

Hint Resolve framed_then framed_catch framed_await framed_complete
  framed_newLocal framed_setLocal framed_getLocal framed_push framed_dispatch
  framed_buildRequest : keeps.

Lemma framed_sendMessage_resumed request o ret :
  framed (sendMessage_resumed formatNewContent request o ret).
Proof. unfold sendMessage_resumed, sendMessage_chain. frame_auto. Qed.

Lemma framed_sendMessageStream_resumed request o ret :
  framed (sendMessageStream_resumed formatNewContent request o ret).
Proof.
  unfold sendMessageStream_resumed, sendMessageStream_chain,
    generateContentStream.
  frame_auto.
Qed.

Hint Resolve framed_sendMessage_resumed framed_sendMessageStream_resumed
  : keeps.

Lemma framed_resume k o : framed (resume formatNewContent k o).
Proof. destruct k, o; cbn; frame_auto. Qed.

Lemma framed_getHistory : framed getHistory.
Proof. unfold getHistory. frame_auto. Qed.

Lemma framed_sendMessage request o : framed (sendMessage request o).
Proof. unfold sendMessage. frame_auto. Qed.

Lemma framed_sendMessageStream request o :
  framed (sendMessageStream request o).
Proof. unfold sendMessageStream. frame_auto. Qed.

(** The closures that write neither to the history nor to the console. *)
Lemma framed_reset e :
  framed (p ← Promise_resolve; modify (with_sendPromise p);; mret (Throw e)).
Proof. unfold Promise_resolve. frame_auto. Qed.

Lemma framed_generateContent request options :
  framed (k ← get _apiKey; m ← get model;
          p ← generateContent k m request options;
          mret (Return (VPromise p))).
Proof. unfold generateContent. frame_auto. Qed.

Variable formatBlockErrorMessage : GenerateContentResponse → option string.
Variable isValidResponse : GenerateContentResponse → bool.

(** The events of the outside world, and the calls of the three methods. *)
Lemma framed_event ev s :
  (∀ n, ev ≠ Jobs n) →
  f (step formatNewContent formatBlockErrorMessage isValidResponse ev s)
  = f s.
Proof.
  intros Hev.
  destruct ev as [| request o | request o | n | p r | p e | p | q r | q e];
    cbn [step]; unfold exec.
  - apply framed_getHistory.
  - apply framed_sendMessage.
  - apply framed_sendMessageStream.
  - by destruct (Hev n).
  - destruct (isCall _ _ _); [apply framed_settle | done].
  - destruct (_ || _); [apply framed_settle | done].
  - destruct (_ && _); [|done]. revert s.
    change (framed
      (r ← newPromise (Pending []);
       modify (λ s, with_responses (responses s ++ [r]) s);;
       settle p (Ok (VStreamResult r)))).
    frame_auto.
  - case_bool_decide; [apply framed_settle | done].
  - case_bool_decide; [apply framed_settle | done].
Qed.

(** With the console out of sight as well, nothing changes the
    observation. *)
Hypothesis f_console : ∀ c s, f (with_console c s) = f s.

Lemma framed_warnBlocked method r :
  framed (warnBlocked formatBlockErrorMessage method r).
Proof. intros s. rewrite warnBlocked_eq. apply f_console. Qed.

Lemma framed_logUnlessSilent e : framed (logUnlessSilent e).
Proof. intros s. rewrite logUnlessSilent_eq. apply f_console. Qed.

Hint Resolve framed_warnBlocked framed_logUnlessSilent : keeps.

Lemma framed_runFulfilled g v :
  framed (runFulfilled formatBlockErrorMessage isValidResponse g v).
Proof.
  destruct g; cbn [runFulfilled].
  - apply framed_generateContent.
  - unfold admitUnary. frame_auto.
  - frame_auto.
  - frame_auto.
  - unfold admitStream. frame_auto.
Qed.

Lemma framed_runRejected g e : framed (runRejected g e).
Proof.
  destruct g; cbn [runRejected].
  - apply framed_reset.
  - frame_auto.
  - apply framed_logUnlessSilent.
Qed.

Hint Resolve framed_runFulfilled framed_runRejected framed_resume : keeps.

Lemma framed_runJob j :
  framed (runJob formatNewContent formatBlockErrorMessage isValidResponse j).
Proof. destruct j as [[g h q | k | q] [v | e] | q x]; cbn; frame_auto. Qed.

Lemma framed_drain n s :
  f (drain formatNewContent formatBlockErrorMessage isValidResponse n s)
  = f s.
Proof.
  revert s. induction n as [|n IH]; intros s; cbn; [done|].
  destruct (queue s) as [|j rest] eqn:Hq; [done|].
  rewrite IH. unfold microtask. rewrite Hq. unfold exec.
  rewrite framed_runJob. apply f_queue.
Qed.

Lemma framed_run evs s :
  f (run formatNewContent formatBlockErrorMessage isValidResponse evs s)
  = f s.
Proof.
  revert s. induction evs as [|ev evs IH]; intros s; [done|].
  change (run _ _ _ (ev :: evs) s)
    with (run formatNewContent formatBlockErrorMessage isValidResponse evs
            (step formatNewContent formatBlockErrorMessage isValidResponse
               ev s)).
  rewrite IH. destruct ev; try (by apply framed_event).
  apply framed_drain.
Qed.

End Frame.

(** ** What reaches the console *)

Section Diagnostics.

Variable formatNewContent : Request → jserr + gmap string jsval.
Variable formatBlockErrorMessage : GenerateContentResponse → option string.
Variable isValidResponse : GenerateContentResponse → bool.

Local Abbreviation run' :=
  (run formatNewContent formatBlockErrorMessage isValidResponse).
Local Abbreviation step' :=
  (step formatNewContent formatBlockErrorMessage isValidResponse).
Local Abbreviation drain' :=
  (drain formatNewContent formatBlockErrorMessage isValidResponse).
Local Abbreviation runJob' :=
  (runJob formatNewContent formatBlockErrorMessage isValidResponse).
Local Abbreviation diagnostics' :=
  (diagnostics formatBlockErrorMessage isValidResponse).
Local Abbreviation foreseen' :=
  (foreseen formatBlockErrorMessage isValidResponse).
Local Abbreviation quiet := (keeps console).

Lemma quiet_complete q c : quiet (complete q c).
Proof. by apply framed_complete. Qed.

Lemma quiet_push c : quiet (push c).
Proof. by apply framed_push. Qed.

Lemma quiet_setLocal x v : quiet (setLocal x v).
Proof. by apply framed_setLocal. Qed.

Lemma admitUnary_console finalResult newContent v g q s :
  console (admitUnary formatBlockErrorMessage isValidResponse finalResult
             newContent v s).2
  = console s
    ++ diagnostics'
         (ReactionJob (Then (Some (AdmitUnary finalResult newContent)) g q)
                      (Ok v)).
Proof.
  destruct v as [| res | | | |]; try (cbn; by rewrite app_nil_r).
  cbn [diagnostics]. unfold admitUnary.
  destruct (isValidResponse (response res)).
  - rewrite app_nil_r. revert s.
    change (quiet
      (push newContent;;
       match firstContentOptional (response res) with
       | inl e => mret (Throw e)
       | inr c => push (unaryResponseContent c);;
                  setLocal finalResult (VResult res);;
                  mret (Return VUndefined)
       end)).
    keeps_auto; apply quiet_push || apply quiet_setLocal.
  - unfold mbind, M_bind. by rewrite warnBlocked_eq.
Qed.

Lemma admitStream_console newContent v g q s :
  console (admitStream formatBlockErrorMessage isValidResponse newContent
             v s).2
  = console s
    ++ diagnostics'
         (ReactionJob (Then (Some (AdmitStream newContent)) g q) (Ok v)).
Proof.
  destruct v as [| | | r | |]; try (cbn; by rewrite app_nil_r).
  cbn [diagnostics]. unfold admitStream.
  destruct (isValidResponse r).
  - rewrite app_nil_r. revert s.
    change (quiet
      (push newContent;;
       match firstContent r with
       | inl e => mret (Throw e)
       | inr c => push (streamResponseContent c);; mret (Return VUndefined)
       end)).
    keeps_auto; apply quiet_push.
  - unfold mbind, M_bind. by rewrite warnBlocked_eq.
Qed.

Lemma runJob_console j s :
  console (exec (runJob' j) s) = console s ++ diagnostics' j.
Proof.
  destruct j as [[f g q | k | q] [v | e] | q x]; cbn [runJob].
  - destruct f as [f|].
    + rewrite exec_bind. unfold exec. rewrite quiet_complete.
      destruct f as [request options | finalResult newContent | sp |
                     | newContent]; cbn [runFulfilled].
      * cbn [diagnostics]. rewrite app_nil_r.
        by apply framed_generateContent.
      * apply admitUnary_console.
      * cbn. by rewrite app_nil_r.
      * cbn [diagnostics]. rewrite app_nil_r. by destruct v.
      * apply admitStream_console.
    + cbn. rewrite app_nil_r. by apply framed_resolvePromise.
  - destruct g as [g|].
    + rewrite exec_bind. unfold exec. rewrite quiet_complete.
      destruct g; cbn [runRejected diagnostics].
      * rewrite app_nil_r. by apply framed_reset.
      * by rewrite app_nil_r.
      * by rewrite logUnlessSilent_eq.
    + cbn [diagnostics]. rewrite app_nil_r. by apply framed_settle.
  - cbn. rewrite app_nil_r. by apply framed_resume.
  - cbn. rewrite app_nil_r. by apply framed_resume.
  - cbn. rewrite app_nil_r. by apply framed_resolvePromise.
  - cbn. rewrite app_nil_r. by apply framed_settle.
  - cbn. rewrite app_nil_r. by apply framed_performThen.
Qed.

Lemma blockWarnings_foreseen method r d :
  method = "sendMessage" ∨ method = "sendMessageStream" →
  isValidResponse r = false →
  d ∈ blockWarnings formatBlockErrorMessage method r → foreseen' d.
Proof.
  intros Hm Hr. unfold blockWarnings.
  destruct (formatBlockErrorMessage r) as [text|] eqn:Ht;
    [|by intros ?%elem_of_nil].
  destruct (String.eqb text "") eqn:He; [by intros ?%elem_of_nil|].
  intros ->%list_elem_of_singleton. exists method, r, text.
  repeat split; try done. by apply String.eqb_neq.
Qed.

Lemma errorLogs_foreseen e d : d ∈ errorLogs e → foreseen' d.
Proof.
  unfold errorLogs. destruct (String.eqb (message e) SILENT_ERROR) eqn:He;
    [by intros ?%elem_of_nil|].
  intros ->%list_elem_of_singleton. by apply String.eqb_neq.
Qed.

Lemma diagnostics_foreseen j d : d ∈ diagnostics' j → foreseen' d.
Proof.
  destruct j as [[f g q | k | q] [v | e] | q x]; cbn [diagnostics];
    try (by intros ?%elem_of_nil).
  - destruct f as [[| fr nc | | | nc]|]; try (by intros ?%elem_of_nil);
      destruct v as [| res | | r | |]; try (by intros ?%elem_of_nil).
    + destruct (isValidResponse (response res)) eqn:Hr;
        [by intros ?%elem_of_nil|].
      apply blockWarnings_foreseen; [by left|done].
    + destruct (isValidResponse r) eqn:Hr; [by intros ?%elem_of_nil|].
      apply blockWarnings_foreseen; [by right|done].
  - destruct g as [[]|]; try (by intros ?%elem_of_nil).
    apply errorLogs_foreseen.
Qed.

Lemma drain_console n s :
  ∃ l, console (drain' n s) = console s ++ l ∧ Forall foreseen' l.
Proof.
  revert s. induction n as [|n IH]; intros s; cbn.
  - exists []. by rewrite app_nil_r.
  - destruct (queue s) as [|j rest] eqn:Hq.
    + exists []. by rewrite app_nil_r.
    + destruct (IH (microtask formatNewContent formatBlockErrorMessage
                              isValidResponse s)) as (l & -> & Hl).
      unfold microtask. rewrite Hq, runJob_console. cbn [console with_queue].
      exists (diagnostics' j ++ l). split; [by rewrite app_assoc|].
      apply Forall_app. split; [|done].
      apply Forall_forall. intros d. apply diagnostics_foreseen.
Qed.

Lemma step_console ev s :
  ∃ l, console (step' ev s) = console s ++ l ∧ Forall foreseen' l.
Proof.
  destruct ev as [| request o | request o | n | p r | p e | p | q r | q e];
    try apply drain_console;
    (exists []; rewrite app_nil_r; split; [|done];
     by apply framed_event).
Qed.

Lemma run_console evs s :
  ∃ l, console (run' evs s) = console s ++ l ∧ Forall foreseen' l.
Proof.
  revert s. induction evs as [|ev evs IH]; intros s.
  - exists []. by rewrite app_nil_r.
  - change (run' (ev :: evs) s) with (run' evs (step' ev s)).
    destruct (IH (step' ev s)) as (l2 & -> & H2).
    destruct (step_console ev s) as (l1 & -> & H1).
    exists (l1 ++ l2). split; [by rewrite app_assoc|].
    by apply Forall_app.
Qed.

(** X7: the console.  In any state, a job appends to the console exactly
    its [diagnostics]: the warning of a blocked response on an admission
    step, the error handed to the last [.catch] of a streaming chain unless
    it carries the marker, and nothing in every other case.  Hence the
    console only grows, and whatever happens to a session, every warning
    it writes is the [unsuccessful] text of a response that was not valid
    and has a non-empty explanation, and no error it writes has the marker
    [SILENT_ERROR] as its message. *)
Theorem X7_console_only_grows :
  (∀ j s, console (exec (runJob' j) s) = console s ++ diagnostics' j)
  ∧ (∀ j, Forall foreseen' (diagnostics' j))
  ∧ (∀ evs s, ∃ l, console (run' evs s) = console s ++ l
                   ∧ Forall foreseen' l)
  ∧ (∀ evs k m p ro H,
       Forall foreseen' (console (run' evs (session k m p ro H))))
  ∧ (∀ evs k m p ro H e,
       Error e ∈ console (run' evs (session k m p ro H)) →
       message e ≠ SILENT_ERROR).
Proof.
  assert (∀ evs k m p ro H,
            Forall foreseen' (console (run' evs (session k m p ro H))))
    as Hall.
  { intros evs k m p ro H.
    by destruct (run_console evs (session k m p ro H)) as (l & -> & Hl). }
  split; [apply runJob_console|].
  split; [intros j; apply Forall_forall, diagnostics_foreseen|].
  split; [apply run_console|]. split; [exact Hall|].
  intros evs k m p ro H e He.
  pose proof (Hall evs k m p ro H) as Hf.
  rewrite Forall_forall in Hf. exact (Hf _ He).
Qed.

End Diagnostics.

(** ** Invariants over the waiting closures *)

Lemma yields_ret {A} (I : state → Prop) (a : A) (Φ : A → Prop) :
  Φ a → yields I (mret a) Φ.
Proof. by intros Ha s Hs. Qed.

Lemma yields_bind {A B} (I : state → Prop) (m : M A) (k : A → M B)
    (Φ : A → Prop) (Ψ : B → Prop) :
  yields I m Φ → (∀ a, Φ a → yields I (k a) Ψ) → yields I (m ≫= k) Ψ.
Proof.
  intros Hm Hk s Hs. unfold mbind, M_bind.
  destruct (Hm s Hs) as [Ha Hs']. destruct (m s) as [a s']. cbn in *.
  by apply Hk.
Qed.

Lemma yields_get {A} (I : state → Prop) (g : state → A) (Φ : A → Prop) :
  (∀ s, I s → Φ (g s)) → yields I (get g) Φ.
Proof. intros Hg s Hs. split; [by apply Hg | done]. Qed.

Lemma yields_modify (I : state → Prop) (g : state → state) :
  (∀ s, I s → I (g s)) → preserves I (modify g).
Proof. intros Hg s Hs. split; [done | by apply Hg]. Qed.

Lemma yields_weaken {A} (I : state → Prop) (m : M A) (Φ Ψ : A → Prop) :
  yields I m Φ → (∀ a, Φ a → Ψ a) → yields I m Ψ.
Proof. intros Hm HΦ s Hs. destruct (Hm s Hs). auto. Qed.

Lemma yields_seq {A B} (I : state → Prop) (m : M A) (k : A → M B)
    (Ψ : B → Prop) :
  preserves I m → (∀ a, yields I (k a) Ψ) → yields I (m ≫= k) Ψ.
Proof. intros Hm Hk. eapply yields_bind; [exact Hm | intros a _; apply Hk]. Qed.

Lemma preserves_bind {A B} (I : state → Prop) (m : M A) (k : A → M B) :
  preserves I m → (∀ a, preserves I (k a)) → preserves I (m ≫= k).
Proof. intros Hm Hk. eapply yields_bind; [exact Hm | intros a _; apply Hk]. Qed.

Lemma preserves_snd {A} (I : state → Prop) (m : M A) s :
  preserves I m → I s → I (m s).2.
Proof. intros Hm Hs. by destruct (Hm s Hs). Qed.

Lemma closures_weaken (P P' : reaction → Prop) (Q Q' : RemoteCall → Prop) s :
  (∀ r, P r → P' r) → (∀ c, Q c → Q' c) →
  closures P Q s → closures P' Q' s.
Proof. intros HP HQ [H1 H2]. split; eauto. Qed.

Lemma closures_same (P : reaction → Prop) (Q : RemoteCall → Prop) s s' :
  heap s' = heap s → queue s' = queue s → calls s' = calls s →
  closures P Q s → closures P Q s'.
Proof.
  intros Hh Hq Hc [HP HQ]. split.
  - intros r Hr. apply HP. unfold live in *. by rewrite Hh, Hq in Hr.
  - intros c. rewrite Hc. apply HQ.
Qed.

Lemma then_eq p f s :
  then_ p f s
  = (length (heap s),
     (performThen p (Then (Some f) None (length (heap s)))
        (with_heap (heap s ++ [Pending []]) s)).2).
Proof.
  unfold then_, mbind, M_bind, newPromise, mret, M_ret.
  by destruct (performThen _ _ _) as [[] ?].
Qed.

Lemma catch_eq p g s :
  catch_ p g s
  = (length (heap s),
     (performThen p (Then None (Some g) (length (heap s)))
        (with_heap (heap s ++ [Pending []]) s)).2).
Proof.
  unfold catch_, mbind, M_bind, newPromise, mret, M_ret.
  by destruct (performThen _ _ _) as [[] ?].
Qed.

(** The runtime maintains an invariant made of a condition [F] on the
    fields it does not touch, and of [closures P Q]: a reaction is
    registered only if it is in [P], a call recorded only if it is in
    [Q]. *)
Section Closures.

Variable P : reaction → Prop.
Variable Q : RemoteCall → Prop.
Variable F : state → Prop.

Hypothesis F_heap : ∀ h s, F s → F (with_heap h s).
Hypothesis F_queue : ∀ q s, F s → F (with_queue q s).
Hypothesis F_locals : ∀ l s, F s → F (with_locals l s).
Hypothesis F_calls : ∀ c s, F s → F (with_calls c s).
Hypothesis F_responses : ∀ r s, F s → F (with_responses r s).
Hypothesis F_sendPromise : ∀ p s, F s → F (with_sendPromise p s).

Local Abbreviation Inv := (λ s, F s ∧ closures P Q s).

Lemma inv_alloc st s :
  newborn st → Inv s → Inv (with_heap (heap s ++ [st]) s).
Proof.
  intros Hst [HF [HP HQ]]. split; [by apply F_heap|].
  split; [|done]. intros r Hr. eapply HP, live_alloc; eauto.
Qed.

Lemma inv_newPromise st : newborn st → preserves Inv (newPromise st).
Proof. intros Hst s Hs. split; [done|]. by apply inv_alloc. Qed.

Lemma inv_enqueue j : P (reaction_of j) → preserves Inv (enqueue j).
Proof.
  intros Hj s [HF [HP HQ]]. split; [done|]. split; [by apply F_queue|].
  split; [|done]. intros r Hr.
  apply live_enqueue in Hr as [Hr | Hr]; [eauto | by subst r].
Qed.

Lemma inv_performThen p r : P r → preserves Inv (performThen p r).
Proof.
  intros Hr s [HF [HP HQ]]. split; [done|]. rewrite performThen_eq.
  destruct (heap s !! p) as [[rs | v | e]|] eqn:Hp; [| | |done].
  - split; [by apply F_heap|]. split; [|done]. intros r' Hr'.
    apply (live_register _ _ _ _ _ Hp) in Hr' as [Hr' | Hr'];
      [eauto | by subst r'].
  - by apply (inv_enqueue (ReactionJob r (Ok v))).
  - by apply (inv_enqueue (ReactionJob r (Err e))).
Qed.

Lemma inv_settle p o : preserves Inv (settle p o).
Proof.
  intros s [HF [HP HQ]]. split; [done|]. rewrite settle_eq.
  destruct (heap s !! p) as [[rs | v | e]|] eqn:Hp; try done.
  split; [by apply F_queue, F_heap|]. split; [|done].
  intros r Hr. eapply HP, live_settle; eauto.
Qed.

Lemma inv_resolvePromise p v : P (Adopt p) → preserves Inv (resolvePromise p v).
Proof.
  intros Hp. unfold resolvePromise. destruct v; try apply inv_settle.
  case_decide; [apply inv_settle|].
  by apply (inv_enqueue (ResolveThenableJob p _)).
Qed.

Lemma inv_complete q c : P (Adopt q) → preserves Inv (complete q c).
Proof.
  intros Hq. destruct c; cbn; [by apply inv_resolvePromise|apply inv_settle].
Qed.

Lemma inv_then p f :
  (∀ q, P (Then (Some f) None q)) → preserves Inv (then_ p f).
Proof.
  intros Hf s Hs. split; [done|]. rewrite then_eq. cbn [snd].
  apply (inv_performThen _ _ (Hf _)). by apply inv_alloc.
Qed.

Lemma inv_catch p g :
  (∀ q, P (Then None (Some g) q)) → preserves Inv (catch_ p g).
Proof.
  intros Hg s Hs. split; [done|]. rewrite catch_eq. cbn [snd].
  apply (inv_performThen _ _ (Hg _)). by apply inv_alloc.
Qed.

Lemma inv_await p k : P (Await k) → preserves Inv (await p k).
Proof. apply inv_performThen. Qed.

Lemma inv_newLocal v : preserves Inv (newLocal v).
Proof.
  intros s [HF HC]. split; [done|]. split; [by apply F_locals|].
  by apply (closures_same _ _ s).
Qed.

Lemma inv_setLocal x v : preserves Inv (setLocal x v).
Proof.
  intros s [HF HC]. split; [done|]. split; [by apply F_locals|].
  by apply (closures_same _ _ s).
Qed.

Lemma inv_getLocal x : preserves Inv (getLocal x).
Proof. by intros s Hs. Qed.

Lemma inv_sendPromise p : preserves Inv (modify (with_sendPromise p)).
Proof.
  intros s [HF HC]. split; [done|]. split; [by apply F_sendPromise|].
  by apply (closures_same _ _ s).
Qed.

Lemma inv_responses r :
  preserves Inv (modify (λ s, with_responses (responses s ++ [r]) s)).
Proof.
  intros s [HF HC]. split; [done|]. split; [by apply F_responses|].
  by apply (closures_same _ _ s).
Qed.

Lemma inv_dispatch kind k m request options :
  (∀ x, Q {| call_kind := kind; call_promise := x; call_apiKey := k;
             call_model := m; call_request := request;
             call_options := options |}) →
  preserves Inv (dispatch kind k m request options).
Proof.
  intros Hc s Hs. split; [done|]. rewrite dispatch_eq. cbn [snd].
  destruct (inv_alloc (Pending []) s Logic.I Hs) as [HF [HP HQ]].
  split; [by apply F_calls|]. split; [done|].
  intros c [Hin | Hin]%elem_of_app; [by apply HQ|].
  apply list_elem_of_singleton in Hin. by subst c.
Qed.

Lemma inv_pop s j rest :
  queue s = j :: rest → Inv s → Inv (with_queue rest s) ∧ P (reaction_of j).
Proof.
  intros Hq [HF [HP HQ]]. split; [split; [by apply F_queue|split; [|done]]|].
  - intros r [Hr | (j' & Hj & Heq)]; apply HP; [by left|].
    right. exists j'. split; [|done]. rewrite Hq. by right.
  - apply HP. right. exists j. split; [|done]. rewrite Hq. by left.
Qed.

End Closures.

(** ** Every request the session sends *)

Lemma issued_mono evs evs' kind rq o :
  issued evs kind rq o → issued (evs ++ evs') kind rq o.
Proof.
  intros (ro & Hin & Ho). exists ro. split; [|done].
  apply elem_of_app. by left.
Qed.

Lemma built_mono fmt p ro H evs evs' kind request options :
  built fmt p ro H evs kind request options →
  built fmt p ro H (evs ++ evs') kind request options.
Proof.
  intros (Hp & rq & o & c & l & Hi & Hc & Hl & Ho). split; [done|].
  exists rq, o, c, l. split; [by apply issued_mono | done].
Qed.

Lemma pendingOk_mono fmt p ro H evs evs' r :
  pendingOk fmt p ro H evs r → pendingOk fmt p ro H (evs ++ evs') r.
Proof.
  destruct r as [[[]|] g q | [] | q]; cbn; try done.
  - apply built_mono.
  - apply issued_mono.
  - apply issued_mono.
Qed.

Lemma callOk_mono fmt k m p ro H evs evs' c :
  callOk fmt k m p ro H evs c → callOk fmt k m p ro H (evs ++ evs') c.
Proof.
  intros (Hk & Hm & Hb). split; [done|]. split; [done|].
  by apply built_mono.
Qed.

Section Requests.

Variable formatNewContent : Request → jserr + gmap string jsval.
Variable formatBlockErrorMessage : GenerateContentResponse → option string.
Variable isValidResponse : GenerateContentResponse → bool.

Hypothesis contract : validHasCandidate isValidResponse.

Variables (k m : string) (p : option Params.t) (ro : gmap string jsval).
Variable H : list (gmap string jsval).

Local Abbreviation run' :=
  (run formatNewContent formatBlockErrorMessage isValidResponse).
Local Abbreviation step' :=
  (step formatNewContent formatBlockErrorMessage isValidResponse).
Local Abbreviation drain' :=
  (drain formatNewContent formatBlockErrorMessage isValidResponse).
Local Abbreviation runJob' :=
  (runJob formatNewContent formatBlockErrorMessage isValidResponse).
Local Abbreviation F := (configured k m p ro H).
Local Abbreviation P := (pendingOk formatNewContent p ro H).
Local Abbreviation Q := (callOk formatNewContent k m p ro H).
Local Abbreviation Inv :=
  (λ evs s, configured k m p ro H s
            ∧ closures (pendingOk formatNewContent p ro H evs)
                       (callOk formatNewContent k m p ro H evs) s).

Lemma Inv_mono evs evs' s : Inv evs s → Inv (evs ++ evs') s.
Proof.
  intros [HF HC]. split; [done|]. revert HC. apply closures_weaken.
  - intros r. apply pendingOk_mono.
  - intros c. apply callOk_mono.
Qed.

Lemma Inv_snd {A} evs (c : M A) s :
  preserves (Inv evs) c → Inv evs s → Inv evs (c s).2.
Proof. apply preserves_snd. Qed.

Lemma buildRequest_requests evs c :
  yields (Inv evs) (buildRequest c)
    (λ request, fromParams p request
                ∧ ∃ l, contents request = H ++ exchanges l ++ [c]).
Proof.
  intros s Hs. split; [|done].
  destruct Hs as [(_ & _ & Hp & _ & l & Hl) _].
  unfold buildRequest, mbind, M_bind, get, mret, M_ret. cbn [fst].
  injection Hp as E1 E2 E3 E4 E5 E6. split; [done|]. exists l.
  cbn [contents]. by rewrite Hl, <- app_assoc.
Qed.

Lemma chain_requests evs rq o c ret :
  issued evs Unary rq o → formatNewContent rq = inr c →
  preserves (Inv evs) (sendMessage_chain c o ret).
Proof.
  intros Hi Hc. unfold sendMessage_chain.
  eapply yields_bind; [apply buildRequest_requests|].
  intros request [Hp [l Hl]].
  eapply (yields_bind _ _ _ (λ defaults, defaults = ro)).
  { apply yields_get. by intros s [(_ & _ & _ & Hro & _) _]. }
  intros defaults ->.
  apply preserves_bind; [by apply inv_newLocal|]. intros finalResult.
  apply preserves_bind; [by apply yields_get|]. intros tail.
  apply preserves_bind.
  { apply inv_then; try done. intros q. split; [done|].
    by exists rq, o, c, l. }
  intros p1. apply preserves_bind; [by apply inv_then|]. intros p2.
  apply preserves_bind; [by apply inv_catch|]. intros p3.
  apply preserves_bind; [by apply inv_sendPromise|]. intros [].
  apply preserves_bind; [by apply yields_get|]. intros tail'.
  by apply inv_await.
Qed.

Lemma chain_requests_stream evs rq o c ret :
  issued evs Streaming rq o → formatNewContent rq = inr c →
  preserves (Inv evs) (sendMessageStream_chain c o ret).
Proof.
  intros Hi Hc. unfold sendMessageStream_chain.
  eapply yields_bind; [apply buildRequest_requests|].
  intros request [Hp [l Hl]].
  eapply (yields_bind _ _ _ (λ defaults, defaults = ro)).
  { apply yields_get. by intros s [(_ & _ & _ & Hro & _) _]. }
  intros defaults ->.
  eapply (yields_bind _ _ _ (λ apiKey, apiKey = k)).
  { apply yields_get. by intros s [(Hk & _) _]. }
  intros apiKey ->.
  eapply (yields_bind _ _ _ (λ model0, model0 = m)).
  { apply yields_get. by intros s [(_ & Hm & _) _]. }
  intros model0 ->.
  apply preserves_bind.
  { apply inv_dispatch; try done. intros x.
    split; [done|]. split; [done|]. split; [done|].
    by exists rq, o, c, l. }
  intros streamPromise.
  apply preserves_bind; [by apply yields_get|]. intros tail.
  apply preserves_bind; [by apply inv_then|]. intros p1.
  apply preserves_bind; [by apply inv_catch|]. intros p2.
  apply preserves_bind; [by apply inv_then|]. intros p3.
  apply preserves_bind; [by apply inv_then|]. intros p4.
  apply preserves_bind; [by apply inv_catch|]. intros p5.
  apply preserves_bind; [by apply inv_sendPromise|]. intros [].
  by apply inv_resolvePromise.
Qed.

Lemma resume_requests evs aw o :
  P evs (Await aw) → preserves (Inv evs) (resume formatNewContent aw o).
Proof.
  intros Haw.
  destruct aw as [ret | rq ro' ret | fr ret | rq ro' ret], o as [v | e];
    cbn [resume]; try (by apply inv_settle).
  - unfold sendMessage_resumed.
    destruct (formatNewContent rq) as [e | c] eqn:Hc;
      [by apply inv_settle|].
    by apply (chain_requests evs rq).
  - apply preserves_bind; [by apply inv_getLocal|]. intros v'.
    by apply inv_resolvePromise.
  - unfold sendMessageStream_resumed.
    destruct (formatNewContent rq) as [e | c] eqn:Hc;
      [by apply inv_settle|].
    by apply (chain_requests_stream evs rq).
Qed.

(** The admission steps change the history, by whole exchanges, and leave
    the runtime alone. *)
Lemma admission_requests evs f (g : option onRejected) (q : pid) v s :
  (∀ request options, f ≠ CallGenerateContent request options) →
  Inv evs s →
  Inv evs (runFulfilled formatBlockErrorMessage isValidResponse f v s).2.
Proof.
  intros Hf [HF HC].
  assert (keeps configuration
            (runFulfilled formatBlockErrorMessage isValidResponse f v))
    as Hcfg by (by apply framed_runFulfilled).
  specialize (Hcfg s). unfold configuration in Hcfg.
  pose proof (runFulfilled_history formatBlockErrorMessage isValidResponse
                contract f g q v s) as Hh.
  split.
  - destruct HF as (Hk & Hm & Hp & Hro & l & Hl).
    injection Hcfg as E1 E2 G1 G2 G3 G4 G5 G6 E4.
    unfold configured, generation in *.
    rewrite E1, E2, G1, G2, G3, G4, G5, G6, E4, Hh, Hl.
    repeat split; try done.
    destruct (admitted_shape isValidResponse
                (ReactionJob (Then (Some f) g q) (Ok v)))
      as [-> | (u & w & ->)].
    + exists l. by rewrite app_nil_r.
    + exists (l ++ [(u, w)]). by rewrite exchanges_app, <- app_assoc.
  - revert HC.
    destruct f as [request options | fr nc | sp | | nc]; cbn [runFulfilled].
    + by destruct (Hf request options).
    + destruct (admitUnary_runtime formatBlockErrorMessage isValidResponse
                  fr nc v s) as [(Hhp & Hq & Hc & _) _].
      by apply closures_same.
    + done.
    + by destruct v.
    + destruct (admitStream_runtime formatBlockErrorMessage isValidResponse
                  nc v s) as [(Hhp & Hq & Hc & _) _].
      by apply closures_same.
Qed.

Lemma runFulfilled_requests evs f g q v :
  P evs (Then (Some f) g q) →
  preserves (Inv evs)
    (runFulfilled formatBlockErrorMessage isValidResponse f v).
Proof.
  intros Hf.
  destruct f as [request options | fr nc | sp | | nc];
    try (intros s Hs; split; [done|];
         by apply (admission_requests evs _ g q)).
  cbn [runFulfilled].
  eapply (yields_bind _ _ _ (λ apiKey, apiKey = k)).
  { apply yields_get. by intros s [(Hk & _) _]. }
  intros apiKey ->.
  eapply (yields_bind _ _ _ (λ model0, model0 = m)).
  { apply yields_get. by intros s [(_ & Hm & _) _]. }
  intros model0 ->.
  apply preserves_bind; [|intros x; by apply yields_ret].
  by apply inv_dispatch.
Qed.

Lemma runRejected_requests evs g e : preserves (Inv evs) (runRejected g e).
Proof.
  destruct g; cbn [runRejected].
  - apply preserves_bind; [by apply inv_newPromise|]. intros x.
    apply preserves_bind; [by apply inv_sendPromise|]. intros [].
    by apply yields_ret.
  - by apply yields_ret.
  - intros s [HF HC]. rewrite logUnlessSilent_eq. split; [done|].
    split; [done|]. by apply (closures_same _ _ s).
Qed.

Lemma runJob_requests evs j :
  P evs (reaction_of j) → preserves (Inv evs) (runJob' j).
Proof.
  intros Hj. destruct j as [[f g q | aw | q] [v | e] | q x]; cbn [runJob].
  - destruct f as [f|]; [|by apply inv_resolvePromise].
    apply preserves_bind; [by apply (runFulfilled_requests evs f g q)|].
    intros c. by apply inv_complete.
  - destruct g as [g|]; [|by apply inv_settle].
    apply preserves_bind; [apply runRejected_requests|].
    intros c. by apply inv_complete.
  - by apply resume_requests.
  - by apply resume_requests.
  - by apply inv_resolvePromise.
  - by apply inv_settle.
  - by apply inv_performThen.
Qed.

Lemma drain_requests evs n s : Inv evs s → Inv evs (drain' n s).
Proof.
  revert s. induction n as [|n IH]; intros s Hs; cbn; [done|].
  destruct (queue s) as [|j rest] eqn:Hq; [done|].
  apply IH. unfold microtask. rewrite Hq.
  destruct (inv_pop (P evs) (Q evs) F ltac:(done) s j rest Hq Hs)
    as [Hs' Hj].
  unfold exec. apply Inv_snd; [by apply runJob_requests | done].
Qed.

Lemma called_requests evs (aw : pid → awaiter) s :
  (∀ ret, P evs (Await (aw ret))) →
  Inv evs s →
  Inv evs ((ret ← newPromise (Pending []);
            tail ← get _sendPromise;
            await tail (aw ret);; mret ret) s).2.
Proof.
  intros Haw. apply Inv_snd.
  eapply yields_bind; [by apply inv_newPromise|]. intros ret _.
  apply preserves_bind; [by apply yields_get|]. intros tail.
  apply preserves_bind; [by apply inv_await|]. intros [].
  by apply yields_ret.
Qed.

Lemma step_requests evs ev s :
  Inv evs s → Inv (evs ++ [ev]) (step' ev s).
Proof.
  intros Hs%(Inv_mono evs [ev]).
  destruct ev as [| rq o | rq o | n | x r | x e | x | x r | x e];
    cbn [step]; unfold exec.
  - by apply (called_requests _ InGetHistory).
  - apply (called_requests _ (InSendMessage rq (default ∅ o))); [|done].
    intros ret. exists o. split; [|done].
    apply elem_of_app. right. by apply list_elem_of_singleton.
  - apply (called_requests _ (InSendMessageStream rq (default ∅ o))); [|done].
    intros ret. exists o. split; [|done].
    apply elem_of_app. right. by apply list_elem_of_singleton.
  - by apply drain_requests.
  - destruct (isCall _ _ _); [|done].
    apply Inv_snd; [by apply inv_settle | done].
  - destruct (_ || _); [|done].
    apply Inv_snd; [by apply inv_settle | done].
  - destruct (_ && _); [|done]. revert Hs. apply Inv_snd.
    apply preserves_bind; [by apply inv_newPromise|]. intros r.
    apply preserves_bind; [by apply inv_responses|]. intros [].
    by apply inv_settle.
  - case_bool_decide; [|done].
    apply Inv_snd; [by apply inv_settle | done].
  - case_bool_decide; [|done].
    apply Inv_snd; [by apply inv_settle | done].
Qed.

Lemma run_requests evs pre s :
  Inv pre s → Inv (pre ++ evs) (run' evs s).
Proof.
  revert pre s. induction evs as [|ev evs IH]; intros pre s Hs.
  - by rewrite app_nil_r.
  - change (run' (ev :: evs) s) with (run' evs (step' ev s)).
    replace (pre ++ ev :: evs) with ((pre ++ [ev]) ++ evs)
      by (by rewrite <- app_assoc).
    by apply IH, step_requests.
Qed.

Lemma session_requests : Inv [] (session k m p ro H).
Proof.
  split.
  - repeat split. exists []. by rewrite app_nil_r.
  - split.
    + intros r [(x & rs & Hx & Hr) | (j & Hj & _)].
      * destruct x; [done|]. done.
      * by apply elem_of_nil in Hj.
    + intros c Hc. by apply elem_of_nil in Hc.
Qed.

(** X8: every request of a session.  Whatever happens to a new session,
    its API key, model, generation parameters and request options stay
    what the constructor received; the history array of [params] does
    not: it is the history of the session, and grows with it.  Every
    remote call the session makes carries that API key and model and those
    generation parameters, and stems from one send issued to the session
    -- a [sendMessage] for a unary call, a [sendMessageStream] for a
    streaming one: its contents are the initial history, followed by whole
    user/model exchanges, followed by the formatted message of that send,
    and its options are the session's overridden by those of that send. *)
Theorem X8_requests_of_a_session evs :
  let s := run' evs (session k m p ro H) in
  configuration s = (k, m, generation p, ro)
  ∧ params_history s
    = match p ≫= Params.history with
      | Some _ => Some (_history s)
      | None => None
      end
  ∧ ∀ c, c ∈ calls s →
      call_apiKey c = k ∧ call_model c = m
      ∧ fromParams p (call_request c)
      ∧ ∃ request requestOptions newContent l,
          sendEvent (call_kind c) request requestOptions ∈ evs
          ∧ formatNewContent request = inr newContent
          ∧ contents (call_request c) = H ++ exchanges l ++ [newContent]
          ∧ call_options c = spread ro (default ∅ requestOptions).
Proof using contract.
  intros s.
  destruct (run_requests evs [] (session k m p ro H) session_requests)
    as [(Hk & Hm & Hp & Hro & _) [_ HQ]].
  fold s in Hk, Hm, Hp, Hro, HQ. split; [|split].
  - unfold configuration. by rewrite Hk, Hm, Hp, Hro.
  - unfold params_history, s. by rewrite (framed_run params).
  - intros c Hc.
    destruct (HQ c Hc) as (Hck & Hcm & Hcp & rq & o & nc & l & Hi & Hf & Hl
                            & Ho).
    destruct Hi as (requestOptions & Hin & ->).
    split; [done|]. split; [done|]. split; [done|].
    by exists rq, requestOptions, nc, l.
Qed.

End Requests.

(** ** One remote call per send, at most *)

Lemma sum_list_with_insert {A} (f : A → nat) (l : list A) i x y :
  l !! i = Some x →
  sum_list_with f (<[i := y]> l) + f x = sum_list_with f l + f y.
Proof.
  revert i. induction l as [|a l IH]; intros i Hi; [done|].
  destruct i as [|i]; simpl in *.
  - injection Hi as ->. lia.
  - specialize (IH i Hi). lia.
Qed.

Section Counting.

Variable kind : callKind.

Local Abbreviation spends' := (spends kind).

Lemma spends_ret {A} (a : A) : spends' (mret a) 0.
Proof. intros s. cbn. lia. Qed.

Lemma spends_bind {A B} (c : M A) (k : A → M B) n1 n2 :
  spends' c n1 → (∀ a, spends' (k a) n2) → spends' (c ≫= k) (n1 + n2).
Proof.
  intros Hc Hk s. unfold mbind, M_bind.
  specialize (Hc s). destruct (c s) as [a s']. cbn in *.
  specialize (Hk a s'). lia.
Qed.

Lemma spends_get {A} (g : state → A) : spends' (get g) 0.
Proof. intros s. cbn. lia. Qed.

Lemma spends_more {A} (c : M A) n n' :
  spends' c n → (n ≤ n')%nat → spends' c n'.
Proof. intros Hc Hn s. specialize (Hc s). lia. Qed.

Lemma budget_same s s' :
  heap s' = heap s → queue s' = queue s → calls s' = calls s →
  budget kind s' = budget kind s.
Proof. intros Hh Hq Hc. unfold budget, made. by rewrite Hh, Hq, Hc. Qed.

Lemma budget_alloc st s :
  newborn st →
  budget kind (with_heap (heap s ++ [st]) s) = budget kind s.
Proof.
  intros Hst. unfold budget, made. cbn.
  rewrite sum_list_with_app. cbn.
  assert (owed kind st = 0) as -> by (by destruct st as [[]| |]).
  lia.
Qed.

Lemma budget_enqueue j s :
  budget kind (with_queue (queue s ++ [j]) s)
  = budget kind s + owes kind (reaction_of j).
Proof.
  unfold budget, made. cbn. rewrite sum_list_with_app. cbn. lia.
Qed.

Lemma spends_newPromise st : newborn st → spends' (newPromise st) 0.
Proof.
  intros Hst s.
  change (budget kind (with_heap (heap s ++ [st]) s) ≤ budget kind s + 0)%nat.
  rewrite budget_alloc by done. lia.
Qed.

Lemma spends_enqueue j : spends' (enqueue j) (owes kind (reaction_of j)).
Proof.
  intros s.
  change (budget kind (with_queue (queue s ++ [j]) s)
          ≤ budget kind s + owes kind (reaction_of j))%nat.
  by rewrite budget_enqueue.
Qed.

Lemma spends_performThen p r : spends' (performThen p r) (owes kind r).
Proof.
  intros s. rewrite performThen_eq.
  destruct (heap s !! p) as [[rs | v | e]|] eqn:Hp.
  - unfold budget, made. cbn.
    pose proof (sum_list_with_insert (owed kind) (heap s) p (Pending rs)
                  (Pending (rs ++ [r])) Hp) as Hsum.
    cbn in Hsum. rewrite sum_list_with_app in Hsum. cbn in Hsum. lia.
  - by rewrite budget_enqueue.
  - by rewrite budget_enqueue.
  - lia.
Qed.

Lemma spends_settle p o : spends' (settle p o) 0.
Proof.
  intros s. rewrite settle_eq.
  destruct (heap s !! p) as [[rs | v | e]|] eqn:Hp; try lia.
  unfold budget, made. cbn.
  pose proof (sum_list_with_insert (owed kind) (heap s) p (Pending rs)
                (settledState o) Hp) as Hsum.
  assert (owed kind (settledState o) = 0) as Ho by (by destruct o).
  rewrite sum_list_with_app.
  assert (sum_list_with (λ j, owes kind (reaction_of j))
            (map (λ r, ReactionJob r o) rs)
          = sum_list_with (owes kind) rs) as ->.
  { clear. induction rs as [|r rs IH]; [done|]. cbn. by rewrite IH. }
  cbn in Hsum. lia.
Qed.

Lemma spends_resolvePromise p v : spends' (resolvePromise p v) 0.
Proof.
  unfold resolvePromise. destruct v; try apply spends_settle.
  case_decide; [apply spends_settle|].
  apply (spends_enqueue (ResolveThenableJob p _)).
Qed.

Lemma spends_complete q c : spends' (complete q c) 0.
Proof.
  destruct c; cbn; [apply spends_resolvePromise | apply spends_settle].
Qed.

Lemma spends_then p f : spends' (then_ p f) (owesThen kind f).
Proof.
  intros s. rewrite then_eq. cbn [snd].
  pose proof (spends_performThen p (Then (Some f) None (length (heap s)))
                (with_heap (heap s ++ [Pending []]) s)) as Hp.
  rewrite budget_alloc in Hp by done. exact Hp.
Qed.

Lemma spends_catch p g : spends' (catch_ p g) 0.
Proof.
  intros s. rewrite catch_eq. cbn [snd].
  pose proof (spends_performThen p (Then None (Some g) (length (heap s)))
                (with_heap (heap s ++ [Pending []]) s)) as Hp.
  rewrite budget_alloc in Hp by done. exact Hp.
Qed.

Lemma spends_await p k : spends' (await p k) (owesAwait kind k).
Proof. apply (spends_performThen p (Await k)). Qed.

Lemma spends_quiet {A} (c : M A) :
  (∀ s, heap (c s).2 = heap s ∧ queue (c s).2 = queue s
        ∧ calls (c s).2 = calls s) →
  spends' c 0.
Proof.
  intros Hc s. destruct (Hc s) as (Hh & Hq & Hcalls).
  rewrite (budget_same s) by done. lia.
Qed.

Lemma spends_dispatch kind' k m request options :
  spends' (dispatch kind' k m request options) (ofKind kind kind').
Proof.
  intros s. rewrite dispatch_eq. cbn [snd].
  pose proof (budget_alloc (Pending []) s Logic.I) as Ha.
  revert Ha. unfold budget, made. cbn. rewrite !sum_list_with_app. cbn.
  lia.
Qed.

Lemma spends_sendMessage_chain c o ret :
  spends' (sendMessage_chain c o ret) (ofKind kind Unary).
Proof.
  unfold sendMessage_chain.
  replace (ofKind kind Unary)
    with (0 + (0 + (0 + (0 + (ofKind kind Unary + (0 + (0 + (0 + (0 + 0)))))))))
    by lia.
  apply spends_bind; [by apply spends_quiet|]. intros request.
  apply spends_bind; [apply spends_get|]. intros defaults.
  apply spends_bind; [by apply spends_quiet|]. intros finalResult.
  apply spends_bind; [apply spends_get|]. intros tail.
  apply spends_bind.
  { eapply spends_more; [apply spends_then|]. by destruct kind. }
  intros p1. apply spends_bind; [apply (spends_then _ (AdmitUnary _ _))|].
  intros p2. apply spends_bind; [apply spends_catch|].
  intros p3. apply spends_bind; [by apply spends_quiet|].
  intros []. apply spends_bind; [apply spends_get|].
  intros tail'. apply (spends_await _ (InSendMessageEnd _ _)).
Qed.

Lemma spends_sendMessageStream_chain c o ret :
  spends' (sendMessageStream_chain c o ret) (ofKind kind Streaming).
Proof.
  unfold sendMessageStream_chain, generateContentStream.
  replace (ofKind kind Streaming)
    with (0 + (0 + (0 + (0 + (ofKind kind Streaming
            + (0 + (0 + (0 + (0 + (0 + (0 + (0 + 0))))))))))))
    by lia.
  apply spends_bind; [by apply spends_quiet|]. intros request.
  apply spends_bind; [apply spends_get|]. intros defaults.
  apply spends_bind; [apply spends_get|]. intros k.
  apply spends_bind; [apply spends_get|]. intros m.
  apply spends_bind; [apply spends_dispatch|]. intros sp.
  apply spends_bind; [apply spends_get|]. intros tail.
  apply spends_bind; [apply (spends_then _ (ReturnStreamPromise _))|].
  intros p1. apply spends_bind; [apply spends_catch|].
  intros p2. apply spends_bind; [apply (spends_then _ TakeResponse)|].
  intros p3. apply spends_bind; [apply (spends_then _ (AdmitStream _))|].
  intros p4. apply spends_bind; [apply spends_catch|].
  intros p5. apply spends_bind; [by apply spends_quiet|].
  intros []. apply spends_resolvePromise.
Qed.

Variable formatNewContent : Request → jserr + gmap string jsval.
Variable formatBlockErrorMessage : GenerateContentResponse → option string.
Variable isValidResponse : GenerateContentResponse → bool.

Lemma spends_resume k o :
  spends' (resume formatNewContent k o) (owesAwait kind k).
Proof.
  destruct k as [ret | rq ro ret | fr ret | rq ro ret], o as [v | e];
    cbn [resume];
    try (eapply spends_more; [apply spends_settle | lia]).
  - unfold sendMessage_resumed. destruct (formatNewContent rq).
    + eapply spends_more; [apply spends_settle | lia].
    + eapply spends_more; [apply spends_sendMessage_chain|].
      by destruct kind.
  - replace (owesAwait kind (InSendMessageEnd fr ret)) with (0 + 0)
      by (by destruct kind).
    apply spends_bind; [apply spends_get|]. intros v'.
    apply spends_resolvePromise.
  - unfold sendMessageStream_resumed. destruct (formatNewContent rq).
    + eapply spends_more; [apply spends_settle | lia].
    + eapply spends_more; [apply spends_sendMessageStream_chain|].
      by destruct kind.
Qed.

Lemma spends_runFulfilled f v :
  spends' (runFulfilled formatBlockErrorMessage isValidResponse f v)
          (owesThen kind f).
Proof.
  destruct f as [request options | fr nc | sp | | nc]; cbn [runFulfilled].
  - replace (owesThen kind (CallGenerateContent request options))
      with (0 + (0 + (ofKind kind Unary + 0))) by (by destruct kind).
    apply spends_bind; [apply spends_get|]. intros k.
    apply spends_bind; [apply spends_get|]. intros m.
    apply spends_bind; [apply spends_dispatch|]. intros p.
    apply spends_ret.
  - apply (spends_more _ 0); [|lia]. apply spends_quiet. intros s.
    by destruct (admitUnary_runtime formatBlockErrorMessage isValidResponse
                   fr nc v s) as [(Hh & Hq & Hc & _) _].
  - eapply spends_more; [apply spends_ret | lia].
  - destruct v; (eapply spends_more; [apply spends_ret | lia]).
  - apply (spends_more _ 0); [|lia]. apply spends_quiet. intros s.
    by destruct (admitStream_runtime formatBlockErrorMessage isValidResponse
                   nc v s) as [(Hh & Hq & Hc & _) _].
Qed.

Lemma spends_runRejected g e : spends' (runRejected g e) 0.
Proof.
  destruct g; cbn [runRejected].
  - replace 0 with (0 + (0 + 0)) by lia.
    apply spends_bind; [by apply spends_newPromise|]. intros p.
    apply spends_bind; [by apply spends_quiet|]. intros [].
    apply spends_ret.
  - apply spends_ret.
  - apply spends_quiet. intros s. by rewrite logUnlessSilent_eq.
Qed.

Lemma spends_runJob j :
  spends' (runJob formatNewContent formatBlockErrorMessage isValidResponse j)
          (owes kind (reaction_of j)).
Proof.
  destruct j as [[f g q | k | q] [v | e] | q x]; cbn [runJob reaction_of owes].
  - destruct f as [f|].
    + replace (owesThen kind f) with (owesThen kind f + 0) by lia.
      apply spends_bind; [apply spends_runFulfilled|]. intros c.
      apply spends_complete.
    + apply spends_resolvePromise.
  - apply (spends_more _ 0); [|lia]. destruct g as [g|].
    + replace 0 with (0 + 0) by lia.
      apply spends_bind; [apply spends_runRejected|]. intros c.
      apply spends_complete.
    + apply spends_settle.
  - apply spends_resume.
  - apply spends_resume.
  - apply spends_resolvePromise.
  - apply spends_settle.
  - apply (spends_performThen x (Adopt q)).
Qed.

Lemma budget_drain n s :
  (budget kind
     (drain formatNewContent formatBlockErrorMessage isValidResponse n s)
   ≤ budget kind s)%nat.
Proof.
  revert s. induction n as [|n IH]; intros s; cbn; [done|].
  destruct (queue s) as [|j rest] eqn:Hq; [done|].
  etrans; [apply IH|]. unfold microtask. rewrite Hq. unfold exec.
  pose proof (spends_runJob j (with_queue rest s)) as Hj.
  assert (budget kind (with_queue rest s) + owes kind (reaction_of j)
          = budget kind s) as Hpop.
  { unfold budget, made. cbn. rewrite Hq. cbn. lia. }
  lia.
Qed.

Lemma budget_step ev s :
  (budget kind
     (step formatNewContent formatBlockErrorMessage isValidResponse ev s)
   ≤ budget kind s + isSend kind ev)%nat.
Proof.
  destruct ev as [| rq o | rq o | n | x r | x e | x | x r | x e];
    cbn [step]; unfold exec.
  - apply (spends_more getHistory 0); [|by destruct kind].
    unfold getHistory. replace 0 with (0 + (0 + (0 + 0))) by lia.
    apply spends_bind; [by apply spends_newPromise|]. intros ret.
    apply spends_bind; [apply spends_get|]. intros tail.
    apply spends_bind; [apply (spends_await _ (InGetHistory _))|].
    intros []. apply spends_ret.
  - apply (spends_more (sendMessage rq o) (0 + (0 + (isSend kind
             (CallSendMessage rq o) + 0)))); [|lia].
    unfold sendMessage.
    apply spends_bind; [by apply spends_newPromise|]. intros ret.
    apply spends_bind; [apply spends_get|]. intros tail.
    apply spends_bind; [|intros []; apply spends_ret].
    eapply spends_more; [apply spends_await|]. by destruct kind.
  - apply (spends_more (sendMessageStream rq o) (0 + (0 + (isSend kind
             (CallSendMessageStream rq o) + 0)))); [|lia].
    unfold sendMessageStream.
    apply spends_bind; [by apply spends_newPromise|]. intros ret.
    apply spends_bind; [apply spends_get|]. intros tail.
    apply spends_bind; [|intros []; apply spends_ret].
    eapply spends_more; [apply spends_await|]. by destruct kind.
  - pose proof (budget_drain n s). cbn. lia.
  - destruct (isCall _ _ _); [|lia].
    eapply (spends_more (settle _ _)); [apply spends_settle | lia].
  - destruct (_ || _); [|lia].
    eapply (spends_more (settle _ _)); [apply spends_settle | lia].
  - destruct (_ && _); [|lia].
    eapply (spends_more _ (0 + (0 + 0))); [|by destruct kind].
    apply spends_bind; [by apply spends_newPromise|]. intros r.
    apply spends_bind; [by apply spends_quiet|]. intros [].
    apply spends_settle.
  - case_bool_decide; [|lia].
    eapply (spends_more (settle _ _)); [apply spends_settle | lia].
  - case_bool_decide; [|lia].
    eapply (spends_more (settle _ _)); [apply spends_settle | lia].
Qed.

Lemma budget_run evs s :
  (budget kind
     (run formatNewContent formatBlockErrorMessage isValidResponse evs s)
   ≤ budget kind s + sends kind evs)%nat.
Proof.
  revert s. induction evs as [|ev evs IH]; intros s; [cbn; lia|].
  change (run _ _ _ (ev :: evs) s)
    with (run formatNewContent formatBlockErrorMessage isValidResponse evs
            (step formatNewContent formatBlockErrorMessage isValidResponse
               ev s)).
  etrans; [apply IH|]. pose proof (budget_step ev s).
  unfold sends. cbn. fold (sends kind evs). unfold sends. lia.
Qed.

End Counting.

Lemma made_total s : made Unary s + made Streaming s = length (calls s).
Proof.
  unfold made. induction (calls s) as [|c l IH]; [done|].
  cbn [sum_list_with length].
  assert (ofKind Unary (call_kind c) + ofKind Streaming (call_kind c) = 1)
    by (by destruct (call_kind c)).
  lia.
Qed.

Section OneCallPerSend.

Variable formatNewContent : Request → jserr + gmap string jsval.
Variable formatBlockErrorMessage : GenerateContentResponse → option string.
Variable isValidResponse : GenerateContentResponse → bool.

Local Abbreviation run' :=
  (run formatNewContent formatBlockErrorMessage isValidResponse).
Local Abbreviation step' :=
  (step formatNewContent formatBlockErrorMessage isValidResponse).

(** X9: no send calls the service twice.  In any state, an event raises
    the [budget] of a kind of remote call -- the calls made plus those the
    waiting closures are going to make -- by one when it is a call of the
    matching send method, and by nothing otherwise.  Hence whatever happens
    to a new session, it has made at most as many unary remote calls as
    [sendMessage] was called, at most as many streaming remote calls as
    [sendMessageStream] was called, and never more remote calls than
    sends. *)
Theorem X9_one_call_per_send evs k m p ro H :
  let s := run' evs (session k m p ro H) in
  (∀ kind ev s',
     (budget kind (step' ev s') ≤ budget kind s' + isSend kind ev)%nat)
  ∧ (∀ kind, (made kind s ≤ sends kind evs)%nat)
  ∧ (length (calls s) ≤ sends Unary evs + sends Streaming evs)%nat.
Proof.
  intros s.
  assert (∀ kind, (made kind s ≤ sends kind evs)%nat) as Hmade.
  { intros kind.
    pose proof (budget_run kind formatNewContent formatBlockErrorMessage
                  isValidResponse evs (session k m p ro H)) as Hrun.
    fold s in Hrun.
    change (budget kind (session k m p ro H)) with 0 in Hrun.
    unfold budget in Hrun. lia. }
  split; [|split; [exact Hmade|]].
  - intros kind ev s'. apply budget_step.
  - rewrite <- made_total.
    pose proof (Hmade Unary). pose proof (Hmade Streaming). lia.
Qed.

End OneCallPerSend.

(** ** No answer, no new turn *)

Section Unanswered.

Variable formatNewContent : Request → jserr + gmap string jsval.
Variable formatBlockErrorMessage : GenerateContentResponse → option string.
Variable isValidResponse : GenerateContentResponse → bool.

Local Abbreviation run' :=
  (run formatNewContent formatBlockErrorMessage isValidResponse).
Local Abbreviation step' :=
  (step formatNewContent formatBlockErrorMessage isValidResponse).
Local Abbreviation drain' :=
  (drain formatNewContent formatBlockErrorMessage isValidResponse).
Local Abbreviation runJob' :=
  (runJob formatNewContent formatBlockErrorMessage isValidResponse).
Local Abbreviation calm := (preserves unanswered).

Lemma calm_snd {A} (c : M A) s : calm c → unanswered s → unanswered (c s).2.
Proof. apply preserves_snd. Qed.

Lemma calm_newPromise st : noAnswerState st → calm (newPromise st).
Proof.
  intros Hst s (Hh & Hq & Hl). split; [done|]. split; [|done].
  apply Forall_app. split; [done|]. by apply Forall_singleton.
Qed.

Lemma calm_enqueue j : noAnswerJob j → calm (enqueue j).
Proof.
  intros Hj s (Hh & Hq & Hl). split; [done|]. split; [done|]. split; [|done].
  apply Forall_app. split; [done|]. by apply Forall_singleton.
Qed.

Lemma calm_performThen p r : calm (performThen p r).
Proof.
  intros s Hs. split; [done|]. rewrite performThen_eq.
  destruct (heap s !! p) as [[rs | v | e]|] eqn:Hp; [| | |done].
  - destruct Hs as (Hh & Hq & Hl). split; [|done]. by apply Forall_insert.
  - apply (calm_snd (enqueue (ReactionJob r (Ok v)))); [|done].
    apply calm_enqueue. destruct Hs as (Hh & _).
    exact (Forall_lookup_1 _ _ _ _ Hh Hp).
  - by apply (calm_snd (enqueue (ReactionJob r (Err e)))); [apply calm_enqueue|].
Qed.

Lemma calm_settle p o : noAnswerJob (ReactionJob (Adopt p) o) → calm (settle p o).
Proof.
  intros Ho s (Hh & Hq & Hl). split; [done|]. rewrite settle_eq.
  destruct (heap s !! p) as [[rs | v | e]|] eqn:Hp; try done.
  split; [|split; [|done]].
  - apply Forall_insert; [done|]. by destruct o.
  - apply Forall_app. split; [done|]. apply Forall_forall.
    intros j (r & <- & _)%list_elem_of_In%in_map_iff. by destruct o.
Qed.

Lemma calm_resolvePromise p v : noAnswer v → calm (resolvePromise p v).
Proof.
  intros Hv. unfold resolvePromise.
  destruct v; try (by apply calm_settle).
  case_decide; [by apply calm_settle | by apply calm_enqueue].
Qed.

Lemma calm_complete q c :
  (∀ v, c = Return v → noAnswer v) → calm (complete q c).
Proof.
  intros Hc. destruct c as [v | e]; cbn.
  - apply calm_resolvePromise. by apply Hc.
  - by apply calm_settle.
Qed.

Lemma calm_then p f : calm (then_ p f).
Proof.
  intros s Hs. split; [done|]. rewrite then_eq. cbn [snd].
  apply calm_snd; [apply calm_performThen|].
  by apply (calm_snd (newPromise (Pending []))); [apply calm_newPromise|].
Qed.

Lemma calm_catch p g : calm (catch_ p g).
Proof.
  intros s Hs. split; [done|]. rewrite catch_eq. cbn [snd].
  apply calm_snd; [apply calm_performThen|].
  by apply (calm_snd (newPromise (Pending []))); [apply calm_newPromise|].
Qed.

Lemma calm_fields {A} (c : M A) :
  (∀ s, heap (c s).2 = heap s ∧ queue (c s).2 = queue s
        ∧ locals (c s).2 = locals s) →
  calm c.
Proof.
  intros Hc s Hs. split; [done|]. destruct (Hc s) as (Hh & Hq & Hl).
  unfold unanswered. by rewrite Hh, Hq, Hl.
Qed.

Lemma calm_newLocal v : noAnswer v → calm (newLocal v).
Proof.
  intros Hv s (Hh & Hq & Hl). split; [done|]. split; [done|]. split; [done|].
  apply Forall_app. split; [done|]. by apply Forall_singleton.
Qed.

Lemma calm_getLocal x : yields unanswered (getLocal x) noAnswer.
Proof.
  intros s Hs. split; [|done]. cbn.
  destruct (locals s !! x) as [v|] eqn:Hx; [|done].
  destruct Hs as (_ & _ & Hl). exact (Forall_lookup_1 _ _ _ _ Hl Hx).
Qed.

Lemma calm_dispatch kind k m request options :
  calm (dispatch kind k m request options).
Proof.
  intros s Hs. split; [done|]. rewrite dispatch_eq. cbn [snd].
  by destruct (calm_newPromise (Pending []) Logic.I s Hs) as [_ (? & ? & ?)].
Qed.

Lemma calm_sendMessage_chain c o ret : calm (sendMessage_chain c o ret).
Proof.
  unfold sendMessage_chain.
  apply preserves_bind; [by apply calm_fields|]. intros request.
  apply preserves_bind; [by apply yields_get|]. intros defaults.
  apply preserves_bind; [by apply calm_newLocal|]. intros finalResult.
  apply preserves_bind; [by apply yields_get|]. intros tail.
  apply preserves_bind; [apply calm_then|]. intros p1.
  apply preserves_bind; [apply calm_then|]. intros p2.
  apply preserves_bind; [apply calm_catch|]. intros p3.
  apply preserves_bind; [by apply calm_fields|]. intros [].
  apply preserves_bind; [by apply yields_get|]. intros tail'.
  apply calm_performThen.
Qed.

Lemma calm_sendMessageStream_chain c o ret :
  calm (sendMessageStream_chain c o ret).
Proof.
  unfold sendMessageStream_chain, generateContentStream.
  apply preserves_bind; [by apply calm_fields|]. intros request.
  apply preserves_bind; [by apply yields_get|]. intros defaults.
  apply preserves_bind; [by apply yields_get|]. intros k.
  apply preserves_bind; [by apply yields_get|]. intros m.
  apply preserves_bind; [apply calm_dispatch|]. intros sp.
  apply preserves_bind; [by apply yields_get|]. intros tail.
  apply preserves_bind; [apply calm_then|]. intros p1.
  apply preserves_bind; [apply calm_catch|]. intros p2.
  apply preserves_bind; [apply calm_then|]. intros p3.
  apply preserves_bind; [apply calm_then|]. intros p4.
  apply preserves_bind; [apply calm_catch|]. intros p5.
  apply preserves_bind; [by apply calm_fields|]. intros [].
  by apply calm_resolvePromise.
Qed.

Lemma calm_resume k o :
  noAnswerJob (ReactionJob (Await k) o) →
  calm (resume formatNewContent k o).
Proof.
  intros Ho.
  destruct k as [ret | rq ro ret | fr ret | rq ro ret], o as [v | e];
    cbn [resume]; try (by apply calm_settle).
  - unfold sendMessage_resumed. destruct (formatNewContent rq);
      [by apply calm_settle | apply calm_sendMessage_chain].
  - eapply yields_bind; [apply calm_getLocal|]. intros v' Hv'.
    by apply calm_resolvePromise.
  - unfold sendMessageStream_resumed. destruct (formatNewContent rq);
      [by apply calm_settle | apply calm_sendMessageStream_chain].
Qed.

(** Without an answer to admit, the [.then] closures return no answer and
    leave the history alone. *)
Lemma calm_runFulfilled f v :
  noAnswer v →
  yields (λ s, unanswered s)
    (runFulfilled formatBlockErrorMessage isValidResponse f v)
    (λ c, ∀ w, c = Return w → noAnswer w).
Proof.
  intros Hv.
  destruct f as [request options | fr nc | sp | | nc]; cbn [runFulfilled].
  - apply yields_seq; [by apply yields_get|]. intros k.
    apply yields_seq; [by apply yields_get|]. intros m.
    apply yields_seq; [apply calm_dispatch|]. intros p.
    apply yields_ret. by intros w [= <-].
  - destruct v; try done; apply yields_ret; by intros w [=].
  - apply yields_ret. by intros w [= <-].
  - destruct v; try done; apply yields_ret; by intros w [= <-].
  - destruct v; try done; apply yields_ret; by intros w [=].
Qed.

Lemma calm_runRejected g e :
  yields (λ s, unanswered s) (runRejected g e)
    (λ c, ∀ w, c = Return w → noAnswer w).
Proof.
  destruct g; cbn [runRejected].
  - apply yields_seq; [by apply calm_newPromise|]. intros p.
    apply yields_seq; [by apply calm_fields|]. intros [].
    apply yields_ret. by intros w [=].
  - apply yields_ret. by intros w [=].
  - intros s Hs. rewrite logUnlessSilent_eq. split; [|done].
    by intros w [= <-].
Qed.

Lemma calm_runJob j : noAnswerJob j → calm (runJob' j).
Proof.
  intros Hj. destruct j as [[f g q | k | q] [v | e] | q x]; cbn [runJob].
  - destruct f as [f|]; [|by apply calm_resolvePromise].
    eapply yields_bind; [by apply calm_runFulfilled|].
    intros c Hc. by apply calm_complete.
  - destruct g as [g|]; [|by apply calm_settle].
    eapply yields_bind; [apply calm_runRejected|].
    intros c Hc. by apply calm_complete.
  - by apply calm_resume.
  - by apply calm_resume.
  - by apply calm_resolvePromise.
  - by apply calm_settle.
  - apply calm_performThen.
Qed.

Lemma unanswered_history j s :
  noAnswerJob j → _history (exec (runJob' j) s) = _history s.
Proof.
  intros Hj. destruct j as [[f g q | k | q] [v | e] | q x]; cbn [runJob].
  - destruct f as [f|]; [|apply kept_resolvePromise].
    rewrite exec_bind. unfold exec. rewrite kept_complete.
    destruct f as [request options | fr nc | sp | | nc]; cbn [runFulfilled].
    + revert s.
      change (keeps _history
        (k ← get _apiKey; m ← get model;
         p ← generateContent k m request options;
         mret (Return (VPromise p)))).
      unfold generateContent. keeps_auto. apply kept_dispatch.
    + by destruct v.
    + done.
    + by destruct v.
    + by destruct v.
  - destruct g as [g|]; [|apply kept_settle].
    rewrite exec_bind. unfold exec. rewrite kept_complete.
    apply kept_runRejected.
  - apply kept_resume.
  - apply kept_resume.
  - apply kept_resolvePromise.
  - apply kept_settle.
  - apply kept_performThen.
Qed.

Lemma unanswered_drain n s :
  unanswered s →
  unanswered (drain' n s) ∧ _history (drain' n s) = _history s.
Proof.
  revert s. induction n as [|n IH]; intros s Hs; cbn; [done|].
  destruct (queue s) as [|j rest] eqn:Hq; [done|].
  assert (noAnswerJob j ∧ unanswered (with_queue rest s)) as [Hj Hs'].
  { destruct Hs as (Hh & Hqs & Hl). rewrite Hq in Hqs.
    apply Forall_cons in Hqs as [Hj Hrest]. by repeat split. }
  unfold microtask. rewrite Hq.
  destruct (IH (exec (runJob' j) (with_queue rest s))) as [IH1 IH2].
  { unfold exec. by apply calm_snd; [apply calm_runJob|]. }
  split; [done|]. by rewrite IH2, unanswered_history.
Qed.

Lemma unanswered_step ev s :
  isAnswer ev = false → unanswered s →
  unanswered (step' ev s) ∧ _history (step' ev s) = _history s.
Proof.
  intros Hev Hs.
  destruct ev as [| rq o | rq o | n | x r | x e | x | x r | x e];
    try done; cbn [step].
  - split; [|apply kept_getHistory]. unfold exec. revert Hs. apply calm_snd.
    apply preserves_bind; [by apply calm_newPromise|]. intros ret.
    apply preserves_bind; [by apply yields_get|]. intros tail.
    apply preserves_bind; [apply calm_performThen|]. intros [].
    by apply yields_ret.
  - split; [|apply kept_sendMessage]. unfold exec. revert Hs.
    apply calm_snd.
    apply preserves_bind; [by apply calm_newPromise|]. intros ret.
    apply preserves_bind; [by apply yields_get|]. intros tail.
    apply preserves_bind; [apply calm_performThen|]. intros [].
    by apply yields_ret.
  - split; [|apply kept_sendMessageStream]. unfold exec. revert Hs.
    apply calm_snd.
    apply preserves_bind; [by apply calm_newPromise|]. intros ret.
    apply preserves_bind; [by apply yields_get|]. intros tail.
    apply preserves_bind; [apply calm_performThen|]. intros [].
    by apply yields_ret.
  - by apply unanswered_drain.
  - destruct (_ || _); [|done]. unfold exec.
    split; [|apply kept_settle]. by apply calm_snd; [apply calm_settle|].
  - destruct (_ && _); [|done]. unfold exec. split.
    + revert Hs. apply calm_snd.
      apply preserves_bind; [by apply calm_newPromise|]. intros r.
      apply preserves_bind; [by apply calm_fields|]. intros [].
      by apply calm_settle.
    + clear Hs. revert s.
      change (keeps _history
        (r ← newPromise (Pending []);
         modify (λ s, with_responses (responses s ++ [r]) s);;
         settle x (Ok (VStreamResult r)))).
      keeps_auto; apply kept_newPromise || apply kept_settle.
  - case_bool_decide; [|done]. unfold exec.
    split; [|apply kept_settle]. by apply calm_snd; [apply calm_settle|].
Qed.

Lemma unanswered_run evs s :
  forallb (λ ev, negb (isAnswer ev)) evs = true → unanswered s →
  unanswered (run' evs s) ∧ _history (run' evs s) = _history s.
Proof.
  revert s. induction evs as [|ev evs IH]; intros s Hevs Hs; [done|].
  cbn in Hevs. apply andb_true_iff in Hevs as [Hev Hevs].
  apply negb_true_iff in Hev.
  change (run' (ev :: evs) s) with (run' evs (step' ev s)).
  destruct (unanswered_step ev s Hev Hs) as [Hs' Hh].
  destruct (IH (step' ev s) Hevs Hs') as [Hs'' Hh'].
  split; [done|]. by rewrite Hh'.
Qed.

(** X10: no answer, no new turn.  As long as the service has answered
    nothing -- no unary call has returned a result and no stream has
    delivered its aggregated response -- the history of a new session is
    the one it was created with, whatever methods are called, whatever
    fails, and whichever streams are opened. *)
Theorem X10_history_waits_for_answers evs k m p ro H :
  forallb (λ ev, negb (isAnswer ev)) evs = true →
  _history (run' evs (session k m p ro H)) = H.
Proof.
  intros Hevs.
  destruct (unanswered_run evs (session k m p ro H) Hevs) as [_ Hh];
    [|done].
  split; [|split]; [|done|done].
  by apply Forall_singleton.
Qed.

End Unanswered.

(** ** Running the runtime on a heap with an unknown prefix *)

(** The promises of a round are allocated after the [hp] already there, so
    they are [length hp + i] for explicit [i]. *)
Section Suffix.

Variables (k m : string) (p : option Params.t) (ro : gmap string jsval).

Lemma lookup_app_plus {A} (l1 l2 : list A) i :
  (l1 ++ l2) !! (length l1 + i) = l2 !! i.
Proof. rewrite lookup_app_r by lia. f_equal. lia. Qed.

Lemma lookup_app_zero {A} (l1 l2 : list A) :
  (l1 ++ l2) !! length l1 = l2 !! 0.
Proof. by rewrite <- (lookup_app_plus l1 l2 0), Nat.add_0_r. Qed.

Lemma newPromise_at st h t hp l loc q co cs rs :
  newPromise st (State k m p ro h t (hp ++ l) loc q co cs rs)
  = (length hp + length l,
     State k m p ro h t (hp ++ (l ++ [st])) loc q co cs rs).
Proof.
  unfold newPromise, with_heap. cbn. by rewrite length_app, <- app_assoc.
Qed.

Lemma performThen_old x r v h t hp l loc q co cs rs :
  hp !! x = Some (Fulfilled v) →
  performThen x r (State k m p ro h t (hp ++ l) loc q co cs rs)
  = (tt, State k m p ro h t (hp ++ l) loc (q ++ [ReactionJob r (Ok v)])
           co cs rs).
Proof.
  intros Hx. unfold performThen, mbind, M_bind, get. cbn.
  by rewrite (lookup_app_l_Some _ _ _ _ Hx).
Qed.

Lemma performThen_at i r st h t hp l loc q co cs rs :
  l !! i = Some st →
  performThen (length hp + i) r (State k m p ro h t (hp ++ l) loc q co cs rs)
  = (tt,
     match st with
     | Pending rs0 =>
         State k m p ro h t (hp ++ <[i := Pending (rs0 ++ [r])]> l) loc q
               co cs rs
     | Fulfilled v =>
         State k m p ro h t (hp ++ l) loc (q ++ [ReactionJob r (Ok v)])
               co cs rs
     | Rejected e =>
         State k m p ro h t (hp ++ l) loc (q ++ [ReactionJob r (Err e)])
               co cs rs
     end).
Proof.
  intros Hi. unfold performThen, mbind, M_bind, get. cbn.
  rewrite lookup_app_plus, Hi. destruct st; cbn; [|done..].
  unfold with_heap. cbn. by rewrite insert_app_r.
Qed.

Lemma settle_at i o st h t hp l loc q co cs rs :
  l !! i = Some st →
  settle (length hp + i) o (State k m p ro h t (hp ++ l) loc q co cs rs)
  = (tt,
     match st with
     | Pending rs0 =>
         State k m p ro h t (hp ++ <[i := settledState o]> l) loc
               (q ++ map (λ r, ReactionJob r o) rs0) co cs rs
     | _ => State k m p ro h t (hp ++ l) loc q co cs rs
     end).
Proof.
  intros Hi. unfold settle, mbind, M_bind, get. cbn.
  rewrite lookup_app_plus, Hi. destruct st; cbn; [|done..].
  unfold with_heap, with_queue. cbn. rewrite insert_app_r. by destruct o.
Qed.

Lemma resolvePromise_at i v st h t hp l loc q co cs rs :
  plain v → l !! i = Some st →
  resolvePromise (length hp + i) v
    (State k m p ro h t (hp ++ l) loc q co cs rs)
  = (tt,
     match st with
     | Pending rs0 =>
         State k m p ro h t (hp ++ <[i := Fulfilled v]> l) loc
               (q ++ map (λ r, ReactionJob r (Ok v)) rs0) co cs rs
     | _ => State k m p ro h t (hp ++ l) loc q co cs rs
     end).
Proof.
  intros Hv Hi.
  assert (resolvePromise (length hp + i) v = settle (length hp + i) (Ok v))
    as -> by (by destruct v).
  by rewrite (settle_at i (Ok v) st).
Qed.

Lemma resolvePromise_adopt i j h t hp l loc q co cs rs :
  i ≠ j →
  resolvePromise (length hp + i) (VPromise (length hp + j))
    (State k m p ro h t (hp ++ l) loc q co cs rs)
  = (tt, State k m p ro h t (hp ++ l) loc
           (q ++ [ResolveThenableJob (length hp + i) (length hp + j)])
           co cs rs).
Proof.
  intros Hij. unfold resolvePromise. rewrite decide_False by lia. done.
Qed.

Lemma newLocal_at v h t hp loc ll q co cs rs :
  newLocal v (State k m p ro h t hp (loc ++ ll) q co cs rs)
  = (length loc + length ll,
     State k m p ro h t hp (loc ++ (ll ++ [v])) q co cs rs).
Proof.
  unfold newLocal, with_locals. cbn. by rewrite length_app, <- app_assoc.
Qed.

Lemma setLocal_at i v h t hp loc ll q co cs rs :
  setLocal (length loc + i) v (State k m p ro h t hp (loc ++ ll) q co cs rs)
  = (tt, State k m p ro h t hp (loc ++ <[i := v]> ll) q co cs rs).
Proof.
  unfold setLocal, modify, with_locals. cbn. by rewrite insert_app_r.
Qed.

Lemma getLocal_at i h t hp loc ll q co cs rs :
  getLocal (length loc + i) (State k m p ro h t hp (loc ++ ll) q co cs rs)
  = (default VUndefined (ll !! i),
     State k m p ro h t hp (loc ++ ll) q co cs rs).
Proof. unfold getLocal, get. cbn. by rewrite lookup_app_plus. Qed.

Lemma isCall_last kind x cs c h t hp loc q co rs :
  call_promise c = x → call_kind c = kind →
  isCall kind x (State k m p ro h t hp loc q co (cs ++ [c]) rs) = true.
Proof.
  intros Hx Hk. unfold isCall. cbn. rewrite existsb_app. cbn.
  rewrite (bool_decide_eq_true_2 _ (conj Hx Hk)). by rewrite orb_true_r.
Qed.

Lemma anyCall_last x cs c h t hp loc q co rs :
  call_promise c = x →
  isCall Unary x (State k m p ro h t hp loc q co (cs ++ [c]) rs)
  || isCall Streaming x (State k m p ro h t hp loc q co (cs ++ [c]) rs)
  = true.
Proof.
  intros Hx. destruct (call_kind c) eqn:Hk.
  - by rewrite (isCall_last Unary x cs c).
  - rewrite (isCall_last Streaming x cs c) by done. apply orb_true_r.
Qed.

Lemma isPending_at i rs0 h t hp l loc q co cs rs :
  l !! i = Some (Pending rs0) →
  isPending (length hp + i) (State k m p ro h t (hp ++ l) loc q co cs rs)
  = true.
Proof. intros Hi. unfold isPending. cbn. by rewrite lookup_app_plus, Hi. Qed.

Lemma response_last (x : pid) (rs : list pid) :
  bool_decide (x ∈ rs ++ [x]) = true.
Proof. apply bool_decide_eq_true_2. set_solver. Qed.

End Suffix.

(** Evaluation on such a state: the code is unfolded down to the promise
    operations, which are rewritten one after the other. *)
Ltac sym_unfold :=
  cbv beta iota zeta delta
    [exec runJob resume runFulfilled runRejected complete then_ catch_ await
     dispatch generateContent generateContentStream Promise_resolve enqueue
     sendMessage_chain sendMessageStream_chain buildRequest push
     console_warn console_error
     mbind M_bind mret M_ret get modify fst snd
     with_history with_sendPromise with_heap with_locals with_queue
     with_console with_calls with_responses
     _apiKey model params _requestOptions _history _sendPromise heap locals
     queue console calls responses
     getHistory sendMessage sendMessageStream reaction_of microtask step].

Ltac sym_lists :=
  cbn [app length insert list_insert lookup list_lookup map default
       from_option id settledState andb orb].

Ltac sym_prim :=
  first
    [ rewrite newPromise_at
    | rewrite newLocal_at
    | erewrite performThen_old by eassumption
    | erewrite performThen_at by reflexivity
    | erewrite settle_at by reflexivity
    | erewrite resolvePromise_at by first [reflexivity | exact Logic.I]
    | rewrite resolvePromise_adopt by lia
    | rewrite setLocal_at
    | rewrite getLocal_at
    | erewrite anyCall_last by reflexivity
    | erewrite isCall_last by reflexivity
    | erewrite isPending_at by reflexivity
    | rewrite response_last
    | js_equation ].

Ltac sym_state :=
  repeat (sym_unfold; sym_lists; sym_prim); sym_unfold; sym_lists;
  rewrite <- ?app_assoc; reflexivity.

Ltac sym_drain :=
  lazymatch goal with
  | |- drain _ _ _ O _ = _ => apply drain_stop
  | |- drain _ _ _ (S _) _ = _ =>
      first
        [ apply drain_done; reflexivity
        | eapply drain_job; [reflexivity | sym_state | sym_drain] ]
  end.

Ltac sym_events :=
  lazymatch goal with
  | |- run _ _ _ [] _ = _ => apply run_done
  | |- run _ _ _ (Jobs _ :: _) _ = _ =>
      eapply run_jobs; [sym_drain | sym_events]
  | |- run _ _ _ (_ :: _) _ = _ =>
      eapply run_event; [sym_state | sym_events]
  end.

(** ** More sends on a session at rest *)

(** Replace every run from an explicit state by the state it reaches. *)
Ltac sym_run :=
  repeat match goal with
  | |- context [run ?f ?b ?v ?evs ?s] =>
      let E := fresh "E" in
      eassert (E : run f b v evs s = _) by sym_events;
      rewrite E; clear E
  end.

(** A state at rest, spelled out. *)
Ltac at_rest s Hs :=
  let k := fresh "k" in let m := fresh "m" in let p := fresh "p" in
  let ro := fresh "ro" in let h := fresh "h" in let t := fresh "t" in
  let hp := fresh "hp" in let loc := fresh "loc" in let q := fresh "q" in
  let co := fresh "co" in let cs := fresh "cs" in let rs := fresh "rs" in
  let v := fresh "v" in let Hq := fresh "Hq" in let Ht := fresh "Ht" in
  destruct s as [k m p ro h t hp loc q co cs rs];
  destruct Hs as [Hq [v Ht]];
  cbn [queue heap _sendPromise] in Hq, Ht; subst q;
  cbn [heap calls _history console queue _sendPromise locals with_heap
       _apiKey model params _requestOptions responses];
  replace (State k m p ro h t hp loc [] co cs rs)
    with (State k m p ro h t (hp ++ []) (loc ++ []) [] co cs rs)
    by (by rewrite !app_nil_r).

Ltac sym_done :=
  cbn [heap calls _history console queue _sendPromise locals];
  rewrite ?lookup_app_zero, ?lookup_app_plus, ?fmap_app, ?app_nil_r;
  reflexivity.

Section MoreSends.

Variable formatNewContent : Request → jserr + gmap string jsval.
Variable formatBlockErrorMessage : GenerateContentResponse → option string.
Variable isValidResponse : GenerateContentResponse → bool.

Local Abbreviation run' :=
  (run formatNewContent formatBlockErrorMessage isValidResponse).
Local Abbreviation resume' := (resume formatNewContent).
Local Abbreviation sent := (λ c, (call_kind c, contents (call_request c))).

(** X1: a request that [formatNewContent] refuses (it throws [e]), sent
    to a session at rest.  The promise returned by either send method is
    rejected with [e] and the session is otherwise exactly as it was: no
    remote call, no link added to the chain, nothing logged, the history
    untouched.  A send issued at the same time or later is not affected.
    In any state, the resumed method changes neither the history, the
    calls, the console nor [_sendPromise]. *)
Theorem X1_unformattable_request s ra oa rb ob cb e :
  formatNewContent ra = inl e →
  formatNewContent rb = inr cb →
  quiescent s →
  let refused := with_heap (heap s ++ [Rejected e]) s in
  run' [CallSendMessage ra oa; Jobs 12] s = refused
  ∧ run' [CallSendMessageStream ra oa; Jobs 12] s = refused
  ∧ (let s' := run' [CallSendMessage ra oa; CallSendMessage rb ob; Jobs 12]
                    s in
     heap s' !! length (heap s) = Some (Rejected e)
     ∧ sent <$> calls s'
       = (sent <$> calls s) ++ [(Unary, _history s ++ [cb])])
  ∧ (let s' := run' [CallSendMessageStream ra oa; Jobs 12;
                     CallSendMessageStream rb ob; Jobs 12] s in
     sent <$> calls s'
     = (sent <$> calls s) ++ [(Streaming, _history s ++ [cb])])
  ∧ (∀ s0 o ret,
       let s1 := exec (resume' (InSendMessage ra o ret) (Ok VUndefined)) s0 in
       let s2 := exec (resume' (InSendMessageStream ra o ret) (Ok VUndefined))
                      s0 in
       s1 = s2
       ∧ _history s1 = _history s0 ∧ calls s1 = calls s0
       ∧ console s1 = console s0 ∧ _sendPromise s1 = _sendPromise s0).
Proof.
  intros Ha Hb Hs refused. subst refused.
  assert (∀ s0 o ret,
    let s1 := exec (resume' (InSendMessage ra o ret) (Ok VUndefined)) s0 in
    let s2 := exec (resume' (InSendMessageStream ra o ret) (Ok VUndefined))
                   s0 in
    s1 = s2
    ∧ _history s1 = _history s0 ∧ calls s1 = calls s0
    ∧ console s1 = console s0 ∧ _sendPromise s1 = _sendPromise s0) as Hany.
  { intros s0 o ret. cbn [resume].
    unfold sendMessage_resumed, sendMessageStream_resumed. rewrite Ha.
    split; [done|]. unfold exec. rewrite settle_eq.
    by destruct (heap s0 !! ret) as [[]|]. }
  at_rest s Hs.
  split; [|split; [|split; [|split]]]; try exact Hany.
  - sym_run. by rewrite !app_nil_r.
  - sym_run. by rewrite !app_nil_r.
  - split; sym_run; sym_done.
  - sym_run. sym_done.
Qed.

(** X2: callers queued behind a unary send share its failure.  On a
    session at rest whose heap holds [n] promises, a unary send (promise
    [n], remote call [n + 4]) is waiting for the service when a
    [getHistory] (promise [n + 5]), a [sendMessage] (promise [n + 6]) and a
    [sendMessageStream] (promise [n + 7]) are issued.  When the remote call
    fails with [e], all four promises are rejected with [e], and the two
    queued sends never reach the service; the history and the console are
    untouched, and the session is at rest again.  Behind a failing
    streaming send (promise [n], remote call [n + 1]) nothing of the kind
    happens: the queued [getHistory] (promise [n + 7]) is fulfilled and the
    queued send is dispatched. *)
Theorem X2_failure_reaches_queued_callers s ra oa rb ob ca cb e :
  formatNewContent ra = inr ca →
  formatNewContent rb = inr cb →
  quiescent s →
  let n := length (heap s) in
  let queued := [CallGetHistory; CallSendMessage rb ob] in
  (let s' := run' ([CallSendMessage ra oa; Jobs 12] ++ queued
                   ++ [CallSendMessageStream rb ob; Jobs 12;
                       CallFails (n + 4) e; Jobs 12]) s in
   heap s' !! n = Some (Rejected e)
   ∧ heap s' !! (n + 5) = Some (Rejected e)
   ∧ heap s' !! (n + 6) = Some (Rejected e)
   ∧ heap s' !! (n + 7) = Some (Rejected e)
   ∧ sent <$> calls s' = (sent <$> calls s) ++ [(Unary, _history s ++ [ca])]
   ∧ _history s' = _history s
   ∧ console s' = console s
   ∧ heap s' !! _sendPromise s' = Some (Fulfilled VUndefined)
   ∧ queue s' = [])
  ∧ (let s' := run' ([CallSendMessageStream ra oa; Jobs 12] ++ queued
                     ++ [Jobs 12; CallFails (n + 1) e; Jobs 12]) s in
     heap s' !! n = Some (Rejected e)
     ∧ heap s' !! (n + 7) = Some (Fulfilled VHistory)
     ∧ heap s' !! (n + 8) = Some (Pending [])
     ∧ sent <$> calls s'
       = (sent <$> calls s)
         ++ [(Streaming, _history s ++ [ca]); (Unary, _history s ++ [cb])]
     ∧ _history s' = _history s
     ∧ console s' = console s
     ∧ queue s' = []).
Proof.
  intros Ha Hb Hs n queued. subst n queued. cbn [app].
  at_rest s Hs.
  split; repeat split; sym_run; sym_done.
Qed.

(** X3: what a streaming send hands over, and when.  On a session at rest
    whose heap holds [n] promises, the promise returned to the caller
    (promise [n]) is fulfilled with the stream result as soon as the remote
    call (promise [n + 1]) yields it, while the history is still the old
    one.  The exchange is admitted only when the response promise of the
    stream (promise [n + 7]) is fulfilled; a [getHistory] (promise [n + 8])
    and a send (promise [n + 9]) issued in between wait for that moment,
    and the request of that send carries the streamed exchange. *)
Theorem X3_stream_result_before_admission s ra oa rb ob ca cb r c :
  formatNewContent ra = inr ca →
  formatNewContent rb = inr cb →
  isValidResponse r = true →
  firstContent r = inr c →
  quiescent s →
  let n := length (heap s) in
  let opened := [CallSendMessageStream ra oa; Jobs 12;
                 StreamOpens (n + 1); Jobs 12] in
  let between := opened ++ [CallGetHistory; CallSendMessage rb ob; Jobs 12] in
  (let s' := run' [CallSendMessageStream ra oa; Jobs 12] s in
   heap s' !! n = Some (Pending [])
   ∧ sent <$> calls s'
     = (sent <$> calls s) ++ [(Streaming, _history s ++ [ca])])
  ∧ (let s' := run' opened s in
     heap s' !! n = Some (Fulfilled (VStreamResult (n + 7)))
     ∧ heap s' !! (n + 7) = Some (Pending [Adopt (n + 4)])
     ∧ _history s' = _history s
     ∧ queue s' = [])
  ∧ (let s' := run' between s in
     heap s' !! (n + 8) = Some (Pending [])
     ∧ heap s' !! (n + 9) = Some (Pending [])
     ∧ length (calls s') = S (length (calls s))
     ∧ _history s' = _history s
     ∧ queue s' = [])
  ∧ (let s' := run' (between ++ [StreamCompletes (n + 7) r; Jobs 12]) s in
     _history s' = _history s ++ [ca; streamResponseContent c]
     ∧ heap s' !! (n + 8) = Some (Fulfilled VHistory)
     ∧ sent <$> calls s'
       = (sent <$> calls s)
         ++ [(Streaming, _history s ++ [ca]);
             (Unary, _history s ++ [ca; streamResponseContent c; cb])]
     ∧ console s' = console s
     ∧ queue s' = []).
Proof.
  intros Ha Hb Hr Hc Hs n opened between. subst n opened between. cbn [app].
  at_rest s Hs.
  split; [|split; [|split]]; repeat split; sym_run; try sym_done.
  cbn [calls]. rewrite length_app. cbn. lia.
Qed.

End MoreSends.

(** ** A response accepted without a first candidate *)

Section NoCandidate.

Variable formatNewContent : Request → jserr + gmap string jsval.
Variable formatBlockErrorMessage : GenerateContentResponse → option string.
Variable isValidResponse : GenerateContentResponse → bool.

Local Abbreviation run' :=
  (run formatNewContent formatBlockErrorMessage isValidResponse).
Local Abbreviation admitUnary' :=
  (admitUnary formatBlockErrorMessage isValidResponse).
Local Abbreviation admitStream' :=
  (admitStream formatBlockErrorMessage isValidResponse).

Lemma firstContent_throws r e :
  firstContent r = inl e →
  (candidates r = None ∧ firstContentOptional r = inr None)
  ∨ (candidates r = Some [] ∧ firstContentOptional r = inl e).
Proof.
  unfold firstContent, firstContentOptional.
  destruct (candidates r) as [[|c rest]|]; intros Heq; [|done|].
  - right. by injection Heq as <-.
  - by left.
Qed.

(** X5: the admission steps push the user turn before they read the
    first candidate.  When [isValidResponse] accepts a response whose
    [candidates] is missing or empty (so that [response.candidates[0]
    .content] throws [e]), the streaming step throws after the user turn
    alone has entered the history, and the error is logged.  The unary
    step does the same on an empty [candidates]: the caller's promise is
    rejected although the remote call succeeded, the chain is reset, and
    the next request carries two user turns in a row.  On a missing
    [candidates] the optional chain of the unary step yields no content,
    and the default turn is stored.  The sends are issued to a session at
    rest whose heap holds [n] promises. *)
Theorem X5_admission_without_candidate s ra oa rb ob ca cb res e :
  formatNewContent ra = inr ca →
  formatNewContent rb = inr cb →
  isValidResponse (response res) = true →
  firstContent (response res) = inl e →
  quiescent s →
  let r := response res in
  let n := length (heap s) in
  (∀ s0, let out := admitStream' ca (VResponse r) s0 in
         out.1 = Throw e ∧ _history out.2 = _history s0 ++ [ca])
  ∧ (let s' := run' [CallSendMessageStream ra oa; Jobs 12;
                     StreamOpens (n + 1); Jobs 12;
                     StreamCompletes (n + 7) r; Jobs 12] s in
     heap s' !! n = Some (Fulfilled (VStreamResult (n + 7)))
     ∧ _history s' = _history s ++ [ca]
     ∧ console s' = console s ++ [Error e]
     ∧ heap s' !! _sendPromise s' = Some (Fulfilled VUndefined))
  ∧ (candidates r = Some [] →
     (∀ finalResult s0,
        let out := admitUnary' finalResult ca (VResult res) s0 in
        out.1 = Throw e
        ∧ _history out.2 = _history s0 ++ [ca]
        ∧ locals out.2 = locals s0)
     ∧ (let s' := run' [CallSendMessage ra oa; Jobs 12;
                        UnaryReturns (n + 4) res; Jobs 12] s in
        heap s' !! n = Some (Rejected e)
        ∧ _history s' = _history s ++ [ca]
        ∧ heap s' !! _sendPromise s' = Some (Fulfilled VUndefined)
        ∧ queue s' = [])
     ∧ (let s' := run' [CallSendMessage ra oa; Jobs 12;
                        UnaryReturns (n + 4) res; Jobs 12;
                        CallSendMessage rb ob; Jobs 12] s in
        (λ c, contents (call_request c)) <$> calls s'
        = ((λ c, contents (call_request c)) <$> calls s)
          ++ [_history s ++ [ca]; _history s ++ [ca; cb]]))
  ∧ (candidates r = None →
     (∀ finalResult s0,
        let out := admitUnary' finalResult ca (VResult res) s0 in
        out.1 = Return VUndefined
        ∧ _history out.2
          = _history s0
            ++ [ca; {[ "parts" := JArr []; "role" := JStr "model" ]}])
     ∧ (let s' := run' [CallSendMessage ra oa; Jobs 12;
                        UnaryReturns (n + 4) res; Jobs 12] s in
        heap s' !! n = Some (Fulfilled (VResult res))
        ∧ _history s'
          = _history s
            ++ [ca; {[ "parts" := JArr []; "role" := JStr "model" ]}])).
Proof.
  intros Ha Hb Hr He Hs r n. subst r n.
  assert (errorLogs e = [Error e]) as Hlog.
  { revert He. unfold firstContent.
    destruct (candidates (response res)) as [[|]|]; by intros [= <-]. }
  split; [|split; [|split]].
  - intros s0. rewrite (admitStream_throw _ _ _ _ _ Hr He).
    unfold push, modify, mbind, M_bind, mret, M_ret. by cbn.
  - at_rest s Hs. repeat split; sym_run; rewrite ?Hlog; sym_done.
  - intros Hc.
    destruct (firstContent_throws _ _ He) as [[Hn _] | [_ Ho]];
      [congruence|].
    split; [|split].
    + intros finalResult s0. rewrite (admitUnary_throw _ _ _ _ _ _ Hr Ho).
      unfold push, modify, mbind, M_bind, mret, M_ret. by cbn.
    + at_rest s Hs. repeat split; sym_run; sym_done.
    + at_rest s Hs. sym_run. sym_done.
  - intros Hc.
    destruct (firstContent_throws _ _ He) as [[_ Ho] | [Hn _]];
      [|congruence].
    assert (unaryResponseContent None
            = {[ "parts" := JArr []; "role" := JStr "model" ]}) as Hturn.
    { unfold unaryResponseContent. apply map_eq. intros f.
      rewrite spread_lookup. cbn. by rewrite lookup_empty. }
    split.
    + intros finalResult s0. rewrite (admitUnary_valid _ _ _ _ _ _ Hr Ho).
      unfold push, setLocal, modify, mbind, M_bind, mret, M_ret. cbn.
      by rewrite Hturn, <- app_assoc.
    + rewrite <- Hturn. at_rest s Hs. repeat split; sym_run; sym_done.
Qed.

End NoCandidate.

Section Rounds.

Variable formatNewContent : Request → jserr + gmap string jsval.
Variable formatBlockErrorMessage : GenerateContentResponse → option string.
Variable isValidResponse : GenerateContentResponse → bool.

Hypothesis contract : validHasCandidate isValidResponse.

Local Abbreviation run' :=
  (run formatNewContent formatBlockErrorMessage isValidResponse).
Local Abbreviation roundEvents' := (roundEvents formatNewContent).
Local Abbreviation roundPromises' := (roundPromises formatNewContent).
Local Abbreviation roundTurns' :=
  (roundTurns formatNewContent isValidResponse).
Local Abbreviation roundResult' := (roundResult formatNewContent).
Local Abbreviation roundContents' := (roundContents formatNewContent).

(** One round, from a session at rest whose heap is [hp]. *)
Lemma round_spec r k m p ro h t hp loc co cs rs v :
  hp !! t = Some (Fulfilled v) →
  ∃ l t' v' loc' co' cl rs',
    run' (roundEvents' (length hp) r) (State k m p ro h t hp loc [] co cs rs)
    = State k m p ro (h ++ roundTurns' r) t' (hp ++ l) loc' [] co'
            (cs ++ cl) rs'
    ∧ (hp ++ l) !! t' = Some (Fulfilled v')
    ∧ length l = roundPromises' r
    ∧ l !! 0 = Some (roundResult' (length hp) r)
    ∧ (λ c, contents (call_request c)) <$> cl = roundContents' h r.
Proof using contract.
  intros Ht.
  replace (State k m p ro h t hp loc [] co cs rs)
    with (State k m p ro h t (hp ++ []) (loc ++ []) [] co cs rs)
    by (by rewrite !app_nil_r).
  unfold roundEvents, roundPromises, roundTurns, roundResult, roundContents.
  destruct r as [rq o [e | res] | rq o [e | resp]]; cbn [roundRequest];
    destruct (formatNewContent rq) as [fe | c] eqn:Hc;
    cbn [roundResponse roundModelTurn].
  - exists [Rejected fe], t, v. eexists. eexists. exists []. eexists.
    split; [rewrite (app_nil_r h), (app_nil_r cs); sym_events|].
    split; [by apply lookup_app_l_Some|]. done.
  - do 7 eexists.
    split; [rewrite (app_nil_r h); sym_events|].
    split; [by rewrite (lookup_app_plus hp _ 5)|]. done.
  - exists [Rejected fe], t, v. eexists. eexists. exists []. eexists.
    split; [rewrite (app_nil_r h), (app_nil_r cs); sym_events|].
    split; [by apply lookup_app_l_Some|]. done.
  - destruct (isValidResponse (response res)) eqn:Hr.
    + pose proof (firstContentOptional_valid _ _ contract Hr) as Hmc.
      do 7 eexists. split; [sym_events|].
      split; [by rewrite (lookup_app_plus hp _ 3)|]. done.
    + do 7 eexists. split; [rewrite (app_nil_r h); sym_events|].
      split; [by rewrite (lookup_app_plus hp _ 3)|]. done.
  - exists [Rejected fe], t, v. eexists. eexists. exists []. eexists.
    split; [rewrite (app_nil_r h), (app_nil_r cs); sym_events|].
    split; [by apply lookup_app_l_Some|]. done.
  - do 7 eexists.
    split; [rewrite (app_nil_r h); sym_events|].
    split; [by rewrite (lookup_app_plus hp _ 6)|]. done.
  - exists [Rejected fe], t, v. eexists. eexists. exists []. eexists.
    split; [rewrite (app_nil_r h), (app_nil_r cs); sym_events|].
    split; [by apply lookup_app_l_Some|]. done.
  - destruct (isValidResponse resp) eqn:Hr.
    + pose proof (firstContent_valid _ _ contract Hr) as Hmc.
      do 7 eexists. split; [sym_events|].
      split; [by rewrite (lookup_app_plus hp _ 6)|]. done.
    + do 7 eexists. split; [rewrite (app_nil_r h); sym_events|].
      split; [by rewrite (lookup_app_plus hp _ 6)|]. done.
Qed.

Local Abbreviation conversation' := (conversation formatNewContent).
Local Abbreviation requestContents' :=
  (requestContents formatNewContent isValidResponse).
Local Abbreviation callerResults' := (callerResults formatNewContent).

(** A whole conversation, from a session at rest whose heap is [hp]. *)
Lemma conversation_spec rounds k m p ro h t hp loc co cs rs v :
  hp !! t = Some (Fulfilled v) →
  let s := run' (conversation' (length hp) rounds)
                (State k m p ro h t hp loc [] co cs rs) in
  _history s = h ++ flat_map roundTurns' rounds
  ∧ (λ c, contents (call_request c)) <$> calls s
    = ((λ c, contents (call_request c)) <$> cs) ++ requestContents' h rounds
  ∧ Forall (λ xs, heap s !! xs.1 = Some xs.2)
           (callerResults' (length hp) rounds)
  ∧ quiescent s
  ∧ ∃ l, heap s = hp ++ l.
Proof using contract.
  revert h t hp loc co cs rs v.
  induction rounds as [|r rounds IH]; intros h t hp loc co cs rs v Ht s.
  - subst s. cbn. rewrite !app_nil_r. repeat split; try done.
    + by exists v.
    + exists []. by rewrite app_nil_r.
  - destruct (round_spec r k m p ro h t hp loc co cs rs v Ht)
      as (l & t' & v' & loc' & co' & cl & rs' & Hrun & Ht' & Hl & Hl0 & Hcl).
    assert (length hp + roundPromises' r = length (hp ++ l)) as Hlen
      by (rewrite length_app; lia).
    subst s. cbn [conversation callerResults]. rewrite run_app, Hrun, Hlen.
    destruct (IH (h ++ roundTurns' r) t' (hp ++ l) loc' co' (cs ++ cl) rs'
                 v' Ht')
      as (Hh & Hc & Hres & Hq & l2 & Hheap).
    split; [|split; [|split; [|split]]].
    + rewrite Hh. cbn [flat_map]. by rewrite app_assoc.
    + rewrite Hc, fmap_app, Hcl. cbn [requestContents].
      by rewrite app_assoc.
    + apply Forall_cons. split; [|exact Hres].
      cbn [fst snd]. rewrite Hheap, <- app_assoc.
      rewrite <- (Nat.add_0_r (length hp)) at 1. rewrite lookup_app_plus.
      by apply lookup_app_l_Some.
    + exact Hq.
    + exists (l ++ l2). by rewrite Hheap, app_assoc.
Qed.


End Rounds.

(** * Whole sends: turns, warnings and error logs

    What a send does to the history and to the console, for a send issued
    to a session at rest and for a [sendMessageStream] issued right after
    an unawaited [sendMessage].  In the second case both methods pass
    their first [await] on the same fulfilled promise; the streaming
    method then chains its bookkeeping onto the link of the unary send,
    and the rejection of that link, when the unary call fails, is caught
    by the [.catch] that was written for the errors of the stream. *)

(** ** Remote calls that are not the last one made *)

(** The event of a remote call may name any call of the record, not only
    the last one. *)

Lemma isCall_among kind x k m p ro h t hp loc q co cs l rs :
  Exists (λ c, call_promise c = x ∧ call_kind c = kind) l →
  isCall kind x (State k m p ro h t hp loc q co (cs ++ l) rs) = true.
Proof.
  intros (c & Hc & Hx)%Exists_exists. unfold isCall. cbn [calls].
  apply existsb_exists. exists c. split.
  - apply list_elem_of_In. set_solver.
  - by apply bool_decide_eq_true_2.
Qed.

Lemma anyCall_among x k m p ro h t hp loc q co cs l rs :
  Exists (λ c, call_promise c = x) l →
  isCall Unary x (State k m p ro h t hp loc q co (cs ++ l) rs)
  || isCall Streaming x (State k m p ro h t hp loc q co (cs ++ l) rs)
  = true.
Proof.
  intros (c & Hc & Hx)%Exists_exists.
  assert (Exists (λ c', call_promise c' = x ∧ call_kind c' = call_kind c) l)
    as Hk by (apply Exists_exists; by exists c).
  destruct (call_kind c).
  - by rewrite (isCall_among Unary x).
  - rewrite (isCall_among Streaming x) by done. apply orb_true_r.
Qed.

Lemma response_among (x : pid) (rs l : list pid) :
  x ∈ l → bool_decide (x ∈ rs ++ l) = true.
Proof. intros Hx. apply bool_decide_eq_true_2. set_solver. Qed.

Ltac sym_among :=
  first
    [ apply Exists_cons_hd; first [split; reflexivity | reflexivity]
    | apply Exists_cons_tl; sym_among
    | apply list_elem_of_here
    | apply list_elem_of_further; sym_among ].

Ltac sym_prim ::=
  first
    [ rewrite newPromise_at
    | rewrite newLocal_at
    | erewrite performThen_old by eassumption
    | erewrite performThen_at by reflexivity
    | erewrite settle_at by reflexivity
    | erewrite resolvePromise_at by first [reflexivity | exact Logic.I]
    | rewrite resolvePromise_adopt by lia
    | rewrite setLocal_at
    | rewrite getLocal_at
    | erewrite anyCall_last by reflexivity
    | erewrite isCall_last by reflexivity
    | rewrite anyCall_among by sym_among
    | rewrite isCall_among by sym_among
    | erewrite isPending_at by reflexivity
    | rewrite response_last
    | rewrite response_among by sym_among
    | js_equation ].

(** ** The turns of a send *)

Section Turns.

Variable formatNewContent : Request → jserr + gmap string jsval.
Variable formatBlockErrorMessage : GenerateContentResponse → option string.
Variable isValidResponse : GenerateContentResponse → bool.

Hypothesis contract : validHasCandidate isValidResponse.

Local Abbreviation run' :=
  (run formatNewContent formatBlockErrorMessage isValidResponse).
Local Abbreviation step' :=
  (step formatNewContent formatBlockErrorMessage isValidResponse).
Local Abbreviation runJob' :=
  (runJob formatNewContent formatBlockErrorMessage isValidResponse).

(** The turns that a response adds to the history when it is admitted. *)
Local Abbreviation turns' :=
  (λ (newContent modelTurn : gmap string jsval) (r : GenerateContentResponse),
     if isValidResponse r then [newContent; modelTurn] else []).

(** C2, as the code behaves.  A send issued to a session at rest (its
    heap holds [n] promises) and answered by the service appends the user
    turn and the model turn when the response is valid, and nothing when
    it is not; a send whose remote call fails appends nothing.  No job, no
    event and no run changes the history in another way than by appending
    whole user/model exchanges.  But a valid response does not always
    bring its two turns: when a [sendMessage] and a [sendMessageStream]
    are issued back to back, the streaming send chains its bookkeeping
    onto the link of the unary send, and when the unary call (promise
    [n + 11]) fails, that link is rejected and the bookkeeping is skipped.
    The streaming caller (promise [n + 1]) has its stream and the response
    (promise [n + 12]) is complete, yet the history is unchanged, also for
    a valid response.  Behind a [sendMessageStream] whose call (promise
    [n + 2]) fails, the same send does append its turns: the last [.catch]
    of that chain has swallowed the failure. *)
Theorem C2_history_grows_by_exchanges s ra oa rb ob ca cb res r e :
  formatNewContent ra = inr ca →
  formatNewContent rb = inr cb →
  quiescent s →
  let n := length (heap s) in
  (let s' := run' [CallSendMessage ra oa; Jobs 12;
                   UnaryReturns (n + 4) res; Jobs 12] s in
   heap s' !! n = Some (Fulfilled (VResult res))
   ∧ _history s'
     = _history s
       ++ turns' ca (unaryResponseContent
                       (firstCandidateContent (response res)))
                 (response res)
   ∧ queue s' = [])
  ∧ (let s' := run' [CallSendMessageStream ra oa; Jobs 12;
                     StreamOpens (n + 1); Jobs 12;
                     StreamCompletes (n + 7) r; Jobs 12] s in
     heap s' !! n = Some (Fulfilled (VStreamResult (n + 7)))
     ∧ heap s' !! (n + 7) = Some (Fulfilled (VResponse r))
     ∧ _history s'
       = _history s
         ++ turns' ca (streamResponseContent (firstCandidateContent r)) r
     ∧ queue s' = [])
  ∧ (let s' := run' [CallSendMessage ra oa; Jobs 12;
                     CallFails (n + 4) e; Jobs 12] s in
     heap s' !! n = Some (Rejected e) ∧ _history s' = _history s)
  ∧ (let s' := run' [CallSendMessageStream ra oa; Jobs 12;
                     CallFails (n + 1) e; Jobs 12] s in
     heap s' !! n = Some (Rejected e) ∧ _history s' = _history s)
  ∧ (let s' := run' [CallSendMessage ra oa; CallSendMessageStream rb ob;
                     Jobs 12;
                     StreamOpens (n + 5); Jobs 12;
                     CallFails (n + 11) e; Jobs 12;
                     StreamCompletes (n + 12) r; Jobs 12] s in
     heap s' !! n = Some (Rejected e)
     ∧ heap s' !! (n + 1) = Some (Fulfilled (VStreamResult (n + 12)))
     ∧ heap s' !! (n + 12) = Some (Fulfilled (VResponse r))
     ∧ _history s' = _history s
     ∧ queue s' = [])
  ∧ (let s' := run' [CallSendMessageStream ra oa;
                     CallSendMessageStream rb ob; Jobs 12;
                     StreamOpens (n + 8); Jobs 12;
                     CallFails (n + 2) e; Jobs 12;
                     StreamCompletes (n + 14) r; Jobs 12] s in
     heap s' !! n = Some (Rejected e)
     ∧ heap s' !! (n + 1) = Some (Fulfilled (VStreamResult (n + 14)))
     ∧ heap s' !! (n + 14) = Some (Fulfilled (VResponse r))
     ∧ _history s'
       = _history s
         ++ turns' cb (streamResponseContent (firstCandidateContent r)) r
     ∧ queue s' = [])
  ∧ (∀ j s0, _history (exec (runJob' j) s0)
             = _history s0 ++ admitted isValidResponse j)
  ∧ (∀ j, admitted isValidResponse j = []
          ∨ ∃ u m, admitted isValidResponse j = [u; m])
  ∧ (∀ ev s0, ∃ l, _history (step' ev s0) = _history s0 ++ exchanges l)
  ∧ (∀ evs s0, ∃ l, _history (run' evs s0) = _history s0 ++ exchanges l).
Proof using contract.
  intros Ha Hb Hs n. subst n.
  assert (∀ evs s0, ∃ l, _history (run' evs s0) = _history s0 ++ exchanges l)
    as Hruns.
  { induction evs as [|ev evs IH]; intros s0.
    - exists []. by rewrite app_nil_r.
    - change (run' (ev :: evs) s0) with (run' evs (step' ev s0)).
      destruct (IH (step' ev s0)) as [l2 ->].
      destruct (step_history formatNewContent formatBlockErrorMessage
                  isValidResponse contract ev s0) as [l1 ->].
      exists (l1 ++ l2). by rewrite exchanges_app, app_assoc. }
  at_rest s Hs.
  split; [|split; [|split; [|split; [|split; [|split; [|split; [|split;
    [|split]]]]]]]].
  - destruct (isValidResponse (response res)) eqn:Hr.
    + pose proof (firstContentOptional_valid _ _ contract Hr) as Hmc.
      repeat split; sym_run; sym_done.
    + repeat split; sym_run; sym_done.
  - destruct (isValidResponse r) eqn:Hr.
    + pose proof (firstContent_valid _ _ contract Hr) as Hmc.
      repeat split; sym_run; sym_done.
    + repeat split; sym_run; sym_done.
  - repeat split; sym_run; sym_done.
  - repeat split; sym_run; sym_done.
  - repeat split; sym_run; sym_done.
  - destruct (isValidResponse r) eqn:Hr.
    + pose proof (firstContent_valid _ _ contract Hr) as Hmc.
      repeat split; sym_run; sym_done.
    + repeat split; sym_run; sym_done.
  - by apply runJob_history.
  - apply admitted_shape.
  - by apply step_history.
  - exact Hruns.
Qed.

End Turns.

(** ** Blocked responses *)

Section Blocked.

Variable formatNewContent : Request → jserr + gmap string jsval.
Variable formatBlockErrorMessage : GenerateContentResponse → option string.
Variable isValidResponse : GenerateContentResponse → bool.

Local Abbreviation run' :=
  (run formatNewContent formatBlockErrorMessage isValidResponse).
Local Abbreviation blockWarnings' := (blockWarnings formatBlockErrorMessage).

(** C4, as the code behaves: a blocked response ([isValidResponse] is
    false).  For a send issued to a session at rest (its heap holds [n]
    promises), the caller's promise (promise [n]) is fulfilled -- on the
    unary path with the whole result --, the history is untouched and the
    console receives exactly [blockWarnings]: one warning when
    [formatBlockErrorMessage] gives a non-empty text, nothing otherwise.
    The admission steps do the same in any state.  But the warning is not
    always given: when a [sendMessage] and a [sendMessageStream] are
    issued back to back and the unary call (promise [n + 11]) fails, the
    admission step of the streaming send is skipped; its caller (promise
    [n + 1]) has the stream and the blocked response (promise [n + 12]) is
    complete, yet nothing is logged, whatever [formatBlockErrorMessage]
    says of the response.  Behind a [sendMessageStream] whose call (promise
    [n + 2]) fails, the warning is given. *)
Theorem C4_blocked_response s ra oa rb ob ca cb r e :
  formatNewContent ra = inr ca →
  formatNewContent rb = inr cb →
  isValidResponse r = false →
  quiescent s →
  let n := length (heap s) in
  (let s' := run' [CallSendMessage ra oa; Jobs 12;
                   UnaryReturns (n + 4) {| response := r |}; Jobs 12] s in
   heap s' !! n = Some (Fulfilled (VResult {| response := r |}))
   ∧ _history s' = _history s
   ∧ console s' = console s ++ blockWarnings' "sendMessage" r
   ∧ heap s' !! _sendPromise s' = Some (Fulfilled VUndefined)
   ∧ queue s' = [])
  ∧ (let s' := run' [CallSendMessageStream ra oa; Jobs 12;
                     StreamOpens (n + 1); Jobs 12;
                     StreamCompletes (n + 7) r; Jobs 12] s in
     heap s' !! n = Some (Fulfilled (VStreamResult (n + 7)))
     ∧ heap s' !! (n + 7) = Some (Fulfilled (VResponse r))
     ∧ _history s' = _history s
     ∧ console s' = console s ++ blockWarnings' "sendMessageStream" r
     ∧ heap s' !! _sendPromise s' = Some (Fulfilled VUndefined)
     ∧ queue s' = [])
  ∧ (∀ method,
       (∀ text, formatBlockErrorMessage r = Some text → text ≠ "" →
                blockWarnings' method r = [Warn (unsuccessful method text)])
       ∧ (formatBlockErrorMessage r = None
          ∨ formatBlockErrorMessage r = Some "" →
          blockWarnings' method r = []))
  ∧ (∀ finalResult newContent s0,
       let out := admitUnary formatBlockErrorMessage isValidResponse
                    finalResult newContent (VResult {| response := r |}) s0 in
       out.1 = Return VUndefined
       ∧ _history out.2 = _history s0
       ∧ console out.2 = console s0 ++ blockWarnings' "sendMessage" r)
  ∧ (∀ newContent s0,
       let out := admitStream formatBlockErrorMessage isValidResponse
                    newContent (VResponse r) s0 in
       out.1 = Return VUndefined
       ∧ _history out.2 = _history s0
       ∧ console out.2 = console s0 ++ blockWarnings' "sendMessageStream" r)
  ∧ (let s' := run' [CallSendMessage ra oa; CallSendMessageStream rb ob;
                     Jobs 12;
                     StreamOpens (n + 5); Jobs 12;
                     CallFails (n + 11) e; Jobs 12;
                     StreamCompletes (n + 12) r; Jobs 12] s in
     heap s' !! (n + 1) = Some (Fulfilled (VStreamResult (n + 12)))
     ∧ heap s' !! (n + 12) = Some (Fulfilled (VResponse r))
     ∧ _history s' = _history s
     ∧ console s' = console s
     ∧ queue s' = [])
  ∧ (let s' := run' [CallSendMessageStream ra oa;
                     CallSendMessageStream rb ob; Jobs 12;
                     StreamOpens (n + 8); Jobs 12;
                     CallFails (n + 2) e; Jobs 12;
                     StreamCompletes (n + 14) r; Jobs 12] s in
     heap s' !! (n + 1) = Some (Fulfilled (VStreamResult (n + 14)))
     ∧ heap s' !! (n + 14) = Some (Fulfilled (VResponse r))
     ∧ _history s' = _history s
     ∧ console s' = console s ++ blockWarnings' "sendMessageStream" r
     ∧ queue s' = []).
Proof.
  intros Ha Hb Hr Hs n. subst n.
  split; [|split; [|split; [|split; [|split; [|split]]]]].
  - at_rest s Hs. repeat split; sym_run; sym_done.
  - at_rest s Hs. repeat split; sym_run; sym_done.
  - intros method. unfold blockWarnings. split.
    + intros text -> Hne. by apply String.eqb_neq in Hne as ->.
    + by intros [-> | ->].
  - intros finalResult newContent s0.
    rewrite (admitUnary_blocked _ _ _ _ {| response := r |} Hr).
    unfold mbind, M_bind. by rewrite warnBlocked_eq.
  - intros newContent s0. rewrite (admitStream_blocked _ _ _ _ Hr).
    unfold mbind, M_bind. by rewrite warnBlocked_eq.
  - at_rest s Hs. repeat split; sym_run; sym_done.
  - at_rest s Hs. repeat split; sym_run; sym_done.
Qed.

End Blocked.

(** ** Failures of a streaming send *)

Section StreamFailures.

Variable formatNewContent : Request → jserr + gmap string jsval.
Variable formatBlockErrorMessage : GenerateContentResponse → option string.
Variable isValidResponse : GenerateContentResponse → bool.

Local Abbreviation run' :=
  (run formatNewContent formatBlockErrorMessage isValidResponse).
Local Abbreviation asked :=
  (λ c, (call_kind c, contents (call_request c))).

(** The response promise of a streaming send (promise [n + 7]) is
    rejected, on a session at rest whose heap holds [n] promises: the
    console receives [errorLogs], and the chain ends fulfilled. *)
Lemma stream_breaks s ra oa ca e :
  formatNewContent ra = inr ca →
  quiescent s →
  let n := length (heap s) in
  let s' := run' [CallSendMessageStream ra oa; Jobs 12;
                  StreamOpens (n + 1); Jobs 12;
                  StreamBreaks (n + 7) e; Jobs 12] s in
  heap s' !! n = Some (Fulfilled (VStreamResult (n + 7)))
  ∧ heap s' !! (n + 7) = Some (Rejected e)
  ∧ console s' = console s ++ errorLogs e
  ∧ _history s' = _history s
  ∧ heap s' !! _sendPromise s' = Some (Fulfilled VUndefined)
  ∧ queue s' = [].
Proof.
  intros Ha Hs n. subst n. at_rest s Hs. repeat split; sym_run; sym_done.
Qed.

(** The same rejection when the streaming send was issued right after an
    unawaited [sendMessage] whose remote call (promise [n + 11]) fails with
    [e]: the link of the unary send is rejected, the first [.catch] of the
    streaming chain turns [e] into the marker (promise [n + 7]), and the
    steps that read and admit the response are skipped.  The rejection of
    the response promise (promise [n + 12]) finds no handler, and the
    console stays as it was. *)
Lemma raced_stream_breaks s ra oa rb ob ca cb e e2 :
  formatNewContent ra = inr ca →
  formatNewContent rb = inr cb →
  quiescent s →
  let n := length (heap s) in
  let s' := run' [CallSendMessage ra oa; CallSendMessageStream rb ob;
                  Jobs 12;
                  StreamOpens (n + 5); Jobs 12;
                  CallFails (n + 11) e; Jobs 12;
                  StreamBreaks (n + 12) e2; Jobs 12] s in
  heap s' !! n = Some (Rejected e)
  ∧ heap s' !! (n + 1) = Some (Fulfilled (VStreamResult (n + 12)))
  ∧ heap s' !! (n + 7) = Some (Rejected (JsError "Error" SILENT_ERROR))
  ∧ heap s' !! (n + 12) = Some (Rejected e2)
  ∧ console s' = console s
  ∧ _history s' = _history s
  ∧ queue s' = [].
Proof.
  intros Ha Hb Hs n. subst n. at_rest s Hs. repeat split; sym_run; sym_done.
Qed.


End StreamFailures.

(** ** The statements on an example session *)

(** The example collaborators meet the contract of [isValidResponse]. *)
Lemma stubValid_contract : validHasCandidate stubValid.
Proof.
  intros r. unfold stubValid.
  destruct (candidates r) as [[|c rest]|]; [done| |done].
  intros _. by exists c, rest.
Defined.

(** The example session is at rest. *)
Lemma session_at_rest k m p ro H : quiescent (session k m p ro H).
Proof. split; [done|]. by exists VUndefined. Defined.

(** C1 on an example: ["a"] then ["b"] without awaiting; the request of
    ["b"] carries only its own turn, while the history already holds the
    exchange of ["a"]. *)
Lemma C1_overlapping_sends_witness :
  _history
    (run stubFormat stubBlock stubValid
       [CallSendMessage (RequestString "a") None;
        CallSendMessage (RequestString "b") None; Jobs 12;
        UnaryReturns 9 {| response := reply "hi" |}; Jobs 12]
       (session "key" "m" None ∅ []))
  = [userTurn "a"; modelTurn "hi"]
  ∧ (λ c, (call_promise c, contents (call_request c)))
      <$> calls
            (run stubFormat stubBlock stubValid
               [CallSendMessage (RequestString "a") None;
                CallSendMessage (RequestString "b") None; Jobs 12;
                UnaryReturns 9 {| response := reply "hi" |}; Jobs 12]
               (session "key" "m" None ∅ []))
    = [(9, [userTurn "a"]); (10, [userTurn "b"])].
Proof.
  destruct (C1_overlapping_sends stubFormat stubBlock stubValid
              "key" "m" None ∅ []
              (RequestString "a") None (RequestString "b") None
              (userTurn "a") (userTurn "b")
              {| response := reply "hi" |} {| response := reply "ho" |}
              _ _ _
              eq_refl eq_refl eq_refl eq_refl eq_refl eq_refl eq_refl)
    as (_ & (W1 & W2 & _) & _).
  split; [exact W1 | exact W2].
Defined.

(** C2 on an example.  A send that is awaited appends its exchange.  But
    ["a"] and then a streamed ["b"] are sent without awaiting, the call of
    ["a"] fails and the stream of ["b"] delivers a valid response: the
    caller of ["b"] holds the stream, the response is complete, and the
    history is empty. *)
Lemma C2_history_grows_by_exchanges_witness :
  _history
    (run stubFormat stubBlock stubValid
       [CallSendMessage (RequestString "a") None; Jobs 12;
        UnaryReturns 5 {| response := reply "hi" |}; Jobs 12]
       (session "key" "m" None ∅ []))
  = [userTurn "a"; modelTurn "hi"]
  ∧ (let s' :=
       run stubFormat stubBlock stubValid
         [CallSendMessage (RequestString "a") None;
          CallSendMessageStream (RequestString "b") None; Jobs 12;
          StreamOpens 6; Jobs 12;
          CallFails 12 (JsError "Error" "fetch failed"); Jobs 12;
          StreamCompletes 13 (reply "ho"); Jobs 12]
         (session "key" "m" None ∅ []) in
     heap s' !! 2 = Some (Fulfilled (VStreamResult 13))
     ∧ heap s' !! 13 = Some (Fulfilled (VResponse (reply "ho")))
     ∧ stubValid (reply "ho") = true
     ∧ _history s' = []).
Proof.
  destruct (C2_history_grows_by_exchanges stubFormat stubBlock stubValid
              stubValid_contract (session "key" "m" None ∅ [])
              (RequestString "a") None (RequestString "b") None
              (userTurn "a") (userTurn "b")
              {| response := reply "hi" |} (reply "ho")
              (JsError "Error" "fetch failed") eq_refl eq_refl
              (session_at_rest _ _ _ _ _))
    as ((_ & W1 & _) & _ & _ & _ & (_ & W2 & W3 & W4 & _) & _).
  split; [exact W1|]. split; [exact W2|]. split; [exact W3|].
  split; [reflexivity | exact W4].
Defined.

(** C3 on an example: the first send fails in transport; the caller sees the
    error, and the next send is dispatched with a request built from the
    unchanged (empty) history. *)
Lemma C3_failed_send_resets_chain_witness :
  heap (run stubFormat stubBlock stubValid
          [CallSendMessage (RequestString "a") None; Jobs 12;
           CallFails 5 (JsError "Error" "fetch failed"); Jobs 12]
          (session "key" "m" None ∅ []))
    !! 1 = Some (Rejected (JsError "Error" "fetch failed"))
  ∧ (λ c, (call_promise c, contents (call_request c)))
      <$> calls
            (run stubFormat stubBlock stubValid
               [CallSendMessage (RequestString "a") None; Jobs 12;
                CallFails 5 (JsError "Error" "fetch failed"); Jobs 12;
                CallSendMessage (RequestString "b") None; Jobs 12]
               (session "key" "m" None ∅ []))
    = [(5, [userTurn "a"]); (11, [userTurn "b"])].
Proof.
  destruct (C3_failed_send_resets_chain stubFormat stubBlock stubValid
              "key" "m" None ∅ []
              (RequestString "a") None (RequestString "b") None
              (userTurn "a") (userTurn "b")
              (JsError "Error" "fetch failed")
              {| response := reply "hi" |} _
              eq_refl eq_refl eq_refl eq_refl)
    as (_ & _ & (W1 & _) & W2 & _).
  split; [exact W1 | exact W2].
Defined.

(** C4 on an example.  A blocked response to an awaited send leaves the
    history empty and logs one warning.  But ["a"] and then a streamed
    ["b"] are sent without awaiting, the call of ["a"] fails and the
    stream of ["b"] delivers a blocked response with the explanation
    ["SAFETY"]: nothing is logged. *)
Lemma C4_blocked_response_witness :
  (let s' :=
     run stubFormat stubBlock stubValid
       [CallSendMessage (RequestString "hello") None; Jobs 12;
        UnaryReturns 5 {| response := blocked "SAFETY" |}; Jobs 12]
       (session "key" "m" None ∅ []) in
   _history s' = []
   ∧ console s'
     = [Warn "sendMessage() was unsuccessful. SAFETY. Inspect response object for details."])
  ∧ (let s' :=
       run stubFormat stubBlock stubValid
         [CallSendMessage (RequestString "a") None;
          CallSendMessageStream (RequestString "b") None; Jobs 12;
          StreamOpens 6; Jobs 12;
          CallFails 12 (JsError "Error" "fetch failed"); Jobs 12;
          StreamCompletes 13 (blocked "SAFETY"); Jobs 12]
         (session "key" "m" None ∅ []) in
     heap s' !! 2 = Some (Fulfilled (VStreamResult 13))
     ∧ heap s' !! 13 = Some (Fulfilled (VResponse (blocked "SAFETY")))
     ∧ stubBlock (blocked "SAFETY") = Some "SAFETY"
     ∧ console s' = []).
Proof.
  destruct (C4_blocked_response stubFormat stubBlock stubValid
              (session "key" "m" None ∅ [])
              (RequestString "hello") None (RequestString "b") None
              (userTurn "hello") (userTurn "b") (blocked "SAFETY")
              (JsError "Error" "fetch failed") eq_refl eq_refl eq_refl
              (session_at_rest _ _ _ _ _))
    as ((_ & W1 & W2 & _) & _).
  destruct (C4_blocked_response stubFormat stubBlock stubValid
              (session "key" "m" None ∅ [])
              (RequestString "a") None (RequestString "b") None
              (userTurn "a") (userTurn "b") (blocked "SAFETY")
              (JsError "Error" "fetch failed") eq_refl eq_refl eq_refl
              (session_at_rest _ _ _ _ _))
    as (_ & _ & _ & _ & _ & (W3 & W4 & _ & W5 & _) & _).
  split; [split; [exact W1 | exact W2]|].
  split; [exact W3|]. split; [exact W4|]. split; [reflexivity | exact W5].
Defined.



(** C6 on an example: [getHistory] right after an unawaited send resolves
    with the empty history while the send is still pending. *)
Lemma C6_getHistory_after_unawaited_send_witness :
  heap (run stubFormat stubBlock stubValid
          [CallSendMessage (RequestString "hello") None; CallGetHistory;
           Jobs 12]
          (session "key" "m" None ∅ []))
    !! 2 = Some (Fulfilled VHistory)
  ∧ _history
      (run stubFormat stubBlock stubValid
         [CallSendMessage (RequestString "hello") None; CallGetHistory;
          Jobs 12]
         (session "key" "m" None ∅ []))
    = [].
Proof.
  destruct (C6_getHistory_after_unawaited_send stubFormat stubBlock stubValid
              "key" "m" None ∅ [] (RequestString "hello") None
              (userTurn "hello") {| response := reply "hi" |} _
              eq_refl eq_refl eq_refl)
    as ((W1 & W2 & _) & _).
  split; [exact W1 | exact W2].
Defined.

(** C7 on an example: ["hello"] answered by one candidate with parts
    [[{ text: "hi" }]] and no role. *)
Lemma C7_role_defaults_to_model_witness :
  _history
    (run stubFormat stubBlock stubValid
       [CallSendMessage (RequestString "hello") None; Jobs 12;
        UnaryReturns 5 {| response := reply "hi" |}; Jobs 12]
       (session "key" "m" None ∅ []))
  = [userTurn "hello"; modelTurn "hi"].
Proof.
  destruct (C7_role_defaults_to_model stubFormat stubBlock stubValid
              "key" "m" None ∅ [] (RequestString "hello") None
              (userTurn "hello") (reply "hi") 0
              (session "key" "m" None ∅ [])
              stubValid_contract eq_refl eq_refl eq_refl)
    as (_ & _ & _ & _ & W & _).
  exact W.
Defined.

(** C8 on an example: the call's [timeout] wins, the session's
    [apiVersion] is kept. *)
Lemma C8_request_options_witness :
  call_options
    <$> calls
          (run stubFormat stubBlock stubValid
             [CallSendMessage (RequestString "hello")
                (Some {[ "timeout" := JStr "30" ]});
              Jobs 4]
             (session "key" "m" None
                {[ "timeout" := JStr "10"; "apiVersion" := JStr "v1" ]} []))
  = [ {[ "timeout" := JStr "30"; "apiVersion" := JStr "v1" ]} ].
Proof.
  destruct (C8_request_options stubFormat stubBlock stubValid
              "key" "m" None
              {[ "timeout" := JStr "10"; "apiVersion" := JStr "v1" ]} []
              (RequestString "hello") (Some {[ "timeout" := JStr "30" ]})
              (userTurn "hello") eq_refl)
    as (_ & W & _).
  exact W.
Defined.

(** C10 on an example: a content [{ role: undefined }] keeps its [role] and
    gets the default [parts]. *)
Lemma C10_unary_response_content_witness :
  unaryResponseContent (Some {[ "role" := JUndefined ]}) !! "role"
  = Some JUndefined
  ∧ unaryResponseContent (Some {[ "role" := JUndefined ]}) !! "parts"
    = Some (JArr []).
Proof.
  destruct (C10_unary_response_content stubBlock stubValid
              0 (userTurn "hello")
              {| response :=
                   {| candidates :=
                        Some [ {| content := Some {[ "role" := JUndefined ]};
                                  finishReason := JUndefined |} ];
                      promptFeedback := JUndefined |} |}
              (session "key" "m" None ∅ [])
              stubValid_contract eq_refl)
    as (_ & _ & _ & W1 & _ & W2 & _).
  split; [exact (W2 eq_refl) | exact (W1 eq_refl)].
Defined.

(** X1 on an example: an array request, which the example formatter
    refuses, is rejected without leaving a trace in the session. *)
Lemma X1_unformattable_request_witness :
  run stubFormat stubBlock stubValid
    [CallSendMessage (RequestArray []) None; Jobs 12]
    (session "key" "m" None ∅ [])
  = with_heap [Fulfilled VUndefined;
               Rejected (JsError "Error" "unsupported request")]
      (session "key" "m" None ∅ []).
Proof.
  destruct (X1_unformattable_request stubFormat stubBlock stubValid
              (session "key" "m" None ∅ [])
              (RequestArray []) None (RequestString "b") None
              (userTurn "b") (JsError "Error" "unsupported request")
              eq_refl eq_refl (session_at_rest _ _ _ _ _))
    as (W & _).
  exact W.
Defined.

(** X2 on an example: a [getHistory] queued behind a unary send whose
    remote call fails is rejected with the error of that call. *)
Lemma X2_failure_reaches_queued_callers_witness :
  heap
    (run stubFormat stubBlock stubValid
       [CallSendMessage (RequestString "a") None; Jobs 12;
        CallGetHistory; CallSendMessage (RequestString "b") None;
        CallSendMessageStream (RequestString "b") None; Jobs 12;
        CallFails 5 (JsError "Error" "fetch failed"); Jobs 12]
       (session "key" "m" None ∅ []))
    !! 6
  = Some (Rejected (JsError "Error" "fetch failed")).
Proof.
  destruct (X2_failure_reaches_queued_callers stubFormat stubBlock stubValid
              (session "key" "m" None ∅ [])
              (RequestString "a") None (RequestString "b") None
              (userTurn "a") (userTurn "b")
              (JsError "Error" "fetch failed") eq_refl eq_refl
              (session_at_rest _ _ _ _ _))
    as ((_ & W & _) & _).
  exact W.
Defined.

(** X3 on an example: the caller holds the stream result while the
    history is still empty. *)
Lemma X3_stream_result_before_admission_witness :
  heap
    (run stubFormat stubBlock stubValid
       [CallSendMessageStream (RequestString "a") None; Jobs 12;
        StreamOpens 2; Jobs 12]
       (session "key" "m" None ∅ []))
    !! 1
  = Some (Fulfilled (VStreamResult 8))
  ∧ _history
      (run stubFormat stubBlock stubValid
         [CallSendMessageStream (RequestString "a") None; Jobs 12;
          StreamOpens 2; Jobs 12]
         (session "key" "m" None ∅ []))
    = [].
Proof.
  destruct (X3_stream_result_before_admission stubFormat stubBlock stubValid
              (session "key" "m" None ∅ [])
              (RequestString "a") None (RequestString "b") None
              (userTurn "a") (userTurn "b") (reply "hi") _
              eq_refl eq_refl eq_refl eq_refl (session_at_rest _ _ _ _ _))
    as (_ & (W1 & _ & W2 & _) & _).
  split; [exact W1 | exact W2].
Defined.

(** X5 on an example: a predicate that accepts a response without
    candidates lets the user turn alone into the history. *)
Lemma X5_admission_without_candidate_witness :
  _history
    (run stubFormat stubBlock stubAlwaysValid
       [CallSendMessageStream (RequestString "a") None; Jobs 12;
        StreamOpens 2; Jobs 12;
        StreamCompletes 8 (blocked "SAFETY"); Jobs 12]
       (session "key" "m" None ∅ []))
  = [userTurn "a"].
Proof.
  destruct (X5_admission_without_candidate stubFormat stubBlock
              stubAlwaysValid (session "key" "m" None ∅ [])
              (RequestString "a") None (RequestString "b") None
              (userTurn "a") (userTurn "b")
              {| response := blocked "SAFETY" |} _
              eq_refl eq_refl eq_refl eq_refl (session_at_rest _ _ _ _ _))
    as (_ & (_ & W & _) & _).
  exact W.
Defined.

(** X8 on an example: the configuration after an exchange, on a session
    created with generation parameters and a history. *)
Lemma X8_requests_of_a_session_witness :
  configuration
    (run stubFormat stubBlock stubValid
       [CallSendMessage (RequestString "a") None; Jobs 12;
        UnaryReturns 5 {| response := reply "hi" |}; Jobs 12]
       (session "key" "m"
          (Some (Params.Build_t (Some [userTurn "x"; modelTurn "y"])
                   (JStr "strict") JUndefined JUndefined JUndefined
                   (JStr "be brief") JUndefined))
          ∅ [userTurn "x"; modelTurn "y"]))
  = ("key", "m",
     [JStr "strict"; JUndefined; JUndefined; JUndefined; JStr "be brief";
      JUndefined], ∅).
Proof.
  destruct (X8_requests_of_a_session stubFormat stubBlock stubValid
              stubValid_contract "key" "m"
              (Some (Params.Build_t (Some [userTurn "x"; modelTurn "y"])
                       (JStr "strict") JUndefined JUndefined JUndefined
                       (JStr "be brief") JUndefined))
              ∅ [userTurn "x"; modelTurn "y"]
              [CallSendMessage (RequestString "a") None; Jobs 12;
               UnaryReturns 5 {| response := reply "hi" |}; Jobs 12])
    as (W & _).
  exact W.
Defined.

(** X10 on an example: a send whose call fails, followed by a second send
    that is still waiting, has not changed the history. *)
Lemma X10_history_waits_for_answers_witness :
  _history
    (run stubFormat stubBlock stubValid
       [CallSendMessage (RequestString "a") None; Jobs 12;
        CallFails 5 (JsError "Error" "fetch failed"); Jobs 12;
        CallSendMessageStream (RequestString "b") None; Jobs 12;
        StreamOpens 8; Jobs 12]
       (session "key" "m" None ∅ [userTurn "x"; modelTurn "y"]))
  = [userTurn "x"; modelTurn "y"].
Proof.
  apply (X10_history_waits_for_answers stubFormat stubBlock stubValid).
  reflexivity.
Defined.

